(** * my-snake-app: the authoritative game server, embedded in Rocq

    The server (one Node.js file) keeps a registry of players, each with a
    worm, a list of food items and a few counters, and advances them in a
    fixed-rate loop: bot AI, movement ([updateWorm]), collisions
    ([checkCollisions]) and the snapshot with its leaderboard
    ([getLeaderboard]).

    JavaScript numbers are kept abstract behind the class [JsNumber], so that
    every function of the server is written once and read under two
    interpretations:
    - [QNumber]: exact rational arithmetic, the idealised reading in which
      the arithmetic of the server is carried out without rounding;
    - [F64Number]: IEEE 754 binary64 with round-to-nearest-even, on the
      standard library's [spec_float].
    [Math.cos], [Math.sin], [Math.atan2] and the outcomes of [Math.random()]
    belong to the platform and are parameters ([Trig], [RandomSource]);
    [Date.now()] is an argument of the functions that read the clock. *)

From Stdlib Require Import ZArith QArith Qround Qabs Lia Lqa Bool Sorted Permutation.
From Stdlib Require Import Floats.SpecFloat.
From stdpp Require Import base list strings pretty.

(* ================================================================== *)
(** ** JavaScript numbers *)

Class JsNumber (num : Type) := {
  of_Z : Z -> num;                  (* an integer literal *)
  add : num -> num -> num;          (* a + b *)
  sub : num -> num -> num;          (* a - b *)
  mul : num -> num -> num;          (* a * b *)
  div : num -> num -> num;          (* a / b *)
  rem : num -> num -> num;          (* a % b, sign of the dividend *)
  neg : num -> num;                 (* -a *)
  ltb : num -> num -> bool;         (* a < b *)
  leb : num -> num -> bool;         (* a <= b *)
  eqb : num -> num -> bool;         (* a === b on numbers *)
  Math_PI : num;
  Math_abs : num -> num;
  Math_sign : num -> num;
  Math_floor : num -> num;
  isFinite : num -> bool;
  toIndex : num -> option nat       (* the array index a number denotes *)
}.

(** [Math.cos], [Math.sin] and [Math.atan2]. *)
Class Trig (num : Type) := {
  Math_cos : num -> num;
  Math_sin : num -> num;
  Math_atan2 : num -> num -> num
}.

(** The values that the successive calls of [Math.random()] return. *)
Class RandomSource (num : Type) := {
  Math_random : nat -> num
}.

(** *** Exact rationals *)

(** [a % b] is [a - b * trunc (a / b)]: the quotient is truncated toward zero,
    so the result has the sign of the dividend. *)
Definition Qtrunc (q : Q) : Z := Z.quot (Qnum q) (Zpos (Qden q)).

Definition Qrem (a b : Q) : Q := (a - b * inject_Z (Qtrunc (a / b)))%Q.

Definition Qltb (a b : Q) : bool := negb (Qle_bool b a).

Definition Qsign (a : Q) : Q :=
  if Qltb 0 a then 1%Q else if Qltb a 0 then (-1)%Q else a.

Definition Q_toIndex (a : Q) : option nat :=
  let r := Qred a in
  if (Zpos (Qden r) =? 1)%Z && (0 <=? Qnum r)%Z then Some (Z.to_nat (Qnum r))
  else None.

(** The value of the double [Math.PI], 0x400921FB54442D18. *)
Definition Q_PI : Q := 7074237752028440 # 2251799813685248.

#[export] Instance QNumber : JsNumber Q := {|
  of_Z := inject_Z;
  add := Qplus;
  sub := Qminus;
  mul := Qmult;
  div := Qdiv;
  rem := Qrem;
  neg := Qopp;
  ltb := Qltb;
  leb := Qle_bool;
  eqb := Qeq_bool;
  Math_PI := Q_PI;
  Math_abs := Qabs;
  Math_sign := Qsign;
  Math_floor := fun a => inject_Z (Qfloor a);
  isFinite := fun _ => true;
  toIndex := Q_toIndex
|}.

(** *** IEEE 754 binary64 *)

Definition f64 : Type := spec_float.

Definition F64_of_Z (z : Z) : f64 := binary_normalize 53 1024 z 0 false.

Definition F64_isFinite (a : f64) : bool :=
  match a with
  | S754_zero _ | S754_finite _ _ _ => true
  | S754_infinity _ | S754_nan => false
  end.

(** [a % b] on doubles: the remainder of the truncated division is
    computed on aligned integer significands. *)
Definition F64_rem (a b : f64) : f64 :=
  match a, b with
  | S754_nan, _ | _, S754_nan => S754_nan
  | S754_infinity _, _ => S754_nan
  | _, S754_zero _ => S754_nan
  | S754_zero _, _ => a
  | S754_finite _ _ _, S754_infinity _ => a
  | S754_finite sa ma ea, S754_finite _ mb eb =>
      let e := Z.min ea eb in
      let A := (Zpos ma * 2 ^ (ea - e))%Z in
      let B := (Zpos mb * 2 ^ (eb - e))%Z in
      let R := Z.rem A B in
      if (R =? 0)%Z then S754_zero sa
      else binary_normalize 53 1024 (cond_Zopp sa R) e false
  end.

Definition F64_sign (a : f64) : f64 :=
  match a with
  | S754_nan => S754_nan
  | S754_zero _ => a
  | S754_infinity s | S754_finite s _ _ =>
      if s then F64_of_Z (-1) else F64_of_Z 1
  end.

Definition F64_floor (a : f64) : f64 :=
  match a with
  | S754_finite s m e =>
      if (0 <=? e)%Z then a
      else
        let q := (cond_Zopp s (Zpos m) / 2 ^ (- e))%Z in
        if (q =? 0)%Z then S754_zero false else F64_of_Z q
  | _ => a
  end.

Definition F64_toIndex (a : f64) : option nat :=
  match a with
  | S754_zero _ => Some 0%nat
  | S754_finite false m e =>
      if (0 <=? e)%Z then Some (Z.to_nat (Zpos m * 2 ^ e))
      else if (Zpos m mod 2 ^ (- e) =? 0)%Z
           then Some (Z.to_nat (Zpos m / 2 ^ (- e)))
           else None
  | _ => None
  end.

Definition F64_PI : f64 := S754_finite false 7074237752028440 (-51).

#[export] Instance F64Number : JsNumber f64 := {|
  of_Z := F64_of_Z;
  add := SFadd 53 1024;
  sub := SFsub 53 1024;
  mul := SFmul 53 1024;
  div := SFdiv 53 1024;
  rem := F64_rem;
  neg := SFopp;
  ltb := SFltb;
  leb := SFleb;
  eqb := SFeqb;
  Math_PI := F64_PI;
  Math_abs := SFabs;
  Math_sign := F64_sign;
  Math_floor := F64_floor;
  isFinite := F64_isFinite;
  toIndex := F64_toIndex
|}.

(* ================================================================== *)
(** ** The data model *)

Section Model.
Context {num : Type}.

(** A segment [{x, y, z}]. *)
Record Point := mkPoint { pt_x : num; pt_y : num; pt_z : num }.

(** [`hsl(${h}, 80%, 60%)`]: only the hue varies. *)
Inductive Color := Hsl (hue : num).

Record BotState := mkBotState {
  targetFoodId : option string;       (* null or a food id *)
  ticksUntilTargetUpdate : Z
}.

Record Worm := mkWorm {
  segments : list Point;              (* head first *)
  angle : num;
  targetAngle : num;
  color : Color;
  score : Z;
  isAlive : bool;
  hasSpeedBoost : bool;
  speedBoostEndTime : Z;              (* a [Date.now()] timestamp, in ms *)
  isMagnetActive : bool;
  botState : option BotState          (* undefined for a human *)
}.

Record Player := mkPlayer {
  player_id : string;
  player_name : string;
  isBot : bool;
  worm : option Worm                  (* [player.worm], tested by [?.] *)
}.

Record Food := mkFood {
  food_id : string;
  food_x : num; food_y : num; food_z : num;
  food_color : Color;
  food_radius : num;
  food_type : num
}.

(** An entry of [eatenFoodThisTick]. *)
Record Eaten := mkEaten {
  eaten_id : string; eaterId : string; eaten_type : num
}.

(** What [setTimeout] was asked to run, and after how many milliseconds. *)
Inductive Timer :=
  | RespawnBot (pId : string) (delay : Z)
  | MagnetOff (pId : string) (delay : Z).

(** What was sent on a socket. *)
Inductive Emitted :=
  | GameOver (pId : string) (finalScore : Z)
  | Welcome (pId : string).

(** The module-level variables of the server.  [players] is a JavaScript
    object used as a map whose keys are never integer-like: its enumeration
    order is the insertion order, which an association list keeps. *)
Record World := mkWorld {
  players : list (string * Player);
  food : list Food;
  eatenFoodThisTick : list Eaten;
  nextFoodId : N;
  nextBotId : N;
  randomCalls : nat;                  (* calls of [Math.random()] so far *)
  timers : list Timer;
  emitted : list Emitted
}.

End Model.

Arguments Point : clear implicits.
Arguments Color : clear implicits.
Arguments Worm : clear implicits.
Arguments Player : clear implicits.
Arguments Food : clear implicits.
Arguments Eaten : clear implicits.
Arguments World : clear implicits.

(* ================================================================== *)
(** ** Effects

    A function of the server reads and writes the module-level variables,
    may loop, and may throw a [TypeError] when it reads a property of
    [undefined].  It is a state transformer on [World] with three outcomes;
    the loops whose number of iterations is not bounded by the program text
    take fuel, and [OutOfFuel] says that the fuel given did not suffice. *)

Inductive result (A : Type) :=
  | Ok (a : A)
  | OutOfFuel
  | TypeError.
Arguments Ok {A} a.
Arguments OutOfFuel {A}.
Arguments TypeError {A}.

Definition M (num A : Type) : Type := World num -> result (A * World num).

Definition ret {num A} (a : A) : M num A := fun w => Ok (a, w).

Definition bind {num A B} (c : M num A) (k : A -> M num B) : M num B :=
  fun w =>
    match c w with
    | Ok (a, w') => k a w'
    | OutOfFuel => OutOfFuel
    | TypeError => TypeError
    end.

Definition throw {num A} : M num A := fun _ => TypeError.
Definition outOfFuel {num A} : M num A := fun _ => OutOfFuel.
Definition get {num} : M num (World num) := fun w => Ok (w, w).
Definition modify {num} (f : World num -> World num) : M num unit :=
  fun w => Ok (tt, f w).

Declare Scope js_scope.
Delimit Scope js_scope with js.
Notation "'let!' x ':=' c 'in' k" := (bind c (fun x => k))
  (at level 10, x pattern, c at level 100, k at level 200) : js_scope.
Notation "'run!' c 'in' k" := (bind c (fun _ => k))
  (at level 10, c at level 100, k at level 200) : js_scope.
Local Open Scope js_scope.

Section Updates.
Context {num : Type}.

Definition set_players (v : list (string * Player num)) (w : World num) :=
  mkWorld v (food w) (eatenFoodThisTick w) (nextFoodId w) (nextBotId w)
          (randomCalls w) (timers w) (emitted w).
Definition set_food (v : list (Food num)) (w : World num) :=
  mkWorld (players w) v (eatenFoodThisTick w) (nextFoodId w) (nextBotId w)
          (randomCalls w) (timers w) (emitted w).
Definition set_eatenFoodThisTick (v : list (Eaten num)) (w : World num) :=
  mkWorld (players w) (food w) v (nextFoodId w) (nextBotId w)
          (randomCalls w) (timers w) (emitted w).
Definition set_nextFoodId (v : N) (w : World num) :=
  mkWorld (players w) (food w) (eatenFoodThisTick w) v (nextBotId w)
          (randomCalls w) (timers w) (emitted w).
Definition set_nextBotId (v : N) (w : World num) :=
  mkWorld (players w) (food w) (eatenFoodThisTick w) (nextFoodId w) v
          (randomCalls w) (timers w) (emitted w).
Definition set_randomCalls (v : nat) (w : World num) :=
  mkWorld (players w) (food w) (eatenFoodThisTick w) (nextFoodId w)
          (nextBotId w) v (timers w) (emitted w).
Definition set_timers (v : list Timer) (w : World num) :=
  mkWorld (players w) (food w) (eatenFoodThisTick w) (nextFoodId w)
          (nextBotId w) (randomCalls w) v (emitted w).
Definition set_emitted (v : list Emitted) (w : World num) :=
  mkWorld (players w) (food w) (eatenFoodThisTick w) (nextFoodId w)
          (nextBotId w) (randomCalls w) (timers w) v.

Definition set_segments (v : list (Point num)) (o : Worm num) :=
  mkWorm v (angle o) (targetAngle o) (color o) (score o) (isAlive o)
         (hasSpeedBoost o) (speedBoostEndTime o) (isMagnetActive o) (botState o).
Definition set_angle (v : num) (o : Worm num) :=
  mkWorm (segments o) v (targetAngle o) (color o) (score o) (isAlive o)
         (hasSpeedBoost o) (speedBoostEndTime o) (isMagnetActive o) (botState o).
Definition set_targetAngle (v : num) (o : Worm num) :=
  mkWorm (segments o) (angle o) v (color o) (score o) (isAlive o)
         (hasSpeedBoost o) (speedBoostEndTime o) (isMagnetActive o) (botState o).
Definition set_score (v : Z) (o : Worm num) :=
  mkWorm (segments o) (angle o) (targetAngle o) (color o) v (isAlive o)
         (hasSpeedBoost o) (speedBoostEndTime o) (isMagnetActive o) (botState o).
Definition set_isAlive (v : bool) (o : Worm num) :=
  mkWorm (segments o) (angle o) (targetAngle o) (color o) (score o) v
         (hasSpeedBoost o) (speedBoostEndTime o) (isMagnetActive o) (botState o).
Definition set_hasSpeedBoost (v : bool) (o : Worm num) :=
  mkWorm (segments o) (angle o) (targetAngle o) (color o) (score o) (isAlive o)
         v (speedBoostEndTime o) (isMagnetActive o) (botState o).
Definition set_speedBoostEndTime (v : Z) (o : Worm num) :=
  mkWorm (segments o) (angle o) (targetAngle o) (color o) (score o) (isAlive o)
         (hasSpeedBoost o) v (isMagnetActive o) (botState o).
Definition set_isMagnetActive (v : bool) (o : Worm num) :=
  mkWorm (segments o) (angle o) (targetAngle o) (color o) (score o) (isAlive o)
         (hasSpeedBoost o) (speedBoostEndTime o) v (botState o).
Definition set_botState (v : option BotState) (o : Worm num) :=
  mkWorm (segments o) (angle o) (targetAngle o) (color o) (score o) (isAlive o)
         (hasSpeedBoost o) (speedBoostEndTime o) (isMagnetActive o) v.

Definition set_worm (v : option (Worm num)) (p : Player num) :=
  mkPlayer (player_id p) (player_name p) (isBot p) v.
Definition set_player_name (v : string) (p : Player num) :=
  mkPlayer (player_id p) v (isBot p) (worm p).

(** *** The registry [players] *)

(** [players[pId]] *)
Fixpoint lookupPlayer (pId : string) (ps : list (string * Player num))
  : option (Player num) :=
  match ps with
  | [] => None
  | (k, p) :: ps' => if String.eqb k pId then Some p else lookupPlayer pId ps'
  end.

(** [players[pId] = p]: an existing key keeps its place, a new one goes last. *)
Fixpoint storePlayer (pId : string) (p : Player num)
  (ps : list (string * Player num)) : list (string * Player num) :=
  match ps with
  | [] => [(pId, p)]
  | (k, q) :: ps' =>
      if String.eqb k pId then (k, p) :: ps' else (k, q) :: storePlayer pId p ps'
  end.

(** [delete players[pId]] *)
Fixpoint deletePlayer (pId : string) (ps : list (string * Player num))
  : list (string * Player num) :=
  match ps with
  | [] => []
  | (k, q) :: ps' =>
      if String.eqb k pId then ps' else (k, q) :: deletePlayer pId ps'
  end.

(** A write through the reference [player.worm] held by the caller: the
    object registered under [pId] is updated in place. *)
Definition updateWormOf (pId : string) (f : Worm num -> Worm num)
  (w : World num) : World num :=
  match lookupPlayer pId (players w) with
  | Some p =>
      match worm p with
      | Some o => set_players (storePlayer pId (set_worm (Some (f o)) p) (players w)) w
      | None => w
      end
  | None => w
  end.

End Updates.

(* ================================================================== *)
(** ** The server *)

Section Server.
Context {num : Type} `{JsNumber num} `{Trig num} `{RandomSource num}.

Definition gtb (a b : num) : bool := ltb b a.            (* a > b *)
Definition Math_pow2 (a : num) : num := mul a a.         (* Math.pow(a, 2) *)
Definition of_nat (n : nat) : num := of_Z (Z.of_nat n).  (* a length, an index *)

(** *** Game constants *)

Definition WORLD_WIDTH : num := of_Z 3000.
Definition WORLD_HEIGHT : num := of_Z 3000.
Definition WORLD_GROUND_Z : num := of_Z 0.

Definition WORM_INITIAL_LENGTH : nat := 100.
Definition WORM_SEGMENT_RADIUS : num := of_Z 8.
Definition WORM_SPEED : num := of_Z 2.
Definition WORM_TURN_SPEED : num := div (of_Z 5) (of_Z 100).          (* 0.05 *)
Definition WORM_SEGMENT_DISTANCE : num :=
  mul WORM_SEGMENT_RADIUS (div (of_Z 8) (of_Z 10)).                   (* 8 * 0.8 *)

Definition FOOD_RADIUS : num := of_Z 12.
Definition MAX_FOOD : nat := 50.
Definition FOOD_SCORE : Z := 5.
Definition FOOD_DROP_CHANCE : num := div (of_Z 6) (of_Z 10).          (* 0.6 *)
Definition FOOD_DROP_INTERVAL : nat := 5.
Definition MIN_FOOD_SPAWN_DISTANCE_SQ : num :=
  Math_pow2 (mul FOOD_RADIUS (of_Z 4)).
Definition FOOD_IMAGE_TYPES : num := of_Z 36.

Definition FOOD_TYPE_POWER : num := of_Z 15.
Definition FOOD_TYPE_ZOOM : num := of_Z 12.
Definition FOOD_TYPE_MAGNET : num := of_Z 7.

Definition SPEED_BOOST_FACTOR : num := div (of_Z 16) (of_Z 10).       (* 1.6 *)
Definition POWER_UP_DURATION_MS : Z := 10000.
Definition MAGNET_RADIUS_MULTIPLIER : num := of_Z 6.

Definition FOOD_COLLISION_THRESHOLD_SQUARED : num :=
  Math_pow2 (add WORM_SEGMENT_RADIUS FOOD_RADIUS).
Definition SELF_COLLISION_START_INDEX : nat := 6.
Definition SELF_COLLISION_THRESHOLD_SQUARED : num :=
  Math_pow2 (mul WORM_SEGMENT_RADIUS (div (of_Z 12) (of_Z 10))).      (* 8 * 1.2 *)
Definition OTHER_COLLISION_THRESHOLD_SQUARED : num :=
  Math_pow2 (mul WORM_SEGMENT_RADIUS (div (of_Z 15) (of_Z 10))).      (* 8 * 1.5 *)

Definition BOT_COUNT : nat := 15.
Definition BOT_NAME_PREFIX : string := "AI_Bot".
Definition BOT_TARGET_UPDATE_INTERVAL_TICKS : Z := 30.
Definition BOT_AVOIDANCE_DISTANCE : num := mul WORM_SEGMENT_RADIUS (of_Z 15).
Definition BOT_BOUNDARY_AVOID_MARGIN : num := of_Z 100.
Definition BOT_RANDOM_TURN_CHANCE : num := div (of_Z 2) (of_Z 100).   (* 0.02 *)

Definition two_PI : num := mul Math_PI (of_Z 2).                      (* Math.PI * 2 *)

(** *** Utility functions *)

(** [Math.random()] *)
Definition random : M num num :=
  fun w => Ok (Math_random (randomCalls w), set_randomCalls (S (randomCalls w)) w).

Definition getRandomColor : M num (Color num) :=
  let! h := random in ret (Hsl (mul h (of_Z 360))).

Definition getRandomSpawnPositionXY (margin : num) : M num (num * num) :=
  let! rx := random in
  let x := add (mul rx (sub WORLD_WIDTH (mul (of_Z 2) margin))) margin in
  let! ry := random in
  let y := add (mul ry (sub WORLD_HEIGHT (mul (of_Z 2) margin))) margin in
  ret (x, y).

(** [dx * dx + dy * dy < threshold] for [dx = x - x'], [dy = y - y']. *)
Definition distSqBelow (x y x' y' threshold : num) : bool :=
  let dx := sub x x' in
  let dy := sub y y' in
  ltb (add (mul dx dx) (mul dy dy)) threshold.

(** The second loop of [isSpawnPositionClear]: the heads of the living worms.
    A living worm without segments makes [head.x] throw. *)
Fixpoint headsClear (x y : num) (ps : list (string * Player num)) : result bool :=
  match ps with
  | [] => Ok true
  | (_, player) :: ps' =>
      match worm player with
      | Some o =>
          if isAlive o then
            match segments o with
            | [] => TypeError
            | head :: _ =>
                if distSqBelow x y (pt_x head) (pt_y head)
                     (Math_pow2 (mul WORM_SEGMENT_RADIUS (of_Z 10)))
                then Ok false
                else headsClear x y ps'
            end
          else headsClear x y ps'
      | None => headsClear x y ps'
      end
  end.

Definition isSpawnPositionClear (x y : num) : M num bool :=
  fun w =>
    if existsb (fun f => distSqBelow x y (food_x f) (food_y f)
                           MIN_FOOD_SPAWN_DISTANCE_SQ) (food w)
    then Ok (false, w)
    else match headsClear x y (players w) with
         | Ok b => Ok (b, w)
         | OutOfFuel => OutOfFuel
         | TypeError => TypeError
         end.

(** [`food-${n}`] *)
Definition foodIdOf (n : N) : string := "food-" +:+ pretty n.

(** [Math.floor(Math.random() * FOOD_IMAGE_TYPES) + 1] *)
Definition randomFoodType : M num num :=
  let! r := random in ret (add (Math_floor (mul r FOOD_IMAGE_TYPES)) (of_Z 1)).

(** [food.push({ id: `food-${nextFoodId++}`, ... })], the id apart. *)
Definition pushFood (mk : string -> Food num) : M num unit :=
  modify (fun w =>
    set_food (food w ++ [mk (foodIdOf (nextFoodId w))])
             (set_nextFoodId (N.succ (nextFoodId w)) w)).

(** The inner [while (!spawnPos && attempts < maxAttempts)] of [spawnFood]. *)
Fixpoint findClearSpot (attemptsLeft : nat) : M num (option (num * num)) :=
  match attemptsLeft with
  | O => ret None
  | S k =>
      let! potentialPos := getRandomSpawnPositionXY (mul FOOD_RADIUS (of_Z 4)) in
      let! clear := isSpawnPositionClear (fst potentialPos) (snd potentialPos) in
      if clear then ret (Some potentialPos) else findClearSpot k
  end.

(** One iteration of the [for] loop of [spawnFood], past the test of the cap. *)
Definition spawnOneFood : M num unit :=
  let! found := findClearSpot 15 in
  let! spawnPos :=
    match found with
    | Some p => ret p
    | None => getRandomSpawnPositionXY (mul FOOD_RADIUS (of_Z 2))
    end in
  let! foodType := randomFoodType in
  let! c := getRandomColor in
  pushFood (fun id =>
    mkFood id (fst spawnPos) (snd spawnPos) WORLD_GROUND_Z c FOOD_RADIUS foodType).

Fixpoint spawnFood (count : nat) : M num unit :=
  match count with
  | O => ret tt
  | S k =>
      let! w := get in
      if (MAX_FOOD <=? length (food w))%nat then ret tt
      else run! spawnOneFood in spawnFood k
  end.

Definition createInitialWormSegments (startX startY : num) (len : nat)
  (a : num) : list (Point num) :=
  map (fun i =>
         mkPoint
           (sub startX (mul (mul (Math_cos a) (of_nat i)) WORM_SEGMENT_DISTANCE))
           (sub startY (mul (mul (Math_sin a) (of_nat i)) WORM_SEGMENT_DISTANCE))
           WORLD_GROUND_Z)
      (seq 0 len).

(** *** Players and bots *)

(** The loop over [tempSegments] in [resetPlayer]. *)
Fixpoint areaClear (segs : list (Point num)) : M num bool :=
  match segs with
  | [] => ret true
  | seg :: segs' =>
      let! clear := isSpawnPositionClear (pt_x seg) (pt_y seg) in
      if clear then areaClear segs' else ret false
  end.

Definition spawnMargin : num :=
  add (mul (of_nat WORM_INITIAL_LENGTH) WORM_SEGMENT_DISTANCE) (of_Z 100).

(** The [while (!spawnPos && attempts < maxAttempts)] of [resetPlayer]. *)
Fixpoint findClearArea (attemptsLeft : nat) : M num (option (num * num)) :=
  match attemptsLeft with
  | O => ret None
  | S k =>
      let! potentialPos := getRandomSpawnPositionXY spawnMargin in
      let! r := random in
      let startAngle := mul (mul r Math_PI) (of_Z 2) in
      let tempSegments :=
        createInitialWormSegments (fst potentialPos) (snd potentialPos)
                                  WORM_INITIAL_LENGTH startAngle in
      let! clear := areaClear tempSegments in
      if clear then ret (Some potentialPos) else findClearArea k
  end.

Definition resetPlayer (pId : string) : M num unit :=
  let! w := get in
  match lookupPlayer pId (players w) with
  | None => ret tt
  | Some player =>
      let! found := findClearArea 20 in
      let! spawnPos :=
        match found with
        | Some p => ret p
        | None => getRandomSpawnPositionXY spawnMargin
        end in
      let! r := random in
      let startAngle := mul (mul r Math_PI) (of_Z 2) in
      let! newColor := getRandomColor in
      let newWorm :=
        mkWorm
          (createInitialWormSegments (fst spawnPos) (snd spawnPos)
                                     WORM_INITIAL_LENGTH startAngle)
          startAngle startAngle newColor 0 true false 0 false
          (if isBot player then Some (mkBotState None 0) else None) in
      modify (fun w' =>
        set_players (storePlayer pId (set_worm (Some newWorm) player) (players w')) w')
  end.

(** [`bot_${n}`] *)
Definition botIdOf (n : N) : string := "bot_" +:+ pretty n.

(** [s.substring(s.length - 3)] *)
Definition lastThree (s : string) : string :=
  String.substring (String.length s - 3) 3 s.

Definition addBot : M num unit :=
  let! w := get in
  let botId := botIdOf (nextBotId w) in
  run! modify (set_nextBotId (N.succ (nextBotId w))) in
  let botName := BOT_NAME_PREFIX +:+ " " +:+ lastThree botId in
  let! c := getRandomColor in
  let placeholder :=
    mkWorm [] (of_Z 0) (of_Z 0) c 0 false false 0 false (Some (mkBotState None 0)) in
  run! modify (fun w' =>
    set_players (storePlayer botId (mkPlayer botId botName true (Some placeholder))
                             (players w')) w') in
  resetPlayer botId.

Definition removeBot (botId : string) : M num unit :=
  let! w := get in
  match lookupPlayer botId (players w) with
  | Some p =>
      if isBot p then modify (set_players (deletePlayer botId (players w)))
      else ret tt
  | None => ret tt
  end.

(** [[FOOD_TYPE_POWER, FOOD_TYPE_ZOOM, FOOD_TYPE_MAGNET].includes(t)] *)
Definition isSpecialFoodType (t : num) : bool :=
  eqb t FOOD_TYPE_POWER || eqb t FOOD_TYPE_ZOOM || eqb t FOOD_TYPE_MAGNET.

(** [while (specialFoodTypes.includes(foodType)) foodType = ...] in
    [killPlayer]: how often it draws again depends on [Math.random()]. *)
Fixpoint redrawWhileSpecial (fuel : nat) (foodType : num) : M num num :=
  match fuel with
  | O => outOfFuel
  | S fuel' =>
      if isSpecialFoodType foodType
      then let! t := randomFoodType in redrawWhileSpecial fuel' t
      else ret foodType
  end.

(** The callback of [player.worm.segments.forEach] in [killPlayer], applied
    to the segments from [index] on. *)
Fixpoint dropFoodFrom (fuel : nat) (wormColor : Color num) (index : nat)
  (segs : list (Point num)) : M num unit :=
  match segs with
  | [] => ret tt
  | seg :: segs' =>
      run!
        (if (index mod FOOD_DROP_INTERVAL =? 0)%nat then
           let! r := random in
           if ltb r FOOD_DROP_CHANCE then
             let! w := get in
             if (length (food w) <? MAX_FOOD)%nat then
               let! t := randomFoodType in
               let! foodType := redrawWhileSpecial fuel t in
               pushFood (fun id =>
                 mkFood id (pt_x seg) (pt_y seg) (pt_z seg) wormColor
                        FOOD_RADIUS foodType)
             else ret tt
           else ret tt
         else ret tt) in
      dropFoodFrom fuel wormColor (S index) segs'
  end.

(** [killPlayer(pId, reason)]; the reason is only logged.  A human in the
    registry is a connected socket (the [disconnect] handler deletes the
    entry), so [gameOver] is emitted. *)
Definition killPlayer (fuel : nat) (pId : string) : M num unit :=
  let! w := get in
  match lookupPlayer pId (players w) with
  | Some player =>
      match worm player with
      | Some o =>
          if isAlive o then
            run! modify (updateWormOf pId (set_isAlive false)) in
            run! dropFoodFrom fuel (color o) 0 (segments o) in
            if negb (isBot player) then
              modify (fun w' => set_emitted (emitted w' ++ [GameOver pId (score o)]) w')
            else
              modify (fun w' => set_timers (timers w' ++ [RespawnBot pId 5000]) w')
          else ret tt
      | None => ret tt
      end
  | None => ret tt
  end.

(** *** Movement *)

(** [while (angleDiff <= -Math.PI) angleDiff += Math.PI * 2;] *)
Fixpoint wrapUp (fuel : nat) (angleDiff : num) : result num :=
  match fuel with
  | O => OutOfFuel
  | S fuel' =>
      if leb angleDiff (neg Math_PI) then wrapUp fuel' (add angleDiff two_PI)
      else Ok angleDiff
  end.

(** [while (angleDiff > Math.PI) angleDiff -= Math.PI * 2;] *)
Fixpoint wrapDown (fuel : nat) (angleDiff : num) : result num :=
  match fuel with
  | O => OutOfFuel
  | S fuel' =>
      if gtb angleDiff Math_PI then wrapDown fuel' (sub angleDiff two_PI)
      else Ok angleDiff
  end.

(** The shortest angle difference that [updateWorm] computes first. *)
Definition shortestAngleDiff (fuel : nat) (targetAngle currentAngle : num)
  : result num :=
  match wrapUp fuel (sub targetAngle currentAngle) with
  | Ok d => wrapDown fuel d
  | OutOfFuel => OutOfFuel
  | TypeError => TypeError
  end.

(** The angle after the turn, before it is normalized. *)
Definition turnTowards (angleDiff targetAngle currentAngle : num) : num :=
  if gtb (Math_abs angleDiff) WORM_TURN_SPEED
  then add currentAngle (mul (Math_sign angleDiff) WORM_TURN_SPEED)
  else targetAngle.

(** [(currentAngle + Math.PI * 2) % (Math.PI * 2)] *)
Definition normalizeAngle (a : num) : num := rem (add a two_PI) two_PI.

(** [(worm.hasSpeedBoost && Date.now() < worm.speedBoostEndTime)
      ? WORM_SPEED * SPEED_BOOST_FACTOR : WORM_SPEED] *)
Definition currentSpeed (now : Z) (o : Worm num) : num :=
  if hasSpeedBoost o && (now <? speedBoostEndTime o)%Z
  then mul WORM_SPEED SPEED_BOOST_FACTOR
  else WORM_SPEED.

(** [updateWorm(worm)], with the clock reading [now].  The worm object is
    mutated in place; the result is its new content. *)
Definition updateWorm (fuel : nat) (now : Z) (o : Worm num) : result (Worm num) :=
  if negb (isAlive o) then Ok o
  else
    match segments o with
    | [] => Ok o
    | head :: _ =>
        match shortestAngleDiff fuel (targetAngle o) (angle o) with
        | Ok angleDiff =>
            let currentAngle := turnTowards angleDiff (targetAngle o) (angle o) in
            let newAngle := normalizeAngle currentAngle in
            let speed := currentSpeed now o in
            let newHead :=
              mkPoint (add (pt_x head) (mul (Math_cos newAngle) speed))
                      (add (pt_y head) (mul (Math_sin newAngle) speed))
                      (pt_z head) in
            Ok (set_segments (newHead :: segments o) (set_angle newAngle o))
        | OutOfFuel => OutOfFuel
        | TypeError => TypeError
        end
    end.

(** *** Bot AI *)

(** Reads through a reference to a player object, by its registry key. *)
Definition getPlayer (key : string) : M num (Player num) :=
  fun w =>
    match lookupPlayer key (players w) with
    | Some p => Ok (p, w)
    | None => TypeError
    end.

Definition getWorm (key : string) : M num (Worm num) :=
  let! p := getPlayer key in
  match worm p with
  | Some o => ret o
  | None => throw
  end.

(** [worm.botState.f = ...]; throws when [botState] is undefined. *)
Definition updateBotState (key : string) (f : BotState -> BotState) : M num unit :=
  let! o := getWorm key in
  match botState o with
  | Some b => modify (updateWormOf key (set_botState (Some (f b))))
  | None => throw
  end.

(** [otherPlayer.worm.segments.slice(0, Math.min(length, 20))], scanned for
    the first segment close to the look-ahead point. *)
Definition findThreatSegment (lookAheadX lookAheadY : num)
  (segs : list (Point num)) : option (Point num) :=
  find (fun seg => distSqBelow lookAheadX lookAheadY (pt_x seg) (pt_y seg)
                     (Math_pow2 (mul WORM_SEGMENT_RADIUS (of_Z 4))))
       (take (Nat.min (length segs) 20) segs).

(** The [for (const pId in players)] of the avoidance step. *)
Fixpoint findThreat (selfId : string) (lookAheadX lookAheadY : num)
  (ps : list (string * Player num)) : option (Point num) :=
  match ps with
  | [] => None
  | (pId, otherPlayer) :: ps' =>
      let alive := match worm otherPlayer with Some o => isAlive o | None => false end in
      if String.eqb pId selfId || negb alive
      then findThreat selfId lookAheadX lookAheadY ps'
      else
        match worm otherPlayer with
        | Some o =>
            match findThreatSegment lookAheadX lookAheadY (segments o) with
            | Some seg => Some seg
            | None => findThreat selfId lookAheadX lookAheadY ps'
            end
        | None => findThreat selfId lookAheadX lookAheadY ps'
        end
  end.

(** [food.find(f => f.id === id)]; [id] may be null. *)
Definition findFood (id : option string) (fs : list (Food num)) : option (Food num) :=
  match id with
  | Some i => find (fun f => String.eqb (food_id f) i) fs
  | None => None
  end.

(** The scan for the closest food item.  [minDistSq] starts at [Infinity]
    ([None]); a sum of squares is below [Infinity] when it is finite. *)
Fixpoint closestFoodFrom (head : Point num) (fs : list (Food num))
  (minDistSq : option num) (closestFood : option (Food num))
  : option (Food num) :=
  match fs with
  | [] => closestFood
  | f :: fs' =>
      let dx := sub (pt_x head) (food_x f) in
      let dy := sub (pt_y head) (food_y f) in
      let distSq := add (mul dx dx) (mul dy dy) in
      let closer :=
        match minDistSq with
        | None => isFinite distSq
        | Some m => ltb distSq m
        end in
      if closer then closestFoodFrom head fs' (Some distSq) (Some f)
      else closestFoodFrom head fs' minDistSq closestFood
  end.

Definition isTruthyId (id : option string) : bool :=
  match id with
  | Some i => negb (String.eqb i "")
  | None => false
  end.

(** The branch of [updateBotAI] that steers to food or wanders. *)
Definition seekFood (key : string) (head : Point num) (targetAngle0 : num)
  : M num num :=
  run! updateBotState key (fun b =>
         mkBotState (targetFoodId b) (ticksUntilTargetUpdate b - 1)) in
  let! o := getWorm key in
  let! w := get in
  let! b := match botState o with Some b => ret b | None => throw end in
  let currentTargetFood := findFood (targetFoodId b) (food w) in
  run!
    (if (ticksUntilTargetUpdate b <=? 0)%Z
        || match currentTargetFood with Some _ => false | None => true end
     then
       let closestFood := closestFoodFrom head (food w) None None in
       updateBotState key (fun _ =>
         mkBotState
           (match closestFood with Some f => Some (food_id f) | None => None end)
           BOT_TARGET_UPDATE_INTERVAL_TICKS)
     else ret tt) in
  let! o' := getWorm key in
  let! b' := match botState o' with Some b => ret b | None => throw end in
  if isTruthyId (targetFoodId b') then
    match findFood (targetFoodId b') (food w) with
    | Some targetFood =>
        ret (Math_atan2 (sub (food_y targetFood) (pt_y head))
                        (sub (food_x targetFood) (pt_x head)))
    | None =>
        run! updateBotState key (fun _ => mkBotState None 0) in
        ret targetAngle0
    end
  else
    let! r := random in
    if ltb r BOT_RANDOM_TURN_CHANCE then
      let! r' := random in
      ret (add targetAngle0
               (div (mul (sub r' (div (of_Z 5) (of_Z 10))) Math_PI) (of_Z 8)))
    else ret targetAngle0.

(** [updateBotAI(botPlayer)], the player object given by its registry key. *)
Definition updateBotAI (key : string) : M num unit :=
  let! botPlayer := getPlayer key in
  match worm botPlayer with
  | None => ret tt
  | Some botWorm =>
      if negb (isAlive botWorm) then ret tt
      else
        match segments botWorm with
        | [] => ret tt
        | head :: _ =>
            let lookAheadX :=
              add (pt_x head) (mul (Math_cos (angle botWorm)) BOT_AVOIDANCE_DISTANCE) in
            let lookAheadY :=
              add (pt_y head) (mul (Math_sin (angle botWorm)) BOT_AVOIDANCE_DISTANCE) in
            let nearBoundary :=
              ltb lookAheadX BOT_BOUNDARY_AVOID_MARGIN
              || gtb lookAheadX (sub WORLD_WIDTH BOT_BOUNDARY_AVOID_MARGIN)
              || ltb lookAheadY BOT_BOUNDARY_AVOID_MARGIN
              || gtb lookAheadY (sub WORLD_HEIGHT BOT_BOUNDARY_AVOID_MARGIN) in
            let! avoidAngle :=
              (if nearBoundary then
                 ret (Some (Math_atan2
                              (sub (div WORLD_HEIGHT (of_Z 2)) (pt_y head))
                              (sub (div WORLD_WIDTH (of_Z 2)) (pt_x head))))
               else
                 let! w := get in
                 match findThreat (player_id botPlayer) lookAheadX lookAheadY
                                  (players w) with
                 | Some seg =>
                     let angleToThreat :=
                       Math_atan2 (sub (pt_y seg) (pt_y head))
                                  (sub (pt_x seg) (pt_x head)) in
                     let! r := random in
                     let side :=
                       if gtb r (div (of_Z 5) (of_Z 10)) then of_Z 1 else of_Z (-1) in
                     ret (Some (add angleToThreat
                                    (mul (div Math_PI (of_Z 2)) side)))
                 | None => ret None
                 end) in
            let! targetAngle' :=
              match avoidAngle with
              | Some a =>
                  run! updateBotState key (fun _ =>
                         mkBotState None BOT_TARGET_UPDATE_INTERVAL_TICKS) in
                  ret a
              | None => seekFood key head (angle botWorm)
              end in
            modify (updateWormOf key (set_targetAngle (normalizeAngle targetAngle')))
        end
  end.

(** *** Collisions *)

(** The registry keys of the players whose worm is alive, in registry order:
    the objects that [livingWorms] refers to. *)
Definition livingWormKeys (ps : list (string * Player num)) : list string :=
  map fst
    (List.filter (fun kp : string * Player num =>
                    match worm (snd kp) with
                    | Some o => isAlive o
                    | None => false
                    end) ps).

(** [WORM_SEGMENT_RADIUS + FOOD_RADIUS * MAGNET_RADIUS_MULTIPLIER] when the
    magnet is active, [WORM_SEGMENT_RADIUS + FOOD_RADIUS] otherwise. *)
Definition effectiveCollisionRadius (o : Worm num) : num :=
  if isMagnetActive o
  then add WORM_SEGMENT_RADIUS (mul FOOD_RADIUS MAGNET_RADIUS_MULTIPLIER)
  else add WORM_SEGMENT_RADIUS FOOD_RADIUS.

(** What happens when the worm under [key] eats [eatenFoodItem], up to the
    test that decides whether the scan goes on. *)
Definition eatFood (now : Z) (key : string) (eatenFoodItem : Food num) : M num unit :=
  let! player := getPlayer key in
  run! modify (fun w =>
         set_eatenFoodThisTick
           (eatenFoodThisTick w ++
              [mkEaten (food_id eatenFoodItem) (player_id player)
                       (food_type eatenFoodItem)]) w) in
  run! modify (updateWormOf key (fun o => set_score (score o + FOOD_SCORE)%Z o)) in
  run! spawnFood 1 in
  run!
    (if eqb (food_type eatenFoodItem) FOOD_TYPE_POWER then
       modify (updateWormOf key (fun o =>
         set_speedBoostEndTime (now + POWER_UP_DURATION_MS)%Z
                               (set_hasSpeedBoost true o)))
     else if eqb (food_type eatenFoodItem) FOOD_TYPE_MAGNET then
       run! modify (updateWormOf key (set_isMagnetActive true)) in
       modify (fun w =>
         set_timers (timers w ++ [MagnetOff (player_id player) POWER_UP_DURATION_MS]) w)
     else ret tt) in
  if isBot player then
    let! o := getWorm key in
    match botState o with
    | Some b =>
        if match targetFoodId b with
           | Some t => String.eqb t (food_id eatenFoodItem)
           | None => false
           end
        then updateBotState key (fun _ => mkBotState None 0)
        else ret tt
    | None => throw
    end
  else ret tt.

(** [for (let j = food.length - 1; j >= 0; j--)], entered with [j + 1];
    the result is [ateFoodThisTickFlag]. *)
Fixpoint scanFood (now : Z) (key : string) (head : Point num)
  (jPlus1 : nat) (ateFoodThisTickFlag : bool) : M num bool :=
  match jPlus1 with
  | O => ret ateFoodThisTickFlag
  | S j =>
      let! w := get in
      match food w !! j with
      | None => throw
      | Some f =>
          let! o := getWorm key in
          if distSqBelow (pt_x head) (pt_y head) (food_x f) (food_y f)
               (Math_pow2 (effectiveCollisionRadius o))
          then
            run! modify (fun w' => set_food (delete j (food w')) w') in
            run! eatFood now key f in
            let! o' := getWorm key in
            if negb (isMagnetActive o') then ret true
            else scanFood now key head j true
          else scanFood now key head j ateFoodThisTickFlag
      end
  end.

(** The body of the first loop of [checkCollisions] for one living worm. *)
Definition foodCollision (now : Z) (key : string) : M num unit :=
  let! o := getWorm key in
  match segments o with
  | [] => ret tt
  | head :: _ =>
      let! w := get in
      let! ateFoodThisTickFlag := scanFood now key head (length (food w)) false in
      let! o' := getWorm key in
      if negb ateFoodThisTickFlag
         && (WORM_INITIAL_LENGTH <? length (segments o'))%nat
      then modify (updateWormOf key (fun o => set_segments (removelast (segments o)) o))
      else ret tt
  end.

Fixpoint forEachKey (f : string -> M num unit) (keys : list string) : M num unit :=
  match keys with
  | [] => ret tt
  | k :: keys' => run! f k in forEachKey f keys'
  end.

(** The head against the same worm's segments from index
    [SELF_COLLISION_START_INDEX] on. *)
Definition hitsSelf (head : Point num) (segs : list (Point num)) : bool :=
  existsb (fun seg => distSqBelow (pt_x head) (pt_y head) (pt_x seg) (pt_y seg)
                        SELF_COLLISION_THRESHOLD_SQUARED)
          (drop SELF_COLLISION_START_INDEX segs).

(** The head against every segment of the other worms of [livingWorms] that
    are still alive. *)
Definition hitsOther (selfId : string) (head : Point num)
  (ps : list (string * Player num)) (living : list string) : bool :=
  existsb (fun key =>
    match lookupPlayer key ps with
    | Some otherPlayer =>
        match worm otherPlayer with
        | Some otherWorm =>
            negb (String.eqb selfId (player_id otherPlayer))
            && isAlive otherWorm
            && existsb (fun seg =>
                 distSqBelow (pt_x head) (pt_y head) (pt_x seg) (pt_y seg)
                             OTHER_COLLISION_THRESHOLD_SQUARED)
                 (segments otherWorm)
        | None => false
        end
    | None => false
    end) living.

(** [killPlayer(player.id, ...); worm.isAlive = false;] *)
Definition killAndMark (fuel : nat) (key : string) (player : Player num) : M num unit :=
  run! killPlayer fuel (player_id player) in
  modify (updateWormOf key (set_isAlive false)).

(** The body of the second loop of [checkCollisions] for one worm. *)
Definition wormCollision (fuel : nat) (living : list string) (key : string)
  : M num unit :=
  let! player := getPlayer key in
  let! o := getWorm key in
  match segments o with
  | [] => ret tt
  | head :: _ =>
      if ltb (pt_x head) (of_Z 0) || gtb (pt_x head) WORLD_WIDTH
         || ltb (pt_y head) (of_Z 0) || gtb (pt_y head) WORLD_HEIGHT
      then killAndMark fuel key player
      else if negb (isAlive o) then ret tt
      else
        run! (if hitsSelf head (segments o) then killAndMark fuel key player
              else ret tt) in
        let! o' := getWorm key in
        if negb (isAlive o') then ret tt
        else
          let! w := get in
          if hitsOther (player_id player) head (players w) living
          then killAndMark fuel key player
          else ret tt
  end.

Definition checkCollisions (fuel : nat) (now : Z) : M num unit :=
  let! w := get in
  run! modify (set_eatenFoodThisTick []) in
  let livingWorms := livingWormKeys (players w) in
  run! forEachKey (foodCollision now) livingWorms in
  forEachKey (wormCollision fuel livingWorms) livingWorms.

(** *** Leaderboard and snapshot *)

Record LeaderboardEntry := mkEntry {
  entry_id : string;
  entry_name : string;
  entry_score : Z;
  entry_color : Color num
}.

(** [Array.prototype.sort] is stable (ECMAScript 2019), so for a comparator
    that orders by one numeric key its result is determined by the input: it
    is what this stable insertion sort computes.  [compareFn a b < 0] puts
    [a] first. *)
Fixpoint insertSorted {A} (compareFn : A -> A -> Z) (a : A) (l : list A) : list A :=
  match l with
  | [] => [a]
  | b :: l' =>
      if (compareFn a b <=? 0)%Z then a :: b :: l'
      else b :: insertSorted compareFn a l'
  end.

Definition sort {A} (compareFn : A -> A -> Z) (l : list A) : list A :=
  fold_right (insertSorted compareFn) [] l.

(** [p.name || `${p.isBot ? 'Bot' : 'Worm'} ${p.id.substring(0, 4)}`] *)
Definition displayName (p : Player num) : string :=
  if String.eqb (player_name p) ""
  then (if isBot p then "Bot" else "Worm") +:+ " "
       +:+ String.substring 0 4 (player_id p)
  else player_name p.

(** The entries before they are sorted: one per player with worm data, in
    the order of [Object.values(players)]. *)
Definition leaderboardEntries (ps : list (string * Player num))
  : list LeaderboardEntry :=
  omap (fun kp : string * Player num =>
          let p := snd kp in
          match worm p with
          | Some o => Some (mkEntry (player_id p) (displayName p) (score o) (color o))
          | None => None
          end) ps.

Definition byScoreDescending (a b : LeaderboardEntry) : Z :=
  (entry_score b - entry_score a)%Z.

Definition getLeaderboard (w : World num) : list LeaderboardEntry :=
  take 10 (sort byScoreDescending (leaderboardEntries (players w))).

Record WormForClient := mkWormForClient {
  client_id : string;
  client_name : string;
  client_isBot : bool;
  client_segments : list (Point num);
  client_color : Color num;
  client_angle : num;
  client_score : Z;
  isGameOver : bool;
  client_hasSpeedBoost : bool;
  client_isMagnetActive : bool
}.

Record GameState := mkGameState {
  gs_worms : list (string * WormForClient);
  gs_food : list (Food num);
  gs_leaderboard : list LeaderboardEntry;
  gs_eatenFood : list (Eaten num)
}.

Definition prepareGameState (w : World num) : GameState :=
  mkGameState
    (omap (fun kp : string * Player num =>
             let p := snd kp in
             match worm p with
             | Some o =>
                 Some (player_id p,
                       mkWormForClient (player_id p) (player_name p) (isBot p)
                         (segments o) (color o) (angle o) (score o)
                         (negb (isAlive o)) (hasSpeedBoost o) (isMagnetActive o))
             | None => None
             end) (players w))
    (food w)
    (getLeaderboard w)
    (eatenFoodThisTick w).

(** *** The game loop *)

Definition lift {A} (r : result A) : M num A :=
  fun w =>
    match r with
    | Ok a => Ok (a, w)
    | OutOfFuel => OutOfFuel
    | TypeError => TypeError
    end.

(** Step 0 of [gameLoop]: one bot added or one removed. *)
Definition manageBots : M num unit :=
  let! w := get in
  let humanPlayerCount :=
    length (List.filter (fun kp : string * Player num => negb (isBot (snd kp)))
                        (players w)) in
  let currentBotCount :=
    length (List.filter (fun kp : string * Player num => isBot (snd kp))
                        (players w)) in
  let targetBots := Nat.max BOT_COUNT (humanPlayerCount * 2) in
  if (currentBotCount <? targetBots)%nat then addBot
  else if (targetBots <? currentBotCount)%nat && (0 <? currentBotCount)%nat then
    let botIds :=
      map fst (List.filter (fun kp : string * Player num => isBot (snd kp))
                           (players w)) in
    if (targetBots <? length botIds)%nat then
      let! r := random in
      match toIndex (Math_floor (mul r (of_nat (length botIds)))) with
      | Some i =>
          match botIds !! i with
          | Some botToRemoveId => removeBot botToRemoveId
          | None => ret tt
          end
      | None => ret tt
      end
    else ret tt
  else ret tt.

(** Step 1: the AI of every living bot. *)
Definition updateBots : M num unit :=
  let! w := get in
  forEachKey (fun key =>
    let! player := getPlayer key in
    if isBot player
       && match worm player with Some o => isAlive o | None => false end
    then updateBotAI key else ret tt)
    (map fst (players w)).

(** Step 2: [updateWorm] on every living worm. *)
Definition moveWorms (fuel : nat) (now : Z) : M num unit :=
  let! w := get in
  forEachKey (fun key =>
    let! player := getPlayer key in
    match worm player with
    | Some o =>
        if isAlive o then
          let! o' := lift (updateWorm fuel now o) in
          modify (updateWormOf key (fun _ => o'))
        else ret tt
    | None => ret tt
    end)
    (map fst (players w)).

(** [gameLoop()]; the result is the snapshot given to [io.emit]. *)
Definition gameLoop (fuel : nat) (now : Z) : M num GameState :=
  run! manageBots in
  run! updateBots in
  run! moveWorms fuel now in
  run! checkCollisions fuel now in
  let! w := get in
  ret (prepareGameState w).

(** *** Socket events *)

Inductive JsValue :=
  | JsUndefined
  | JsNull
  | JsBoolean (b : bool)
  | JsNum (n : num)
  | JsString (s : string)
  | JsObject (props : JsProps)
with JsProps :=
  | NoProps
  | Prop_ (name : string) (value : JsValue) (rest : JsProps).

Definition isTruthy (v : JsValue) : bool :=
  match v with
  | JsUndefined | JsNull => false
  | JsBoolean b => b
  | JsNum n => eqb n n && negb (eqb n (of_Z 0))       (* neither NaN nor 0 *)
  | JsString s => negb (String.eqb s "")
  | JsObject _ => true
  end.

Fixpoint lookupProp (name : string) (props : JsProps) : JsValue :=
  match props with
  | NoProps => JsUndefined
  | Prop_ k v rest => if String.eqb k name then v else lookupProp name rest
  end.

(** [v.name] for a value that is neither undefined nor null. *)
Definition getProperty (name : string) (v : JsValue) : JsValue :=
  match v with
  | JsObject props => lookupProp name props
  | _ => JsUndefined
  end.

(** [socket.on('playerInput', (data) => ...)] for the socket [socketId]. *)
Definition onPlayerInput (socketId : string) (data : JsValue) : M num unit :=
  let! w := get in
  let alive :=
    match lookupPlayer socketId (players w) with
    | Some player =>
        match worm player with Some o => isAlive o | None => false end
    | None => false
    end in
  if alive && isTruthy data then
    match getProperty "angle" data with
    | JsNum a =>
        if isFinite a then modify (updateWormOf socketId (set_targetAngle a))
        else ret tt
    | _ => ret tt
    end
  else ret tt.

(** [io.on('connection', ...)], up to the registration of the handlers. *)
Definition onConnection (socketId : string) : M num unit :=
  let playerName := "Worm_" +:+ String.substring 0 4 socketId in
  let! c := getRandomColor in
  let placeholder :=
    mkWorm [] (of_Z 0) (of_Z 0) c 0 false false 0 false None in
  run! modify (fun w =>
    set_players (storePlayer socketId
                   (mkPlayer socketId playerName false (Some placeholder))
                   (players w)) w) in
  run! resetPlayer socketId in
  modify (fun w => set_emitted (emitted w ++ [Welcome socketId]) w).

Definition onRespawn (socketId : string) : M num unit :=
  let! w := get in
  match lookupPlayer socketId (players w) with
  | Some player =>
      match worm player with
      | Some o => if negb (isAlive o) then resetPlayer socketId else ret tt
      | None => throw
      end
  | None => ret tt
  end.

Definition onDisconnect (socketId : string) : M num unit :=
  modify (fun w => set_players (deletePlayer socketId (players w)) w).

(** A JavaScript string is the sequence of its UTF-16 code units.  The
    strings of the model are those whose code units are all below 256, one
    character of [string] for each code unit: the ids and the names that the
    server makes are of this kind.

    [String.prototype.trim] strips the code points of [WhiteSpace] and
    [LineTerminator].  Below 256 these are U+0009 to U+000D, U+0020 and
    U+00A0; the others (U+1680, U+2000 to U+200A, U+2028, U+2029, U+202F,
    U+205F, U+3000, U+FEFF) are not code units of a string of the model. *)
Definition isWhiteSpace (c : Ascii.ascii) : bool :=
  let n := Ascii.nat_of_ascii c in
  (n =? 32)%nat || ((9 <=? n)%nat && (n <=? 13)%nat) || (n =? 160)%nat.

Fixpoint trimStart (s : string) : string :=
  match s with
  | String c s' => if isWhiteSpace c then trimStart s' else s
  | EmptyString => EmptyString
  end.

Fixpoint trimEnd (s : string) : string :=
  match s with
  | String c s' =>
      match trimEnd s' with
      | EmptyString => if isWhiteSpace c then EmptyString else String c EmptyString
      | t => String c t
      end
  | EmptyString => EmptyString
  end.

(** [name.trim().substring(0, 16)]: [substring] counts code units, which
    are the characters of the model's string. *)
Definition sanitizeName (name : string) : string :=
  String.substring 0 16 (trimEnd (trimStart name)).

Definition onSetPlayerName (socketId : string) (name : JsValue) : M num unit :=
  let! w := get in
  match lookupPlayer socketId (players w), name with
  | Some player, JsString s =>
      let sanitizedName := sanitizeName s in
      if negb (String.eqb sanitizedName "")
      then modify (fun w' =>
             set_players (storePlayer socketId (set_player_name sanitizedName player)
                                      (players w')) w')
      else ret tt
  | _, _ => ret tt
  end.

(** *** Timers *)

(** The callbacks given to [setTimeout] by [killPlayer] and by the magnet
    power-up. *)
Definition fireTimer (t : Timer) : M num unit :=
  match t with
  | RespawnBot pId _ =>
      let! w := get in
      match lookupPlayer pId (players w) with
      | Some player =>
          match worm player with
          | Some o => if negb (isAlive o) then resetPlayer pId else ret tt
          | None => throw
          end
      | None => ret tt
      end
  | MagnetOff pId _ =>
      modify (updateWormOf pId (fun o =>
        if isMagnetActive o then set_isMagnetActive false o else o))
  end.

(** *** Start *)

Definition emptyWorld : World num := mkWorld [] [] [] 0 0 0 [] [].

Fixpoint times (n : nat) (c : M num unit) : M num unit :=
  match n with
  | O => ret tt
  | S n' => run! c in times n' c
  end.

(** [spawnFood(MAX_FOOD / 2); for (i < BOT_COUNT) addBot();] *)
Definition startServer : M num unit :=
  run! spawnFood (MAX_FOOD / 2) in times BOT_COUNT addBot.

End Server.

Arguments LeaderboardEntry : clear implicits.
Arguments GameState : clear implicits.
Arguments JsValue : clear implicits.
Arguments JsProps : clear implicits.

(* ================================================================== *)
(** ** Inputs for running the model

    The theorems below hold for every [Trig] and every [RandomSource].  To
    run the server on an example, one of each is needed: short Taylor
    polynomials stand in for the trigonometric functions, and a fixed
    sequence for [Math.random()]. *)

Section Samples.
Context {num : Type} `{JsNumber num}.

Definition sampleCos (a : num) : num :=
  sub (of_Z 1) (div (mul a a) (of_Z 2)).

Definition sampleSin (a : num) : num :=
  sub a (div (mul (mul a a) a) (of_Z 6)).

(** The angle of the vector (x, y) to the nearest quarter turn. *)
Definition sampleAtan2 (y x : num) : num :=
  if leb (Math_abs y) (Math_abs x)
  then (if ltb x (of_Z 0) then Math_PI else of_Z 0)
  else (if ltb y (of_Z 0) then neg (div Math_PI (of_Z 2)) else div Math_PI (of_Z 2)).

Definition sampleTrig : Trig num :=
  {| Math_cos := sampleCos; Math_sin := sampleSin; Math_atan2 := sampleAtan2 |}.

(** 0.11, 0.48, 0.85, 0.22, ...: the multiples of 0.37, taken modulo 1. *)
Definition sampleRandom : RandomSource num :=
  {| Math_random := fun n =>
       div (of_Z (Z.of_nat ((37 * n + 11) mod 100))) (of_Z 100) |}.

(** [Math.random()] returning [r] every time. *)
Definition constantRandom (r : num) : RandomSource num :=
  {| Math_random := fun _ => r |}.

(** A worm of [WORM_INITIAL_LENGTH] segments laid out along the x axis from
    (1500, 1500), as [createInitialWormSegments] places them for the start
    angle 0, with the given heading. *)
Definition straightSegments : list (Point num) :=
  map (fun i =>
         mkPoint (sub (of_Z 1500) (mul (of_nat i) WORM_SEGMENT_DISTANCE))
                 (of_Z 1500) WORLD_GROUND_Z)
      (seq 0 WORM_INITIAL_LENGTH).

Definition straightWorm (heading : num) : Worm num :=
  mkWorm straightSegments heading heading (Hsl (of_Z 200)) 0 true
         false 0 false None.

(** A world whose only player is the human ["s1"], with that worm. *)
Definition soloWorld (heading : num) : World num :=
  mkWorld [("s1", mkPlayer "s1" "Worm_s1" false (Some (straightWorm heading)))]
          [] [] 0 0 0 [] [].

(** The same world with two food items near the head at (1500, 1500): an
    ordinary one 60 away, and after it in the list one of the magnet type 10
    away. *)
Definition twoFoodWorld : World num :=
  mkWorld [("s1", mkPlayer "s1" "Worm_s1" false (Some (straightWorm (of_Z 0))))]
          [ mkFood "food-0" (of_Z 1440) (of_Z 1500) WORLD_GROUND_Z
                   (Hsl (of_Z 10)) FOOD_RADIUS (of_Z 1);
            mkFood "food-1" (of_Z 1510) (of_Z 1500) WORLD_GROUND_Z
                   (Hsl (of_Z 20)) FOOD_RADIUS FOOD_TYPE_MAGNET ]
          [] 2 0 0 [] [].

(** The payload [{ angle: a }]. *)
Definition angleInput (a : num) : JsValue num :=
  JsObject (Prop_ "angle" (JsNum a) NoProps).

(** The heading of the worm registered under [key], if any. *)
Definition headingOf (key : string) (w : World num) : option num :=
  match lookupPlayer key (players w) with
  | Some p => match worm p with Some o => Some (angle o) | None => None end
  | None => None
  end.

End Samples.

(* ================================================================== *)
(** ** The leaderboard *)

Section Leaderboard.
Context {num : Type}.
Implicit Types (e a b : LeaderboardEntry num) (l : list (LeaderboardEntry num)).

Definition hasScore (s : Z) e : bool := (entry_score e =? s)%Z.

Definition descending (a b : LeaderboardEntry num) : Prop :=
  (entry_score b <= entry_score a)%Z.

Lemma insertSorted_Permutation a l :
  Permutation (insertSorted byScoreDescending a l) (a :: l).
Proof.
  induction l as [|b l IH]; simpl; [reflexivity|].
  destruct (byScoreDescending a b <=? 0)%Z; [reflexivity|].
  rewrite IH. apply perm_swap.
Qed.

Lemma sort_Permutation l : Permutation (sort byScoreDescending l) l.
Proof.
  induction l as [|a l IH]; simpl; [reflexivity|].
  rewrite insertSorted_Permutation. now constructor.
Qed.

Lemma insertSorted_sorted a l :
  StronglySorted descending l ->
  StronglySorted descending (insertSorted byScoreDescending a l).
Proof.
  induction 1 as [|b l Hl IH Hb]; simpl.
  - repeat constructor.
  - unfold byScoreDescending at 1.
    destruct (Z.leb_spec (entry_score b - entry_score a) 0) as [Hle|Hgt].
    + constructor; [now constructor|].
      constructor; [unfold descending; lia|].
      eapply Forall_impl; [exact Hb|].
      intros c Hc. unfold descending in *. lia.
    + constructor; [exact IH|].
      rewrite insertSorted_Permutation.
      constructor; [unfold descending; lia|exact Hb].
Qed.

Lemma sort_sorted l : StronglySorted descending (sort byScoreDescending l).
Proof.
  induction l as [|a l IH]; simpl; [constructor|].
  now apply insertSorted_sorted.
Qed.

(** Stability: the entries of any one score keep their order. *)
Lemma insertSorted_stable s a l :
  List.filter (hasScore s) (insertSorted byScoreDescending a l)
  = List.filter (hasScore s) (a :: l).
Proof.
  induction l as [|b l IH]; [reflexivity|].
  cbn [insertSorted]. unfold byScoreDescending at 1.
  destruct (Z.leb_spec (entry_score b - entry_score a) 0) as [Hle|Hgt];
    [reflexivity|].
  cbn [List.filter] in *. rewrite IH. unfold hasScore.
  destruct (Z.eqb_spec (entry_score a) s), (Z.eqb_spec (entry_score b) s);
    try reflexivity; lia.
Qed.

Lemma sort_stable s l :
  List.filter (hasScore s) (sort byScoreDescending l) = List.filter (hasScore s) l.
Proof.
  induction l as [|a l IH]; [reflexivity|].
  cbn [sort fold_right]. rewrite insertSorted_stable.
  cbn [List.filter]. fold (sort byScoreDescending l). now rewrite IH.
Qed.

Lemma StronglySorted_take {A} (R : A -> A -> Prop) n (l : list A) :
  StronglySorted R l -> StronglySorted R (take n l).
Proof.
  intros Hl. revert n. induction Hl as [|a l Hl IH Ha]; intros [|n]; simpl;
    try constructor; auto.
  apply Forall_forall. intros x Hx. rewrite Forall_forall in Ha. apply Ha.
  apply elem_of_take in Hx as (i & Hi & _). eapply list_elem_of_lookup_2; eauto.
Qed.

Lemma leaderboardEntries_elem e (ps : list (string * Player num)) :
  e ∈ leaderboardEntries ps ->
  exists key p o,
    (key, p) ∈ ps /\ worm p = Some o
    /\ e = mkEntry (player_id p) (displayName p) (score o) (color o).
Proof.
  unfold leaderboardEntries. rewrite list_elem_of_omap.
  intros ([key p] & Hin & He). simpl in He.
  destruct (worm p) as [o|] eqn:Ho; [|discriminate].
  injection He as <-. eauto 6.
Qed.

Lemma leaderboardEntries_all (ps : list (string * Player num)) key p o :
  (key, p) ∈ ps -> worm p = Some o ->
  mkEntry (player_id p) (displayName p) (score o) (color o)
    ∈ leaderboardEntries ps.
Proof.
  intros Hin Ho. unfold leaderboardEntries. rewrite list_elem_of_omap.
  exists (key, p). split; [exact Hin|]. simpl. now rewrite Ho.
Qed.

(** In a sorted list, what comes later is not above what comes before. *)
Lemma StronglySorted_app_order {A} (R : A -> A -> Prop) (l1 l2 : list A) x y :
  StronglySorted R (l1 ++ l2) -> x ∈ l1 -> y ∈ l2 -> R x y.
Proof.
  induction l1 as [|c l1 IH]; intros Hl Hx Hy; [now apply elem_of_nil in Hx|].
  cbn [app] in Hl. apply StronglySorted_inv in Hl as [Hl Hc].
  apply elem_of_cons in Hx as [->|Hx]; [|now apply IH].
  rewrite Forall_forall in Hc. apply Hc, elem_of_app. now right.
Qed.

(** C7: for every registry, the leaderboard is the first 10 entries of the
    entries of all players with worm data, sorted by score in descending
    order by a stable sort.  So:
    - it has entries only for players with worm data (each entry carries
      that player's id and that worm's score);
    - it is sorted by score in descending order;
    - it lists the entries of any one score in the order the registry
      enumerates them;
    - it has at most 10 entries;
    - with the entries [rest] that it leaves out it is a rearrangement of
      the entries of all players with worm data, each of these players
      having its entry; nothing is left out unless the board is full, so the
      board has [min 10 n] entries for [n] such players; an entry left out
      has no higher score than any entry listed; and the board followed by
      [rest] is still sorted, the entries of any one score in registry
      order. *)
Theorem getLeaderboard_sorted_stable_top10 (w : World num) :
  (forall e, e ∈ getLeaderboard w ->
     exists key p o,
       (key, p) ∈ players w /\ worm p = Some o
       /\ e = mkEntry (player_id p) (displayName p) (score o) (color o))
  /\ StronglySorted descending (getLeaderboard w)
  /\ (forall s, exists rest,
        List.filter (hasScore s) (leaderboardEntries (players w))
        = List.filter (hasScore s) (getLeaderboard w) ++ rest)
  /\ length (getLeaderboard w) <= 10
  /\ exists rest,
       Permutation (getLeaderboard w ++ rest) (leaderboardEntries (players w))
       /\ (forall key p o,
             (key, p) ∈ players w -> worm p = Some o ->
             mkEntry (player_id p) (displayName p) (score o) (color o)
               ∈ getLeaderboard w ++ rest)
       /\ (rest = [] \/ length (getLeaderboard w) = 10)
       /\ length (getLeaderboard w)
          = Nat.min 10 (length (leaderboardEntries (players w)))
       /\ (forall e r, e ∈ getLeaderboard w -> r ∈ rest ->
             (entry_score r <= entry_score e)%Z)
       /\ StronglySorted descending (getLeaderboard w ++ rest)
       /\ (forall s,
             List.filter (hasScore s) (getLeaderboard w ++ rest)
             = List.filter (hasScore s) (leaderboardEntries (players w))).
Proof.
  unfold getLeaderboard.
  set (entries := leaderboardEntries (players w)).
  set (sorted := sort byScoreDescending entries).
  assert (Permutation sorted entries) as Hperm by apply sort_Permutation.
  assert (StronglySorted descending sorted) as Hsorted by apply sort_sorted.
  split.
  { intros e He. apply leaderboardEntries_elem.
    apply elem_of_take in He as (i & Hi & _).
    apply list_elem_of_lookup_2 in Hi.
    apply list_elem_of_In. apply list_elem_of_In in Hi.
    eapply Permutation_in; [exact Hperm|exact Hi]. }
  split; [now apply StronglySorted_take|].
  split.
  { intros s. exists (List.filter (hasScore s) (drop 10 sorted)).
    rewrite <- List.filter_app, take_drop. symmetry. apply sort_stable. }
  split; [rewrite length_take; lia|].
  exists (drop 10 sorted). rewrite take_drop.
  split; [exact Hperm|].
  split.
  { intros key p o Hin Ho. apply list_elem_of_In.
    eapply Permutation_in; [symmetry; exact Hperm|].
    apply list_elem_of_In. now apply (leaderboardEntries_all _ key). }
  split.
  { destruct (Nat.le_gt_cases (length sorted) 10) as [Hle|Hgt].
    - left. now apply drop_ge.
    - right. rewrite length_take. lia. }
  split; [rewrite length_take, (Permutation_length Hperm); reflexivity|].
  split.
  { intros e r He Hr.
    apply (StronglySorted_app_order descending (take 10 sorted) (drop 10 sorted));
      [now rewrite take_drop|exact He|exact Hr]. }
  split; [exact Hsorted|]. intros s. apply sort_stable.
Qed.

End Leaderboard.

(* ================================================================== *)
(** ** The registry *)

Section Registry.
Context {num : Type}.
Implicit Types (ps : list (string * Player num)) (p : Player num).

Lemma lookupPlayer_storePlayer_eq key p ps :
  lookupPlayer key (storePlayer key p ps) = Some p.
Proof.
  induction ps as [|[k q] ps IH]; simpl.
  - now rewrite String.eqb_refl.
  - destruct (String.eqb k key) eqn:E; simpl; now rewrite E.
Qed.

Lemma lookupPlayer_storePlayer_ne key key' p ps :
  key <> key' ->
  lookupPlayer key (storePlayer key' p ps) = lookupPlayer key ps.
Proof.
  intros Hne. induction ps as [|[k q] ps IH]; simpl.
  - destruct (String.eqb_spec key' key); congruence.
  - destruct (String.eqb_spec k key'); simpl.
    + subst. destruct (String.eqb_spec key' key); congruence.
    + now rewrite IH.
Qed.

Lemma lookupPlayer_updateWormOf_eq key (f : Worm num -> Worm num)
  (w : World num) p o :
  lookupPlayer key (players w) = Some p -> worm p = Some o ->
  lookupPlayer key (players (updateWormOf key f w))
  = Some (set_worm (Some (f o)) p).
Proof.
  intros Hp Ho. unfold updateWormOf. rewrite Hp, Ho. simpl.
  apply lookupPlayer_storePlayer_eq.
Qed.

Lemma lookupPlayer_updateWormOf_ne key key' (f : Worm num -> Worm num)
  (w : World num) :
  key <> key' ->
  lookupPlayer key (players (updateWormOf key' f w)) = lookupPlayer key (players w).
Proof.
  intros Hne. unfold updateWormOf.
  destruct (lookupPlayer key' (players w)) as [p|]; [|reflexivity].
  destruct (worm p); [|reflexivity]. simpl.
  now apply lookupPlayer_storePlayer_ne.
Qed.

End Registry.

(* ================================================================== *)
(** ** Player input *)

Section PlayerInput.
Context {num : Type} `{JsNumber num}.

(** C9: the [playerInput] handler always completes, and
    - when the worm is alive and [data.angle] is a finite number, the worm's
      [targetAngle] becomes that number as it was received, whatever its sign
      or size, and nothing else of the worm changes;
    - when the worm is dead or missing, or [data.angle] is not a number or
      not finite, the world is left as it was. *)
Theorem onPlayerInput_stores_raw_angle (socketId : string)
  (data : JsValue num) (w : World num) :
  exists w',
    onPlayerInput socketId data w = Ok (tt, w')
    /\ (forall p o a,
          lookupPlayer socketId (players w) = Some p -> worm p = Some o ->
          isAlive o = true ->
          getProperty "angle" data = JsNum a -> isFinite a = true ->
          exists p' o',
            lookupPlayer socketId (players w') = Some p' /\ worm p' = Some o'
            /\ targetAngle o' = a /\ o' = set_targetAngle a o)
    /\ ((forall p o,
           lookupPlayer socketId (players w) = Some p -> worm p = Some o ->
           isAlive o = false)
        \/ (forall a, getProperty "angle" data = JsNum a -> isFinite a = false)
        -> w' = w).
Proof.
  unfold onPlayerInput, bind, get.
  destruct (lookupPlayer socketId (players w)) as [p|] eqn:Hp.
  - destruct (worm p) as [o|] eqn:Ho.
    + destruct (isAlive o) eqn:Halive.
      * destruct data as [| |b|n|s|props]; simpl;
          try (destruct b); try (destruct (eqb n n && negb (eqb n (of_Z 0))));
          try (destruct (negb (String.eqb s "")));
          try (eexists; split; [reflexivity|]; split;
               [intros ? ? ? _ _ _ ?; discriminate|reflexivity]).
        destruct (lookupProp "angle" props) as [| |b|a|s|props'] eqn:Ha;
          try (eexists; split; [reflexivity|]; split;
               [intros ? ? ? _ _ _ ?; discriminate|reflexivity]).
        destruct (isFinite a) eqn:Hfin.
        -- eexists; split; [reflexivity|]. split.
           ++ intros p0 o0 a0 Hp0 Ho0 _ Ha0 _.
              injection Hp0 as <-. rewrite Ho in Ho0. injection Ho0 as <-.
              injection Ha0 as <-.
              exists (set_worm (Some (set_targetAngle a o)) p), (set_targetAngle a o).
              split; [|now repeat split].
              now apply lookupPlayer_updateWormOf_eq.
           ++ intros [Hdead|Hbad].
              ** specialize (Hdead p o eq_refl Ho). congruence.
              ** specialize (Hbad a eq_refl). congruence.
        -- eexists; split; [reflexivity|]. split; [|reflexivity].
           intros p0 o0 a0 _ _ _ Ha0 Hfin0. injection Ha0 as <-. congruence.
      * simpl. eexists; split; [reflexivity|]. split; [|reflexivity].
        intros p0 o0 a0 Hp0 Ho0 Halive0. injection Hp0 as <-.
        rewrite Ho in Ho0. injection Ho0 as <-. congruence.
    + simpl. eexists; split; [reflexivity|]. split; [|reflexivity].
      intros p0 o0 a0 Hp0 Ho0. injection Hp0 as <-. congruence.
  - simpl. eexists; split; [reflexivity|]. split; [|reflexivity].
    intros p0 o0 a0 Hp0. discriminate.
Qed.

End PlayerInput.

(* ================================================================== *)
(** ** Movement, for any reading of the numbers *)

Section Movement.
Context {num : Type} `{JsNumber num} `{Trig num}.

(** The head that [updateWorm] puts in front. *)
Definition advancedHead (head : Point num) (heading speed : num) : Point num :=
  mkPoint (add (pt_x head) (mul (Math_cos heading) speed))
          (add (pt_y head) (mul (Math_sin heading) speed))
          (pt_z head).

(** [updateWorm] on a living worm with a head: the loops apart, it is one
    assignment to [angle] and one [unshift]. *)
Lemma updateWorm_alive fuel now (o : Worm num) head rest :
  isAlive o = true -> segments o = head :: rest ->
  updateWorm fuel now o
  = match shortestAngleDiff fuel (targetAngle o) (angle o) with
    | Ok angleDiff =>
        let newAngle :=
          normalizeAngle (turnTowards angleDiff (targetAngle o) (angle o)) in
        Ok (set_segments
              (advancedHead head newAngle (currentSpeed now o) :: segments o)
              (set_angle newAngle o))
    | OutOfFuel => OutOfFuel
    | TypeError => TypeError
    end.
Proof.
  intros Halive Hsegs. unfold updateWorm. rewrite Halive, Hsegs. reflexivity.
Qed.

Lemma updateWorm_idle fuel now (o : Worm num) :
  isAlive o = false \/ segments o = [] -> updateWorm fuel now o = Ok o.
Proof.
  intros [Hdead|Hnil]; unfold updateWorm.
  - now rewrite Hdead.
  - rewrite Hnil. now destruct (negb (isAlive o)).
Qed.

(** [updateWorm] never throws. *)
Lemma updateWorm_no_TypeError fuel now (o : Worm num) :
  updateWorm fuel now o <> TypeError.
Proof.
  unfold updateWorm. destruct (negb (isAlive o)); [discriminate|].
  destruct (segments o); [discriminate|].
  unfold shortestAngleDiff.
  assert (forall f d, wrapUp f d <> TypeError) as Hup.
  { induction f as [|f IH]; intros d; simpl; [discriminate|].
    destruct (leb d (neg Math_PI)); [apply IH|discriminate]. }
  assert (forall f d, wrapDown f d <> TypeError) as Hdown.
  { induction f as [|f IH]; intros d; simpl; [discriminate|].
    destruct (gtb d Math_PI); [apply IH|discriminate]. }
  destruct (wrapUp fuel (sub (targetAngle o) (angle o))) as [d| |] eqn:E;
    [|discriminate|now apply Hup in E].
  destruct (wrapDown fuel d) eqn:E'; try discriminate. now apply Hdown in E'.
Qed.

(** Whatever [updateWorm] returns, the power-up fields, the score, the
    target and the liveness are those it was given. *)
Lemma updateWorm_frame fuel now (o o' : Worm num) :
  updateWorm fuel now o = Ok o' ->
  hasSpeedBoost o' = hasSpeedBoost o
  /\ speedBoostEndTime o' = speedBoostEndTime o
  /\ isMagnetActive o' = isMagnetActive o
  /\ isAlive o' = isAlive o
  /\ targetAngle o' = targetAngle o
  /\ score o' = score o
  /\ botState o' = botState o.
Proof.
  unfold updateWorm. destruct (negb (isAlive o)).
  { intros [= <-]. now repeat split. }
  destruct (segments o) as [|head rest].
  { intros [= <-]. now repeat split. }
  destruct (shortestAngleDiff fuel (targetAngle o) (angle o)); try discriminate.
  intros [= <-]. now repeat split.
Qed.

End Movement.

(* ================================================================== *)
(** ** Movement in exact arithmetic *)

Section ExactMovement.
Context {trig : Trig Q}.
Local Open Scope Q_scope.

Lemma Q_PI_bounds : 3 < Q_PI /\ Q_PI < 4.
Proof. unfold Q_PI. split; reflexivity. Qed.

Lemma Qleb_spec (a b : Q) : reflect (a <= b) (Qle_bool a b).
Proof. apply iff_reflect. symmetry. apply Qle_bool_iff. Qed.

Lemma Qltb_spec (a b : Q) : reflect (a < b) (Qltb a b).
Proof.
  unfold Qltb. destruct (Qleb_spec b a); simpl;
    [apply ReflectF|apply ReflectT]; lra.
Qed.

Lemma wrapUp_S (fuel : nat) (d : Q) :
  wrapUp (S fuel) d
  = if Qle_bool d (- Q_PI) then wrapUp fuel (d + Q_PI * 2) else Ok d.
Proof. reflexivity. Qed.

Lemma wrapDown_S (fuel : nat) (d : Q) :
  wrapDown (S fuel) d
  = if Qltb Q_PI d then wrapDown fuel (d - Q_PI * 2) else Ok d.
Proof. reflexivity. Qed.

Lemma inject_Z_succ (k : nat) : inject_Z (Z.of_nat (S k)) == inject_Z (Z.of_nat k) + 1.
Proof. rewrite Nat2Z.inj_succ, <- Z.add_1_r, inject_Z_plus. reflexivity. Qed.

(** The first loop ends above [-π], moves the difference by whole turns,
    leaves it alone when it is already above [-π], and does not push it above
    [π]. *)
Lemma wrapUp_spec fuel : forall d r,
  wrapUp fuel d = Ok r ->
  - Q_PI < r /\ (exists k : nat, r == d + Q_PI * 2 * inject_Z (Z.of_nat k))
  /\ (- Q_PI < d -> r = d) /\ (d <= Q_PI -> r <= Q_PI).
Proof.
  pose proof Q_PI_bounds as [Hlo Hhi].
  induction fuel as [|fuel IH]; intros d r Hr; [discriminate|].
  rewrite wrapUp_S in Hr. destruct (Qleb_spec d (- Q_PI)) as [Hle|Hgt].
  - apply IH in Hr as (H1 & [k Hk] & H3 & H4). repeat split.
    + exact H1.
    + exists (S k). rewrite inject_Z_succ, Hk. ring.
    + intros; lra.
    + intros _. apply H4. lra.
  - injection Hr as <-. repeat split; try lra; auto.
    exists 0%nat. change (inject_Z (Z.of_nat 0)) with 0. ring.
Qed.


(** With fuel beyond the number of whole turns in the difference, the loops
    end. *)
Lemma wrapUp_terminates (n : nat) : forall d fuel,
  - Q_PI < d + Q_PI * 2 * inject_Z (Z.of_nat n) -> (n < fuel)%nat ->
  exists r, wrapUp fuel d = Ok r.
Proof.
  induction n as [|n IH]; intros d [|fuel] Hd Hfuel; try lia;
    rewrite wrapUp_S; destruct (Qleb_spec d (- Q_PI)) as [Hle|Hgt]; eauto.
  - change (inject_Z (Z.of_nat 0)) with 0 in Hd. lra.
  - apply IH; [|lia]. rewrite inject_Z_succ in Hd. lra.
Qed.

Lemma wrapDown_terminates (n : nat) : forall d fuel,
  d - Q_PI * 2 * inject_Z (Z.of_nat n) <= Q_PI -> (n < fuel)%nat ->
  exists r, wrapDown fuel d = Ok r.
Proof.
  induction n as [|n IH]; intros d [|fuel] Hd Hfuel; try lia;
    rewrite wrapDown_S; destruct (Qltb_spec Q_PI d) as [Hgt|Hle]; eauto.
  - change (inject_Z (Z.of_nat 0)) with 0 in Hd. lra.
  - apply IH; [|lia]. rewrite inject_Z_succ in Hd. lra.
Qed.

(** Fuel that suffices for a difference [d]: more than [|d|] iterations are
    never needed, since each one moves the difference by more than 1. *)
Definition turnsIn (d : Q) : nat := Z.to_nat (Qceiling (Qabs d)).

Lemma turnsIn_bound (d : Q) : Qabs d <= inject_Z (Z.of_nat (turnsIn d)).
Proof.
  unfold turnsIn. pose proof (Qle_ceiling (Qabs d)) as Hc.
  pose proof (Qabs_nonneg d) as Hd.
  assert (0 <= Qceiling (Qabs d))%Z as Hz.
  { destruct (Z.le_gt_cases 0 (Qceiling (Qabs d))) as [|Hneg]; [assumption|].
    exfalso. assert (inject_Z (Qceiling (Qabs d)) < 0) as Hq.
    { change 0 with (inject_Z 0). rewrite <- Zlt_Qlt. exact Hneg. }
    lra. }
  rewrite Z2Nat.id by exact Hz. exact Hc.
Qed.

Lemma shortestAngleDiff_terminates (t c : Q) (fuel : nat) :
  (turnsIn (t - c) < fuel)%nat ->
  exists r, shortestAngleDiff fuel t c = Ok r.
Proof.
  intros Hfuel. pose proof Q_PI_bounds as [Hlo Hhi].
  pose proof (turnsIn_bound (t - c)) as Hn.
  assert (0 <= inject_Z (Z.of_nat (turnsIn (t - c)))) as Hn0.
  { pose proof (Qabs_nonneg (t - c)). lra. }
  pose proof (Qle_Qabs (t - c)) as Habs1.
  pose proof (Qle_Qabs (- (t - c))) as Habs2. rewrite Qabs_opp in Habs2.
  unfold shortestAngleDiff. change (sub t c) with (t - c).
  destruct (wrapUp_terminates (turnsIn (t - c)) (t - c) fuel) as [r1 Hr1];
    [nra|exact Hfuel|].
  rewrite Hr1. apply wrapUp_spec in Hr1 as (H1 & _ & H3 & H4).
  destruct (Qlt_le_dec Q_PI (t - c)) as [Hbig|Hsmall].
  - rewrite H3 by lra. apply (wrapDown_terminates (turnsIn (t - c))); [nra|exact Hfuel].
  - apply (wrapDown_terminates 0); [|lia].
    change (inject_Z (Z.of_nat 0)) with 0. specialize (H4 Hsmall). lra.
Qed.


(** *** The remainder *)

Lemma Qtrunc_nonneg (q : Q) : 0 <= q -> Qtrunc q = Qfloor q.
Proof.
  intros Hq. unfold Qtrunc, Qfloor. destruct q as [n d].
  apply Z.quot_div_nonneg; [|reflexivity].
  unfold Qle in Hq. simpl in *. lia.
Qed.


Lemma Qrem_nonneg (a b : Q) :
  0 < b -> 0 <= a -> 0 <= Qrem a b /\ Qrem a b < b.
Proof.
  intros Hb Ha. unfold Qrem.
  assert (0 <= a / b) as Hq by (apply Qle_shift_div_l; lra).
  rewrite (Qtrunc_nonneg _ Hq).
  pose proof (Qfloor_le (a / b)) as Hlo.
  pose proof (Qlt_floor (a / b)) as Hhi.
  rewrite inject_Z_plus in Hhi. change (inject_Z 1) with 1 in Hhi.
  assert (b * (a / b) == a) as Hab by (apply Qmult_div_r; lra).
  set (f := inject_Z (Qfloor (a / b))) in *.
  set (q := a / b) in *.
  split.
  - assert (b * f <= b * q) by (apply Qmult_le_l; assumption). lra.
  - assert (b * q < b * (f + 1)) by (apply Qmult_lt_l; assumption). lra.
Qed.

Lemma Qtrunc_nonpos (q : Q) : q <= 0 -> q <= inject_Z (Qtrunc q).
Proof.
  intros Hq. pose proof (Qfloor_le (- q)) as Hfl.
  assert (Qtrunc q = - Qfloor (- q))%Z as ->.
  { unfold Qtrunc, Qfloor. destruct q as [n d]. unfold Qle in Hq.
    simpl in *. rewrite <- (Z.opp_involutive n) at 1.
    rewrite Z.quot_opp_l by lia. f_equal. apply Z.quot_div_nonneg; lia. }
  rewrite inject_Z_opp. lra.
Qed.

Lemma Qrem_neg (a b : Q) : 0 < b -> a < 0 -> Qrem a b <= 0.
Proof.
  intros Hb Ha. unfold Qrem.
  assert (a / b <= 0) as Hq.
  { apply Qle_shift_div_r; [exact Hb|]. lra. }
  assert (b * (a / b) == a) as Hab by (apply Qmult_div_r; lra).
  pose proof (Qtrunc_nonpos _ Hq) as Hup.
  set (q := a / b) in *.
  assert (b * q <= b * inject_Z (Qtrunc q))
    by (apply Qmult_le_l; assumption).
  lra.
Qed.

(** *** Turning *)

Lemma turn_speed_value : WORM_TURN_SPEED (num:=Q) == 1 # 20.
Proof. reflexivity. Qed.

Lemma two_PI_value : two_PI (num:=Q) = Q_PI * 2.
Proof. reflexivity. Qed.


(** The turn that [updateWorm] makes, on the difference the loops produce. *)
Lemma turnTowards_cases (r t c : Q) :
  (Qabs r <= 1 # 20 /\ turnTowards r t c = t)
  \/ (1 # 20 < r /\ turnTowards r t c == c + (1 # 20))
  \/ (r < - (1 # 20) /\ turnTowards r t c == c - (1 # 20)).
Proof.
  unfold turnTowards, gtb.
  change (ltb WORM_TURN_SPEED (Math_abs r)) with (Qltb WORM_TURN_SPEED (Qabs r)).
  destruct (Qltb_spec WORM_TURN_SPEED (Qabs r)) as [Hturn|Hsnap].
  - right. rewrite turn_speed_value in Hturn.
    change (add c (mul (Math_sign r) WORM_TURN_SPEED))
      with (c + Qsign r * WORM_TURN_SPEED).
    unfold Qsign. destruct (Qltb_spec 0 r) as [Hpos|Hnpos].
    + left. rewrite Qabs_pos in Hturn by lra. split; [exact Hturn|].
      rewrite turn_speed_value. ring.
    + destruct (Qltb_spec r 0) as [Hneg|Hnneg].
      * right. rewrite Qabs_neg in Hturn by lra. split; [lra|].
        rewrite turn_speed_value. ring.
      * exfalso. rewrite Qabs_pos in Hturn by lra. lra.
  - left. split; [|reflexivity]. rewrite turn_speed_value in Hsnap. lra.
Qed.


(** The normalization lands in [0, 2π) exactly when its argument is at least
    [-2π]; below that the result is not positive. *)
Lemma normalizeAngle_range (a : Q) :
  - (Q_PI * 2) <= a -> 0 <= normalizeAngle a /\ normalizeAngle a < Q_PI * 2.
Proof.
  pose proof Q_PI_bounds as [Hlo Hhi]. intros Ha.
  unfold normalizeAngle. change (rem (add a two_PI) two_PI)
    with (Qrem (a + Q_PI * 2) (Q_PI * 2)).
  apply Qrem_nonneg; lra.
Qed.

Lemma normalizeAngle_below (a : Q) :
  a < - (Q_PI * 2) -> normalizeAngle a <= 0.
Proof.
  pose proof Q_PI_bounds as [Hlo Hhi]. intros Ha.
  unfold normalizeAngle. change (rem (add a two_PI) two_PI)
    with (Qrem (a + Q_PI * 2) (Q_PI * 2)).
  apply Qrem_neg; lra.
Qed.

(** *** The movement update *)

(** The heading after [updateWorm]: what the turn gives, normalized. *)
Lemma updateWorm_angle fuel now (o o' : Worm Q) :
  isAlive o = true -> segments o <> [] ->
  updateWorm fuel now o = Ok o' ->
  exists r,
    shortestAngleDiff fuel (targetAngle o) (angle o) = Ok r
    /\ angle o' = normalizeAngle (turnTowards r (targetAngle o) (angle o)).
Proof.
  intros Halive Hsegs. destruct (segments o) as [|head rest] eqn:Hs; [easy|].
  rewrite (updateWorm_alive _ _ _ head rest Halive Hs).
  destruct (shortestAngleDiff fuel (targetAngle o) (angle o)) as [r| |];
    try discriminate.
  intros [= <-]. exists r. split; reflexivity.
Qed.

Lemma updateWorm_terminates now (o : Worm Q) :
  exists o', updateWorm (S (turnsIn (targetAngle o - angle o))) now o = Ok o'.
Proof.
  destruct (isAlive o) eqn:Halive; [|rewrite updateWorm_idle; eauto].
  destruct (segments o) as [|head rest] eqn:Hs; [rewrite updateWorm_idle; eauto|].
  rewrite (updateWorm_alive _ _ _ head rest Halive Hs).
  destruct (shortestAngleDiff_terminates (targetAngle o) (angle o)
              (S (turnsIn (targetAngle o - angle o)))) as [r ->]; [lia|].
  eauto.
Qed.


(** When the worm's heading is in [0, 2π) and its target is at least [-2π],
    as every target the bot AI writes and every [Math.atan2] value is, the
    heading stays in [0, 2π). *)
Lemma updateWorm_heading_in_range fuel now (o o' : Worm Q) :
  isAlive o = true -> segments o <> [] ->
  0 <= angle o -> angle o < Q_PI * 2 -> - (Q_PI * 2) <= targetAngle o ->
  updateWorm fuel now o = Ok o' ->
  0 <= angle o' /\ angle o' < Q_PI * 2.
Proof.
  intros Halive Hsegs Hc1 Hc2 Ht Hrun. pose proof Q_PI_bounds as [Hlo Hhi].
  destruct (updateWorm_angle _ _ _ _ Halive Hsegs Hrun) as (r & _ & ->).
  apply normalizeAngle_range.
  destruct (turnTowards_cases r (targetAngle o) (angle o))
    as [[_ ->]|[[_ ->]|[_ ->]]]; lra.
Qed.

(** C1, as the code has it: in exact arithmetic the movement update of a
    living worm with a head completes, and whenever it completes it leaves
    [hasSpeedBoost] and [speedBoostEndTime] as they were; the boost ends only
    in its effect: the new head is one step of length [speed] along the new
    heading, where [speed] is the base speed as soon as the clock has reached
    [speedBoostEndTime] (and whenever the flag is not set), and base speed
    times the boost factor while the flag is set and the clock is before it. *)
Theorem updateWorm_boost_ends_by_clock (now : Z) (o : Worm Q) head rest :
  isAlive o = true -> segments o = head :: rest ->
  (exists o', updateWorm (S (turnsIn (targetAngle o - angle o))) now o = Ok o')
  /\ forall fuel o', updateWorm fuel now o = Ok o' ->
       hasSpeedBoost o' = hasSpeedBoost o
       /\ speedBoostEndTime o' = speedBoostEndTime o
       /\ exists speed,
            segments o' = advancedHead head (angle o') speed :: segments o
            /\ ((speedBoostEndTime o <= now)%Z -> speed = WORM_SPEED)
            /\ (hasSpeedBoost o = false -> speed = WORM_SPEED)
            /\ (hasSpeedBoost o = true -> (now < speedBoostEndTime o)%Z ->
                speed = mul WORM_SPEED SPEED_BOOST_FACTOR).
Proof.
  intros Halive Hsegs. split; [apply updateWorm_terminates|].
  intros fuel o' Hrun.
  destruct (updateWorm_frame _ _ _ _ Hrun) as (Hb & He & _).
  split; [exact Hb|]. split; [exact He|].
  rewrite (updateWorm_alive _ _ _ head rest Halive Hsegs) in Hrun.
  destruct (shortestAngleDiff fuel (targetAngle o) (angle o)) as [r| |];
    try discriminate.
  injection Hrun as <-. exists (currentSpeed now o). split; [reflexivity|].
  unfold currentSpeed. repeat split.
  - intros Hexp. destruct (Z.ltb_spec now (speedBoostEndTime o)); [lia|].
    now rewrite andb_false_r.
  - now intros ->.
  - intros -> Hlt. destruct (Z.ltb_spec now (speedBoostEndTime o)); [|lia].
    reflexivity.
Qed.

End ExactMovement.

(* ================================================================== *)
(** ** Movement on two inputs a client can send *)

Section ClientAngles.
Local Open Scope js_scope.

(** The double 1e20. *)
Definition hugeAngle : f64 := F64_of_Z (10 ^ 20).

(** C3, the failing input: the worm of ["s1"] heads 5.55 when the client
    sends [{ angle: -7 }]; the handler stores -7, the next movement update
    finds the difference within one turn step (-7 - 5.55 + 4π ≈ 0.016), snaps
    to -7 and writes (-7 + 2π) % 2π ≈ -0.717 as the heading: a negative
    number, in exact arithmetic and on doubles alike. *)
Theorem heading_negative_after_input_below_minus_2pi (now : Z) :
  (forall trig : Trig Q,
     match (run! onPlayerInput "s1" (angleInput (-7)%Q) in moveWorms 5 now)
             (soloWorld (111 # 20)%Q) with
     | Ok (_, w') =>
         match headingOf "s1" w' with
         | Some a => (a < 0)%Q
         | None => False
         end
     | _ => False
     end)
  /\ (forall trig : Trig f64,
        match (run! onPlayerInput "s1" (angleInput (F64_of_Z (-7))) in
               moveWorms 5 now)
                (soloWorld (div (of_Z 555) (of_Z 100))) with
        | Ok (_, w') =>
            match headingOf "s1" w' with
            | Some a => SFltb a (F64_of_Z 0) = true
            | None => False
            end
        | _ => False
        end).
Proof.
  split; intros trig; vm_compute; reflexivity.
Qed.








Section Doubles.
Context {trig : Trig f64}.

(** Subtracting 2π from 1e20 gives 1e20 again: the second loop of
    [updateWorm] makes no progress. *)
Lemma wrapDown_huge (fuel : nat) : wrapDown fuel hugeAngle = OutOfFuel.
Proof.
  induction fuel as [|fuel IH]; [reflexivity|].
  change (wrapDown (S fuel) hugeAngle)
    with (if gtb hugeAngle Math_PI then wrapDown fuel (sub hugeAngle two_PI)
          else Ok hugeAngle).
  replace (gtb hugeAngle Math_PI) with true by (vm_compute; reflexivity).
  replace (sub hugeAngle two_PI) with hugeAngle by (vm_compute; reflexivity).
  exact IH.
Qed.

Lemma shortestAngleDiff_huge (fuel : nat) :
  shortestAngleDiff fuel hugeAngle (of_Z 0) = OutOfFuel.
Proof.
  unfold shortestAngleDiff.
  replace (sub hugeAngle (of_Z 0)) with hugeAngle by (vm_compute; reflexivity).
  destruct fuel as [|fuel]; [reflexivity|].
  change (wrapUp (S fuel) hugeAngle)
    with (if leb hugeAngle (neg Math_PI) then wrapUp fuel (add hugeAngle two_PI)
          else Ok hugeAngle).
  replace (leb hugeAngle (neg Math_PI)) with false by (vm_compute; reflexivity).
  apply wrapDown_huge.
Qed.

(** C10, the failing input: on doubles, after the client of ["s1"] has sent
    [{ angle: 1e20 }], a finite number that the handler accepts, the movement
    phase of the next tick does not complete, whatever fuel it is given:
    [angleDiff -= Math.PI * 2] leaves 1e20 unchanged and the loop
    [while (angleDiff > Math.PI)] never exits. *)
Theorem movement_never_completes_after_huge_angle (fuel : nat) (now : Z) :
  (run! onPlayerInput "s1" (angleInput hugeAngle) in moveWorms fuel now)
    (soloWorld (of_Z 0)) = OutOfFuel.
Proof.
  unfold bind at 1.
  replace (onPlayerInput "s1" (angleInput hugeAngle) (soloWorld (of_Z 0)))
    with (Ok (tt, updateWormOf "s1" (set_targetAngle hugeAngle)
                               (soloWorld (of_Z 0))))
    by (vm_compute; reflexivity).
  unfold moveWorms, bind, get.
  cbn -[updateWorm hugeAngle straightSegments].
  unfold bind, getPlayer. cbn -[updateWorm hugeAngle straightSegments].
  assert (exists head rest, straightSegments (num:=f64) = head :: rest)
    as (head & rest & Hsegs) by (vm_compute; eauto).
  rewrite (updateWorm_alive fuel now
             (set_targetAngle hugeAngle (straightWorm (S754_zero false)))
             head rest eq_refl Hsegs).
  cbn [targetAngle angle set_targetAngle straightWorm].
  change (S754_zero false) with (of_Z (num:=f64) 0).
  rewrite shortestAngleDiff_huge. reflexivity.
Qed.

End Doubles.


Definition boostedWorm : Worm Q :=
  set_speedBoostEndTime 10000 (set_hasSpeedBoost true (straightWorm 0%Q)).



Lemma boostedWorm_segments :
  exists head rest, segments boostedWorm = head :: rest.
Proof. vm_compute. eauto. Defined.

(** C1, refuted as stated: a worm whose boost ran until the clock read
    10000 is updated when the clock reads exactly 10000, and again at 10001;
    [hasSpeedBoost] is true after both updates. *)
Lemma boost_flag_still_set_after_expiry :
  match updateWorm (H0:=sampleTrig) 1 10000 boostedWorm with
  | Ok o' =>
      hasSpeedBoost o' = true
      /\ match updateWorm (H0:=sampleTrig) 1 10001 o' with
         | Ok o'' => hasSpeedBoost o'' = true
         | _ => False
         end
  | _ => False
  end.
Proof. vm_compute. split; reflexivity. Qed.

Lemma updateWorm_boost_ends_by_clock_witness :
  exists head rest,
    isAlive boostedWorm = true
    /\ segments boostedWorm = head :: rest
    /\ (exists o', updateWorm (H0:=sampleTrig) 1 10000 boostedWorm = Ok o')
    /\ forall fuel o',
         updateWorm (H0:=sampleTrig) fuel 10000 boostedWorm = Ok o' ->
         hasSpeedBoost o' = true
         /\ speedBoostEndTime o' = 10000%Z
         /\ exists speed,
              segments o'
              = advancedHead (H0:=sampleTrig) head (angle o') speed
                  :: segments boostedWorm
              /\ ((10000 <= 10000)%Z -> speed = WORM_SPEED)
              /\ (true = false -> speed = WORM_SPEED)
              /\ (true = true -> (10000 < 10000)%Z ->
                  speed = mul WORM_SPEED SPEED_BOOST_FACTOR).
Proof.
  destruct boostedWorm_segments as (head & rest & Hsegs).
  exists head, rest. split; [reflexivity|]. split; [exact Hsegs|].
  exact (updateWorm_boost_ends_by_clock (trig:=sampleTrig) 10000 boostedWorm
           head rest eq_refl Hsegs).
Defined.

Lemma onPlayerInput_stores_raw_angle_witness :
  exists w' p' o',
    onPlayerInput "s1" (angleInput (F64_of_Z (-7))) (soloWorld (F64_of_Z 0))
    = Ok (tt, w')
    /\ lookupPlayer "s1" (players w') = Some p' /\ worm p' = Some o'
    /\ targetAngle o' = F64_of_Z (-7)
    /\ onPlayerInput "s1" (angleInput S754_nan) (soloWorld (F64_of_Z 0))
       = Ok (tt, soloWorld (F64_of_Z 0)).
Proof.
  destruct (onPlayerInput_stores_raw_angle "s1" (angleInput (F64_of_Z (-7)))
              (soloWorld (F64_of_Z 0))) as (w' & Hrun & Hset & _).
  destruct (Hset _ _ (F64_of_Z (-7)) eq_refl eq_refl eq_refl eq_refl eq_refl)
    as (p' & o' & Hp' & Ho' & Ht & _).
  destruct (onPlayerInput_stores_raw_angle "s1" (angleInput S754_nan)
              (soloWorld (F64_of_Z 0))) as (w2 & Hrun2 & _ & Hkeep).
  exists w', p', o'. split; [exact Hrun|]. split; [exact Hp'|].
  split; [exact Ho'|]. split; [exact Ht|].
  rewrite Hrun2. f_equal. f_equal. apply Hkeep. right.
  intros a Ha. injection Ha as <-. reflexivity.
Defined.

End ClientAngles.

(* ================================================================== *)
(** ** Reasoning about the effects

    [preserves R c]: every completed run of [c] relates the world before to
    the world after by [R].  The functions of the server are built from a
    few writes to the module-level variables; a relation that tolerates
    those writes is preserved by the functions built from them. *)

Section Effects.
Context {num : Type}.

Definition preserves {A} (R : relation (World num)) (c : M num A) : Prop :=
  forall w a w', c w = Ok (a, w') -> R w w'.

Section Rules.
Context (R : relation (World num)) (HR : PreOrder R).

Lemma preserves_ret {A} (a : A) : preserves R (ret a).
Proof. intros w a' w' [= _ <-]. reflexivity. Qed.

Lemma preserves_get : preserves R get.
Proof. intros w a' w' [= _ <-]. reflexivity. Qed.

Lemma preserves_throw {A} : preserves R (throw (A:=A)).
Proof. intros w a' w' [=]. Qed.

Lemma preserves_outOfFuel {A} : preserves R (outOfFuel (A:=A)).
Proof. intros w a' w' [=]. Qed.

Lemma preserves_bind {A B} (c : M num A) (k : A -> M num B) :
  preserves R c -> (forall a, preserves R (k a)) -> preserves R (bind c k).
Proof.
  intros Hc Hk w b w'. unfold bind.
  destruct (c w) as [[a w1]| |] eqn:E; try discriminate.
  intros Hrun. transitivity w1; [eapply Hc|eapply Hk]; eassumption.
Qed.

Lemma preserves_modify (f : World num -> World num) :
  (forall w, R w (f w)) -> preserves R (modify f).
Proof. intros Hf w a' w' [= _ <-]. apply Hf. Qed.

Lemma preserves_reader {A} (f : World num -> result A) :
  preserves R (fun w => match f w with
                        | Ok a => Ok (a, w)
                        | OutOfFuel => OutOfFuel
                        | TypeError => TypeError
                        end).
Proof. intros w a w'. destruct (f w); intros [= _ <-]. reflexivity. Qed.

End Rules.

(** A weaker relation is preserved as well. *)
Lemma preserves_weaken {A} (R R' : relation (World num)) (c : M num A) :
  (forall w w', R w w' -> R' w w') -> preserves R c -> preserves R' c.
Proof. intros HRR' Hc w a w' Hrun. eapply HRR', Hc, Hrun. Qed.

(** Two relations are preserved together. *)
Lemma preserves_and {A} (R R' : relation (World num)) (c : M num A) :
  preserves R c -> preserves R' c ->
  preserves (fun w w' => R w w' /\ R' w w') c.
Proof. intros Hc Hc' w a w' Hrun. split; [eapply Hc|eapply Hc']; eauto. Qed.

End Effects.

(** One step of a proof that a function preserves a relation: follow the
    structure of the function. *)
Ltac preserves_step :=
  lazymatch goal with
  | |- preserves _ (bind _ _) =>
      apply preserves_bind; [exact _| |intros ?]
  | |- preserves _ (ret _) => apply preserves_ret; exact _
  | |- preserves _ get => apply preserves_get; exact _
  | |- preserves _ throw => apply preserves_throw
  | |- preserves _ outOfFuel => apply preserves_outOfFuel
  | |- preserves _ (modify _) => apply preserves_modify; intros ?
  | |- preserves _ (match ?x with _ => _ end) => destruct x eqn:?
  end.

(* ================================================================== *)
(** ** The writes of the server, and the relations that tolerate them *)

Class RandomTolerant {num : Type} (R : relation (World num)) : Prop := {
  T_preorder :: PreOrder R;
  T_random : forall w n, R w (set_randomCalls n w)
}.

(** The other writes, one class for each group.  [touchable key]: writes to
    the worm under [key] that leave its segments alone are tolerated.
    [poppable key]: any write to that worm is.  [okEater key]: the player
    under [key] may be recorded as an eater. *)
Class TolFood {num : Type} `{JsNumber num} (R : relation (World num)) : Prop := {
  T_push : forall w (mk : string -> Food num),
    (forall id, food_id (mk id) = id) ->
    R w (set_food (food w ++ [mk (foodIdOf (nextFoodId w))])
                  (set_nextFoodId (N.succ (nextFoodId w)) w))
}.

Class TolDelete {num : Type} (R : relation (World num)) : Prop := {
  T_delete : forall w j, R w (set_food (delete j (food w)) w)
}.

Class TolEaten {num : Type} (R : relation (World num))
  (okEater : string -> Prop) : Prop := {
  T_eaten : forall w key p (e : Eaten num),
    lookupPlayer key (players w) = Some p -> eaterId e = player_id p ->
    okEater key ->
    R w (set_eatenFoodThisTick (eatenFoodThisTick w ++ [e]) w)
}.

Class TolWorm {num : Type} (R : relation (World num))
  (touchable : string -> Prop) : Prop := {
  T_worm : forall w key (g : Worm num -> Worm num),
    touchable key -> (forall o, segments (g o) = segments o) ->
    R w (updateWormOf key g w)
}.

Class TolPop {num : Type} (R : relation (World num))
  (poppable : string -> Prop) : Prop := {
  T_pop : forall w key (g : Worm num -> Worm num),
    poppable key -> R w (updateWormOf key g w)
}.

Class TolOutput {num : Type} (R : relation (World num)) : Prop := {
  T_timers : forall w t, R w (set_timers (timers w ++ [t]) w);
  T_emitted : forall w e, R w (set_emitted (emitted w ++ [e]) w)
}.

Section RandomOnly.
Context {num : Type} `{JsNumber num} `{RandomSource num}.
Context (R : relation (World num)) `{!RandomTolerant R}.

Lemma random_preserves : preserves R random.
Proof. intros w a w' [= _ <-]. apply T_random. Qed.

Lemma getRandomColor_preserves : preserves R getRandomColor.
Proof. unfold getRandomColor. preserves_step; [apply random_preserves|]. preserves_step. Qed.

Lemma getRandomSpawnPositionXY_preserves margin :
  preserves R (getRandomSpawnPositionXY margin).
Proof.
  unfold getRandomSpawnPositionXY.
  preserves_step; [apply random_preserves|].
  preserves_step; [apply random_preserves|]. preserves_step.
Qed.

Lemma randomFoodType_preserves : preserves R randomFoodType.
Proof. unfold randomFoodType. preserves_step; [apply random_preserves|]. preserves_step. Qed.

Lemma isSpawnPositionClear_preserves x y : preserves R (isSpawnPositionClear x y).
Proof.
  intros w a w'. unfold isSpawnPositionClear.
  destruct (existsb _ (food w)); [intros [= _ <-]; reflexivity|].
  destruct (headsClear x y (players w)); intros [= _ <-]. reflexivity.
Qed.

Lemma findClearSpot_preserves n : preserves R (findClearSpot n).
Proof.
  induction n as [|n IH]; cbn [findClearSpot]; [preserves_step|].
  preserves_step; [apply getRandomSpawnPositionXY_preserves|].
  preserves_step; [apply isSpawnPositionClear_preserves|].
  preserves_step; [preserves_step|exact IH].
Qed.

End RandomOnly.

Section Tolerance.
Context {num : Type} `{JsNumber num} `{RandomSource num}.
Context (R : relation (World num)) (touchable poppable okEater : string -> Prop).
Context `{!RandomTolerant R} `{!TolFood R} `{!TolDelete R}
        `{!TolEaten R okEater} `{!TolWorm R touchable} `{!TolPop R poppable}
        `{!TolOutput R}.

Lemma pushFood_preserves mk :
  (forall id, food_id (mk id) = id) -> preserves R (pushFood mk).
Proof. intros Hmk. unfold pushFood. preserves_step. now apply T_push. Qed.

Lemma spawnOneFood_preserves : preserves R spawnOneFood.
Proof.
  unfold spawnOneFood.
  preserves_step; [apply (findClearSpot_preserves R)|].
  preserves_step.
  { preserves_step; [preserves_step|apply (getRandomSpawnPositionXY_preserves R)]. }
  preserves_step; [apply (randomFoodType_preserves R)|].
  preserves_step; [apply (getRandomColor_preserves R)|].
  apply pushFood_preserves. reflexivity.
Qed.

Lemma spawnFood_preserves count : preserves R (spawnFood count).
Proof.
  induction count as [|count IH]; cbn [spawnFood]; [preserves_step|].
  preserves_step; [preserves_step|].
  preserves_step; [preserves_step|].
  preserves_step; [apply spawnOneFood_preserves|exact IH].
Qed.

Lemma redrawWhileSpecial_preserves fuel : forall t,
  preserves R (redrawWhileSpecial fuel t).
Proof.
  induction fuel as [|fuel IH]; intros t; cbn [redrawWhileSpecial]; [preserves_step|].
  preserves_step; [|preserves_step].
  preserves_step; [apply (randomFoodType_preserves R)|apply IH].
Qed.

Lemma dropFoodFrom_preserves fuel c segs : forall index,
  preserves R (dropFoodFrom fuel c index segs).
Proof.
  induction segs as [|seg segs IH]; intros index; cbn [dropFoodFrom]; [preserves_step|].
  preserves_step; [|apply IH].
  preserves_step; [|preserves_step].
  preserves_step; [apply (random_preserves R)|].
  preserves_step; [|preserves_step].
  preserves_step; [preserves_step|].
  preserves_step; [|preserves_step].
  preserves_step; [apply (randomFoodType_preserves R)|].
  preserves_step; [apply redrawWhileSpecial_preserves|].
  apply pushFood_preserves. reflexivity.
Qed.

Lemma killPlayer_preserves fuel pId :
  touchable pId -> preserves R (killPlayer fuel pId).
Proof.
  intros Hp. unfold killPlayer.
  preserves_step; [preserves_step|].
  repeat (preserves_step; try reflexivity).
  - now apply T_worm.
  - apply dropFoodFrom_preserves.
  - apply T_emitted.
  - apply T_timers.
Qed.

Lemma getPlayer_preserves key : preserves R (getPlayer key).
Proof.
  intros w a w'. unfold getPlayer.
  destruct (lookupPlayer key (players w)); intros [= _ <-]. reflexivity.
Qed.

Lemma getWorm_preserves key : preserves R (getWorm key).
Proof.
  unfold getWorm. preserves_step; [apply getPlayer_preserves|].
  preserves_step; preserves_step.
Qed.

Lemma updateBotState_preserves key f :
  touchable key -> preserves R (updateBotState key f).
Proof.
  intros Hk. unfold updateBotState.
  preserves_step; [apply getWorm_preserves|].
  preserves_step; preserves_step. now apply T_worm.
Qed.

Lemma forEachKey_preserves (f : string -> M num unit) keys :
  (forall key, key ∈ keys -> preserves R (f key)) ->
  preserves R (forEachKey f keys).
Proof.
  induction keys as [|key keys IH]; intros Hf; cbn [forEachKey]; [preserves_step|].
  preserves_step; [apply Hf; left|].
  apply IH. intros key' Hin. apply Hf. now right.
Qed.

Lemma eatFood_preserves now key f :
  touchable key -> okEater key -> preserves R (eatFood now key f).
Proof.
  intros Hk He w a w'. unfold eatFood. unfold bind at 1, getPlayer.
  destruct (lookupPlayer key (players w)) as [player|] eqn:Hp; [|discriminate].
  unfold bind at 1, modify at 1.
  intros Hrun.
  lazymatch type of Hrun with
  | ?c ?w1 = Ok _ => transitivity w1
  end; [eapply (T_eaten w key player); [exact Hp|reflexivity|exact He]|].
  revert Hrun.
  lazymatch goal with
  | |- ?c ?w1 = Ok _ -> _ =>
      enough (preserves R c) as Hc by (exact (Hc _ _ _))
  end.
  preserves_step; [preserves_step; now apply T_worm|].
  preserves_step; [apply spawnFood_preserves|].
  preserves_step.
  { preserves_step; [preserves_step; now apply T_worm|].
    preserves_step; [|preserves_step].
    preserves_step; [preserves_step; now apply T_worm|].
    preserves_step. apply T_timers. }
  preserves_step; [|preserves_step].
  preserves_step; [apply getWorm_preserves|].
  preserves_step; [|preserves_step].
  preserves_step; [|preserves_step].
  now apply updateBotState_preserves.
Qed.

Lemma scanFood_preserves now key head :
  touchable key -> okEater key ->
  forall jPlus1 ate, preserves R (scanFood now key head jPlus1 ate).
Proof.
  intros Hk He. induction jPlus1 as [|j IH]; intros ate; cbn [scanFood];
    [preserves_step|].
  preserves_step; [preserves_step|].
  preserves_step; [|preserves_step].
  preserves_step; [apply getWorm_preserves|].
  preserves_step; [|apply IH].
  preserves_step; [preserves_step; apply T_delete|].
  preserves_step; [now apply eatFood_preserves|].
  preserves_step; [apply getWorm_preserves|].
  preserves_step; [preserves_step|apply IH].
Qed.

Lemma foodCollision_preserves now key :
  touchable key -> okEater key -> poppable key ->
  preserves R (foodCollision now key).
Proof.
  intros Hk He Hpop. unfold foodCollision.
  preserves_step; [apply getWorm_preserves|].
  preserves_step; [preserves_step|].
  preserves_step; [preserves_step|].
  preserves_step; [now apply scanFood_preserves|].
  preserves_step; [apply getWorm_preserves|].
  preserves_step; preserves_step. now apply T_pop.
Qed.

Lemma killAndMark_preserves fuel key player :
  (forall id, touchable id) -> preserves R (killAndMark fuel key player).
Proof.
  intros Hall. unfold killAndMark.
  preserves_step; [now apply killPlayer_preserves|].
  preserves_step. now apply T_worm.
Qed.

Lemma wormCollision_preserves fuel living key :
  (forall id, touchable id) -> preserves R (wormCollision fuel living key).
Proof.
  intros Hall. unfold wormCollision.
  preserves_step; [apply getPlayer_preserves|].
  preserves_step; [apply getWorm_preserves|].
  preserves_step; [preserves_step|].
  preserves_step; [now apply killAndMark_preserves|].
  preserves_step; [preserves_step|].
  preserves_step.
  { preserves_step; [now apply killAndMark_preserves|preserves_step]. }
  preserves_step; [apply getWorm_preserves|].
  preserves_step; [preserves_step|].
  preserves_step; [preserves_step|].
  preserves_step; [now apply killAndMark_preserves|preserves_step].
Qed.

End Tolerance.

(* ================================================================== *)
(** ** Relations that only look at the food *)

(** [R] tolerates every write that leaves the food list and the food
    counter alone, and the two writes to the food list. *)
Class FoodOnly {num : Type} `{JsNumber num} (R : relation (World num)) : Prop := {
  F_preorder :: PreOrder R;
  F_food :: TolFood R;
  F_delete :: TolDelete R;
  F_other : forall w w',
    food w' = food w -> nextFoodId w' = nextFoodId w -> R w w'
}.

Section FoodOnly.
Context {num : Type} `{JsNumber num} `{Trig num} `{RandomSource num}.
Context (R : relation (World num)) `{!FoodOnly R}.

Lemma food_updateWormOf key (g : Worm num -> Worm num) w :
  food (updateWormOf key g w) = food w
  /\ nextFoodId (updateWormOf key g w) = nextFoodId w.
Proof.
  unfold updateWormOf. destruct (lookupPlayer key (players w)) as [p|]; [|easy].
  now destruct (worm p).
Qed.

Lemma F_worm key (g : Worm num -> Worm num) w : R w (updateWormOf key g w).
Proof. apply F_other; apply food_updateWormOf. Qed.

Let any : string -> Prop := fun _ => True.

#[local] Instance F_random : RandomTolerant R.
Proof. split; [exact _|]. intros; now apply F_other. Qed.

#[local] Instance F_eaten : TolEaten R any.
Proof. split. intros; now apply F_other. Qed.

#[local] Instance F_touch : TolWorm R any.
Proof. split. intros; apply F_other; apply food_updateWormOf. Qed.

#[local] Instance F_pop : TolPop R any.
Proof. split. intros; apply F_other; apply food_updateWormOf. Qed.

#[local] Instance F_output : TolOutput R.
Proof. split; intros; now apply F_other. Qed.

(** What is left after following the structure of a function: calls of
    functions already treated, and writes that do not concern the food. *)
Ltac food_only lemmas :=
  repeat first
    [ preserves_step
    | apply (forEachKey_preserves R); intros ? ?
    | apply F_worm
    | solve [apply F_other; reflexivity]
    | apply (random_preserves R)
    | apply (getRandomColor_preserves R)
    | apply (getRandomSpawnPositionXY_preserves R)
    | apply (isSpawnPositionClear_preserves R)
    | apply (getPlayer_preserves R)
    | apply (getWorm_preserves R)
    | apply (spawnFood_preserves R)
    | lemmas ].

Lemma spawnFood_food count : preserves R (spawnFood count).
Proof. apply (spawnFood_preserves R). Qed.

Lemma areaClear_food segs : preserves R (areaClear segs).
Proof.
  induction segs as [|seg segs IH]; cbn [areaClear];
    food_only ltac:(exact IH).
Qed.

Lemma findClearArea_food n : preserves R (findClearArea n).
Proof.
  induction n as [|n IH]; cbn [findClearArea];
    food_only ltac:(first [exact IH|apply areaClear_food]).
Qed.

Lemma resetPlayer_food pId : preserves R (resetPlayer pId).
Proof.
  unfold resetPlayer. food_only ltac:(apply findClearArea_food).
Qed.

Lemma addBot_food : preserves R addBot.
Proof. unfold addBot. food_only ltac:(apply resetPlayer_food). Qed.

Lemma removeBot_food botId : preserves R (removeBot botId).
Proof. unfold removeBot. food_only fail. Qed.

Lemma updateBotState_food key f : preserves R (updateBotState key f).
Proof. now apply (updateBotState_preserves R any). Qed.

Lemma seekFood_food key head a : preserves R (seekFood key head a).
Proof. unfold seekFood. food_only ltac:(apply updateBotState_food). Qed.

Lemma updateBotAI_food key : preserves R (updateBotAI key).
Proof.
  unfold updateBotAI.
  food_only ltac:(first [apply updateBotState_food|apply seekFood_food]).
Qed.

Lemma manageBots_food : preserves R manageBots.
Proof.
  unfold manageBots.
  food_only ltac:(first [apply addBot_food|apply removeBot_food]).
Qed.

Lemma updateBots_food : preserves R updateBots.
Proof. unfold updateBots. food_only ltac:(apply updateBotAI_food). Qed.

Lemma lift_preserves {A} (r : result A) : preserves R (lift r).
Proof. intros w a w'. unfold lift. destruct r; intros [= _ <-]. reflexivity. Qed.

Lemma moveWorms_food fuel now : preserves R (moveWorms fuel now).
Proof. unfold moveWorms. food_only ltac:(apply lift_preserves). Qed.

Lemma checkCollisions_food fuel now : preserves R (checkCollisions fuel now).
Proof.
  unfold checkCollisions.
  food_only ltac:(first
    [ now apply (foodCollision_preserves R any any any)
    | now apply (wormCollision_preserves R any) ]).
Qed.

Lemma gameLoop_food fuel now : preserves R (gameLoop fuel now).
Proof.
  unfold gameLoop.
  food_only ltac:(first
    [ apply manageBots_food | apply updateBots_food | apply moveWorms_food
    | apply checkCollisions_food ]).
Qed.

Lemma onPlayerInput_food socketId data : preserves R (onPlayerInput socketId data).
Proof. unfold onPlayerInput. food_only fail. Qed.

Lemma onConnection_food socketId : preserves R (onConnection socketId).
Proof. unfold onConnection. food_only ltac:(apply resetPlayer_food). Qed.

Lemma onRespawn_food socketId : preserves R (onRespawn socketId).
Proof. unfold onRespawn. food_only ltac:(apply resetPlayer_food). Qed.

Lemma onDisconnect_food socketId : preserves R (onDisconnect socketId).
Proof. unfold onDisconnect. food_only fail. Qed.

Lemma onSetPlayerName_food socketId name :
  preserves R (onSetPlayerName socketId name).
Proof. unfold onSetPlayerName. food_only fail. Qed.

Lemma fireTimer_food t : preserves R (fireTimer t).
Proof. unfold fireTimer. food_only ltac:(apply resetPlayer_food). Qed.

Lemma times_food n c : preserves R c -> preserves R (times n c).
Proof.
  intros Hc. induction n as [|n IH]; cbn [times];
    food_only ltac:(first [exact Hc|exact IH]).
Qed.

Lemma startServer_food : preserves R startServer.
Proof.
  unfold startServer.
  food_only ltac:(first [apply times_food|apply addBot_food]).
Qed.

End FoodOnly.

(* ================================================================== *)
(** ** Food ids *)

Section FoodIds.
Context {num : Type} `{JsNumber num} `{Trig num} `{RandomSource num}.
Local Open Scope js_scope.

(** [id] is one of the ids handed out so far. *)
Definition issued (w : World num) (id : string) : Prop :=
  exists n, (n < nextFoodId w)%N /\ id = foodIdOf n.

(** The items of the food list carry different ids, all of them handed out
    by the counter. *)
Definition foodIdsOk (w : World num) : Prop :=
  NoDup (map food_id (food w))
  /\ forall f, f ∈ food w -> issued w (food_id f).

(** From [w] to [w']: the counter does not go back, the food list stays in
    order, and every item of [w'] is an item of [w] or carries an id that had
    not been handed out in [w]. *)
Definition foodStep (w w' : World num) : Prop :=
  (nextFoodId w <= nextFoodId w')%N
  /\ (foodIdsOk w -> foodIdsOk w')
  /\ (forall f, f ∈ food w' -> f ∈ food w \/ ~ issued w (food_id f)).

(** What the event loop of Node.js can run: the two statements of the
    start-up code, a tick of the game loop, a socket event, a timer callback.
    The order in which they occur is not constrained, a timer apart, which
    must have been set. *)
Inductive Event :=
  | StartFood
  | StartBot
  | Tick (fuel : nat) (now : Z)
  | Connection (socketId : string)
  | PlayerInput (socketId : string) (data : JsValue num)
  | Respawn (socketId : string)
  | Disconnect (socketId : string)
  | SetPlayerName (socketId : string) (name : JsValue num)
  | TimerFires (t : Timer).

Definition handle (e : Event) : M num unit :=
  match e with
  | StartFood => spawnFood (MAX_FOOD / 2)
  | StartBot => addBot
  | Tick fuel now => let! _ := gameLoop fuel now in ret tt
  | Connection socketId => onConnection socketId
  | PlayerInput socketId data => onPlayerInput socketId data
  | Respawn socketId => onRespawn socketId
  | Disconnect socketId => onDisconnect socketId
  | SetPlayerName socketId name => onSetPlayerName socketId name
  | TimerFires t => fireTimer t
  end.

Definition enabled (e : Event) (w : World num) : Prop :=
  match e with
  | TimerFires t => t ∈ timers w
  | _ => True
  end.

(** [later w w']: the server gets from [w] to [w'] by handling events. *)
Inductive later : World num -> World num -> Prop :=
  | later_now w : later w w
  | later_event w e w1 w' :
      enabled e w -> handle e w = Ok (tt, w1) -> later w1 w' -> later w w'.

Definition reachable (w : World num) : Prop := later emptyWorld w.

Lemma foodIdOf_inj (n m : N) : foodIdOf n = foodIdOf m -> n = m.
Proof.
  unfold foodIdOf. cbn [String.append]. intros [= Heq].
  exact (pretty_N_inj _ _ Heq).
Qed.

Lemma issued_mono (w w' : World num) id :
  (nextFoodId w <= nextFoodId w')%N -> issued w id -> issued w' id.
Proof. intros Hle (n & Hn & ->). exists n. split; [lia|reflexivity]. Qed.

Lemma foodStep_other (w w' : World num) :
  food w' = food w -> nextFoodId w' = nextFoodId w -> foodStep w w'.
Proof.
  intros Hf Hn. unfold foodStep, foodIdsOk, issued. rewrite Hf, Hn.
  split; [lia|]. split; [tauto|]. intros f Hin. now left.
Qed.

#[local] Instance foodStep_PreOrder : PreOrder foodStep.
Proof.
  split.
  - intros w. now apply foodStep_other.
  - intros w1 w2 w3 (Hle1 & Hok1 & Hnew1) (Hle2 & Hok2 & Hnew2).
    split; [lia|]. split; [tauto|]. intros f Hin.
    destruct (Hnew2 f Hin) as [Hin2|Hfresh].
    + apply Hnew1, Hin2.
    + right. intros Hiss. apply Hfresh. eapply issued_mono; eassumption.
Qed.

Lemma foodStep_push (w : World num) (mk : string -> Food num) :
  (forall id, food_id (mk id) = id) ->
  foodStep w (set_food (food w ++ [mk (foodIdOf (nextFoodId w))])
                       (set_nextFoodId (N.succ (nextFoodId w)) w)).
Proof.
  intros Hmk.
  assert (~ issued w (foodIdOf (nextFoodId w))) as Hfresh.
  { intros (n & Hn & Heq). apply foodIdOf_inj in Heq. lia. }
  unfold foodStep, foodIdsOk. cbn [food nextFoodId set_food set_nextFoodId].
  split; [lia|]. split.
  - intros [Hnd Hiss]. split.
    + rewrite map_app. apply NoDup_app. split; [exact Hnd|]. split.
      * intros id Hin Hin'. cbn in Hin'. rewrite Hmk in Hin'.
        apply list_elem_of_singleton in Hin' as ->.
        apply list_elem_of_fmap in Hin as (f & Heq & Hf).
        apply Hfresh. rewrite Heq. apply Hiss, Hf.
      * cbn. apply NoDup_singleton.
    + intros f Hin. apply elem_of_app in Hin as [Hin|Hin].
      * eapply issued_mono; [|apply Hiss, Hin].
        cbn [nextFoodId set_food set_nextFoodId]. lia.
      * apply list_elem_of_singleton in Hin as ->. rewrite Hmk.
        exists (nextFoodId w). split; [|reflexivity].
        cbn [nextFoodId set_food set_nextFoodId]. lia.
  - intros f Hin. apply elem_of_app in Hin as [Hin|Hin]; [now left|].
    apply list_elem_of_singleton in Hin as ->. right. now rewrite Hmk.
Qed.

Lemma foodStep_delete (w : World num) j :
  foodStep w (set_food (delete j (food w)) w).
Proof.
  unfold foodStep, foodIdsOk. cbn [food nextFoodId set_food].
  split; [lia|]. split.
  - intros [Hnd Hiss]. split.
    + eapply sublist_NoDup; [exact Hnd|].
      apply (fmap_sublist food_id), sublist_delete.
    + intros f Hin. apply Hiss. eapply list_elem_of_delete_inv, Hin.
  - intros f Hin. left. eapply list_elem_of_delete_inv, Hin.
Qed.

#[local] Instance foodStep_FoodOnly : FoodOnly foodStep.
Proof.
  split.
  - exact foodStep_PreOrder.
  - split. apply foodStep_push.
  - split. apply foodStep_delete.
  - apply foodStep_other.
Qed.

Lemma handle_foodStep e : preserves foodStep (handle e).
Proof.
  destruct e; cbn [handle].
  - apply spawnFood_food; exact _.
  - apply addBot_food; exact _.
  - apply preserves_bind; [exact _|apply gameLoop_food; exact _|].
    intros _. apply preserves_ret. exact _.
  - apply onConnection_food; exact _.
  - apply onPlayerInput_food; exact _.
  - apply onRespawn_food; exact _.
  - apply onDisconnect_food; exact _.
  - apply onSetPlayerName_food; exact _.
  - apply fireTimer_food; exact _.
Qed.

Lemma later_foodStep w w' : later w w' -> foodStep w w'.
Proof.
  induction 1 as [w|w e w1 w' _ Hrun _ IH]; [reflexivity|].
  transitivity w1; [|exact IH]. eapply handle_foodStep, Hrun.
Qed.

Lemma reachable_foodIdsOk w : reachable w -> foodIdsOk w.
Proof.
  intros Hw. apply later_foodStep in Hw as (_ & Hok & _). apply Hok.
  split; [constructor|]. intros f Hin. cbn in Hin. now apply elem_of_nil in Hin.
Qed.

Lemma later_trans w1 w2 w3 : later w1 w2 -> later w2 w3 -> later w1 w3.
Proof.
  induction 1 as [w|w e w1 w' Hen Hrun _ IH]; [auto|].
  intros H3. eapply later_event; eauto.
Qed.

Lemma same_id_same_item (fs : list (Food num)) f g :
  NoDup (map food_id fs) -> f ∈ fs -> g ∈ fs -> food_id g = food_id f -> g = f.
Proof.
  induction fs as [|h fs IH]; intros Hnd Hf Hg Hid;
    [now apply elem_of_nil in Hf|].
  cbn in Hnd. apply NoDup_cons in Hnd as [Hh Hnd].
  apply elem_of_cons in Hf as [->|Hf], Hg as [->|Hg]; auto.
  - exfalso. apply Hh. rewrite <- Hid. apply list_elem_of_fmap. eauto.
  - exfalso. apply Hh. rewrite Hid. apply list_elem_of_fmap. eauto.
Qed.

(** C8: in every world the server can reach from its initial state, by any
    sequence of start-up statements, ticks, socket events and timer
    callbacks (so for every interleaving of [spawnFood] calls, death drops
    and consumption with its replacement), with the cap reached or not:
    - no two items of the food list carry the same id;
    - an item of any later world that carries the id of an item of this
      world is that very item;
    - once an item of this world has left the food list, no item of any
      later world carries its id. *)
Theorem food_ids_never_shared (w : World num) :
  reachable w ->
  NoDup (map food_id (food w))
  /\ (forall w' f g,
        later w w' -> f ∈ food w -> g ∈ food w' ->
        food_id g = food_id f -> g = f)
  /\ (forall w1 w2 f g,
        later w w1 -> later w1 w2 -> f ∈ food w -> f ∉ food w1 ->
        g ∈ food w2 -> food_id g <> food_id f).
Proof.
  intros Hw. pose proof (reachable_foodIdsOk w Hw) as [Hnd Hiss].
  assert (forall w' f g,
            later w w' -> f ∈ food w -> g ∈ food w' ->
            food_id g = food_id f -> g = f /\ g ∈ food w) as Hsame.
  { intros w' f g Hlater Hf Hg Hid.
    destruct (later_foodStep _ _ Hlater) as (_ & _ & Hnew).
    destruct (Hnew g Hg) as [Hold|Hfresh].
    - split; [|exact Hold]. now apply (same_id_same_item (food w)).
    - exfalso. apply Hfresh. rewrite Hid. now apply Hiss. }
  split; [exact Hnd|]. split.
  - intros w' f g Hlater Hf Hg Hid. now apply (Hsame w' f g).
  - intros w1 w2 f g Hl1 Hl2 Hf Hgone Hg Hid.
    destruct (later_foodStep _ _ Hl1) as (Hle & _ & _).
    destruct (later_foodStep _ _ Hl2) as (_ & _ & Hnew).
    destruct (Hnew g Hg) as [Hold|Hfresh].
    + destruct (Hsame w1 f g Hl1 Hf Hold Hid) as [-> _]. contradiction.
    + apply Hfresh. rewrite Hid. eapply issued_mono; [exact Hle|].
      now apply Hiss.
Qed.

End FoodIds.

(* ================================================================== *)
(** ** The type of spawned food *)

Section SpawnedTypes.
Context {num : Type} `{JsNumber num} `{RandomSource num}.

(** [Math.floor(r * FOOD_IMAGE_TYPES) + 1] for the draw [r]. *)
Definition foodTypeOfDraw (r : num) : num :=
  add (Math_floor (mul r FOOD_IMAGE_TYPES)) (of_Z 1).

(** Only the count of [Math.random()] calls differs. *)
Definition onlyRandom (w w' : World num) : Prop :=
  exists n, w' = set_randomCalls n w.

#[local] Instance onlyRandom_RandomTolerant : RandomTolerant onlyRandom.
Proof.
  split; [split|].
  - intros w. exists (randomCalls w). now destruct w.
  - intros w1 w2 w3 [n ->] [m ->]. now exists m.
  - intros w n. now exists n.
Qed.

(** One iteration of [spawnFood] appends one item, whose type is computed
    from one draw, and changes nothing else but the food counter and the
    count of draws. *)
Lemma spawnOneFood_spec (w w' : World num) :
  spawnOneFood w = Ok (tt, w') ->
  exists f n,
    food w' = food w ++ [f]
    /\ food_type f = foodTypeOfDraw (Math_random n)
    /\ food_id f = foodIdOf (nextFoodId w)
    /\ nextFoodId w' = N.succ (nextFoodId w)
    /\ players w' = players w
    /\ eatenFoodThisTick w' = eatenFoodThisTick w.
Proof.
  unfold spawnOneFood. unfold bind at 1.
  destruct (findClearSpot 15 w) as [[found w1]| |] eqn:E1; try discriminate.
  apply (findClearSpot_preserves onlyRandom) in E1 as [n1 ->].
  unfold bind at 1.
  destruct (match found with
            | Some p => ret p
            | None => getRandomSpawnPositionXY (mul FOOD_RADIUS (of_Z 2))
            end (set_randomCalls n1 w)) as [[spawnPos w2]| |] eqn:E2;
    try discriminate.
  assert (onlyRandom (set_randomCalls n1 w) w2) as [n2 ->].
  { destruct found.
    - injection E2 as _ <-. reflexivity.
    - now apply (getRandomSpawnPositionXY_preserves onlyRandom) in E2. }
  cbn. intros [= <-].
  eexists _, _. cbn. repeat split; reflexivity.
Qed.

Lemma spawnFood_spec count : forall (w w' : World num),
  spawnFood count w = Ok (tt, w') ->
  players w' = players w
  /\ eatenFoodThisTick w' = eatenFoodThisTick w
  /\ exists new,
       food w' = food w ++ new
       /\ forall f, f ∈ new -> exists n, food_type f = foodTypeOfDraw (Math_random n).
Proof.
  induction count as [|count IH]; intros w w'; cbn [spawnFood].
  - intros [= <-]. repeat split. exists []. split; [now rewrite app_nil_r|].
    intros f Hf. now apply elem_of_nil in Hf.
  - unfold bind at 1, get.
    destruct (MAX_FOOD <=? length (food w))%nat.
    + intros [= <-]. repeat split. exists []. split; [now rewrite app_nil_r|].
      intros f Hf. now apply elem_of_nil in Hf.
    + unfold bind at 1.
      destruct (spawnOneFood w) as [[[] w1]| |] eqn:E1; try discriminate.
      apply spawnOneFood_spec in E1 as (f1 & n1 & Hfood & Htype & _ & _ & Hp & He).
      intros Hrest. apply IH in Hrest as (Hp' & He' & new & Hfood' & Hnew).
      split; [congruence|]. split; [congruence|].
      exists (f1 :: new). split.
      * rewrite Hfood', Hfood, <- app_assoc. reflexivity.
      * intros f Hf. apply elem_of_cons in Hf as [->|Hf]; eauto.
Qed.

End SpawnedTypes.

Section SpawnedTypesExact.
Context {rs : RandomSource Q}.
Local Open Scope Q_scope.

(** For a draw in [0, 1) the type is one of 1, ..., 36: the integer [z] with
    [z - 1 <= 36 r < z]. *)
Lemma foodTypeOfDraw_range (r : Q) :
  0 <= r -> r < 1 ->
  exists z : Z,
    (1 <= z <= 36)%Z /\ foodTypeOfDraw r == inject_Z z
    /\ inject_Z (z - 1) <= r * 36 /\ r * 36 < inject_Z z.
Proof.
  intros Hr0 Hr1. exists (Qfloor (r * 36) + 1)%Z.
  pose proof (Qfloor_le (r * 36)) as Hlo.
  pose proof (Qlt_floor (r * 36)) as Hhi.
  assert (Qfloor (r * 36) < 36)%Z as Hup.
  { rewrite Zlt_Qlt. change (inject_Z 36) with 36. lra. }
  assert (0 < Qfloor (r * 36) + 1)%Z as Hdown.
  { rewrite Zlt_Qlt. change (inject_Z 0) with 0. lra. }
  split; [lia|]. split.
  - unfold foodTypeOfDraw.
    change (add (Math_floor (mul r FOOD_IMAGE_TYPES)) (of_Z 1))
      with (inject_Z (Qfloor (r * 36)) + inject_Z 1).
    now rewrite inject_Z_plus.
  - replace (Qfloor (r * 36) + 1 - 1)%Z with (Qfloor (r * 36)) by lia.
    split; assumption.
Qed.

(** Each of the 36 values is the type for the draws of one interval of
    length 1/36. *)
Lemma foodTypeOfDraw_interval (r : Q) (z : Z) :
  inject_Z (z - 1) <= r * 36 -> r * 36 < inject_Z z ->
  foodTypeOfDraw r == inject_Z z.
Proof.
  intros Hlo Hhi. pose proof (Qfloor_le (r * 36)) as Hlo'.
  pose proof (Qlt_floor (r * 36)) as Hhi'.
  assert (inject_Z (z - 1) < inject_Z (Qfloor (r * 36) + 1)) as H1 by lra.
  assert (inject_Z (Qfloor (r * 36)) < inject_Z z) as H2 by lra.
  rewrite <- Zlt_Qlt in H1, H2.
  unfold foodTypeOfDraw.
  change (add (Math_floor (mul r FOOD_IMAGE_TYPES)) (of_Z 1))
    with (inject_Z (Qfloor (r * 36)) + inject_Z 1).
  rewrite <- inject_Z_plus. f_equiv. lia.
Qed.

(** C2, as the code has it: when [Math.random()] returns values of [0, 1),
    every item that [spawnFood] adds to the food list has the type
    [Math.floor(r * 36) + 1] for one of the draws [r]: the integer [z] of
    1, ..., 36 with [z - 1 <= 36 r < z]; and every [z] is the type for the
    draws of its interval, the reserved values 7, 12 and 15 like the others. *)
Theorem spawnFood_type_is_any_of_1_to_36 (count : nat) (w w' : World Q) :
  (forall n, 0 <= Math_random n /\ Math_random n < 1) ->
  spawnFood count w = Ok (tt, w') ->
  (forall f, f ∈ food w' ->
     f ∈ food w
     \/ exists n z,
          food_type f = foodTypeOfDraw (Math_random n)
          /\ (1 <= z <= 36)%Z /\ food_type f == inject_Z z
          /\ inject_Z (z - 1) <= Math_random n * 36
          /\ Math_random n * 36 < inject_Z z)
  /\ (forall r z,
        inject_Z (z - 1) <= r * 36 -> r * 36 < inject_Z z ->
        foodTypeOfDraw r == inject_Z z).
Proof.
  intros Hrandom Hrun. split; [|apply foodTypeOfDraw_interval].
  apply spawnFood_spec in Hrun as (_ & _ & new & Hfood & Hnew).
  intros f Hf. rewrite Hfood in Hf. apply elem_of_app in Hf as [Hf|Hf];
    [now left|right].
  destruct (Hnew f Hf) as [n Htype]. destruct (Hrandom n) as [Hr0 Hr1].
  destruct (foodTypeOfDraw_range _ Hr0 Hr1) as (z & Hz & Heq & Hlo & Hhi).
  exists n, z. rewrite Htype. auto.
Qed.

End SpawnedTypesExact.

(* ================================================================== *)
(** ** Spawning, run on examples *)

Section SpawnExamples.
Local Open Scope Q_scope.

(** The world after [spawnFood(1)] in the empty world when every draw is
    0.4. *)
Definition oneFoodWorld : World Q :=
  match spawnFood (H1:=constantRandom (2 # 5)) 1 emptyWorld with
  | Ok (_, w) => w
  | _ => emptyWorld
  end.

(** The same on doubles. *)
Definition oneFoodWorldF64 : World f64 :=
  match spawnFood (H1:=constantRandom (div (of_Z 4) (of_Z 10))) 1 emptyWorld with
  | Ok (_, w) => w
  | _ => emptyWorld
  end.

(** C2, refuted as stated: with the draw 0.4 the one item that [spawnFood]
    creates has the type [Math.floor(0.4 * 36) + 1 = 15], the reserved value
    [FOOD_TYPE_POWER]; in exact arithmetic and on doubles. *)
Lemma spawnFood_creates_reserved_type :
  map food_id (food oneFoodWorld) = ["food-0"%string]
  /\ map (fun f => eqb (food_type f) FOOD_TYPE_POWER) (food oneFoodWorld) = [true]
  /\ map (fun f => isSpecialFoodType (food_type f)) (food oneFoodWorld) = [true]
  /\ map food_id (food oneFoodWorldF64) = ["food-0"%string]
  /\ map (fun f => eqb (food_type f) FOOD_TYPE_POWER) (food oneFoodWorldF64) = [true]
  /\ map (fun f => isSpecialFoodType (food_type f)) (food oneFoodWorldF64) = [true].
Proof. repeat split; vm_compute; reflexivity. Qed.

Lemma spawnFood_type_is_any_of_1_to_36_witness :
  (forall n : nat, 0 <= 2 # 5 /\ 2 # 5 < 1)
  /\ spawnFood (H1:=constantRandom (2 # 5)) 1 emptyWorld = Ok (tt, oneFoodWorld)
  /\ (forall f, f ∈ food oneFoodWorld ->
        f ∈ food (emptyWorld (num:=Q))
        \/ exists (n : nat) (z : Z),
             food_type f = foodTypeOfDraw (2 # 5)
             /\ (1 <= z <= 36)%Z /\ food_type f == inject_Z z
             /\ inject_Z (z - 1) <= (2 # 5) * 36
             /\ (2 # 5) * 36 < inject_Z z)
  /\ (forall r z,
        inject_Z (z - 1) <= r * 36 -> r * 36 < inject_Z z ->
        foodTypeOfDraw r == inject_Z z).
Proof.
  assert (forall n : nat, 0 <= 2 # 5 /\ 2 # 5 < 1) as Hrandom
    by (intros _; split; [discriminate|reflexivity]).
  assert (spawnFood (H1:=constantRandom (2 # 5)) 1 emptyWorld
          = Ok (tt, oneFoodWorld)) as Hrun by (vm_compute; reflexivity).
  split; [exact Hrandom|]. split; [exact Hrun|].
  exact (spawnFood_type_is_any_of_1_to_36 (rs:=constantRandom (2 # 5))
           1 emptyWorld oneFoodWorld Hrandom Hrun).
Defined.

(** The world after the first statement of the start-up code,
    [spawnFood(MAX_FOOD / 2)], on doubles and with the sample draws. *)
Definition fedWorld : World f64 :=
  match spawnFood (H1:=sampleRandom) (MAX_FOOD / 2) emptyWorld with
  | Ok (_, w) => w
  | _ => emptyWorld
  end.

Lemma fedWorld_reachable :
  reachable (H0:=sampleTrig) (H1:=sampleRandom) fedWorld.
Proof.
  apply (later_event (H0:=sampleTrig) (H1:=sampleRandom)
           emptyWorld StartFood fedWorld fedWorld); [exact I| |apply later_now].
  vm_compute. reflexivity.
Defined.

Lemma food_ids_never_shared_witness :
  reachable (H0:=sampleTrig) (H1:=sampleRandom) fedWorld
  /\ length (food fedWorld) = 25%nat
  /\ NoDup (map food_id (food fedWorld))
  /\ (forall w' f g,
        later (H0:=sampleTrig) (H1:=sampleRandom) fedWorld w' ->
        f ∈ food fedWorld -> g ∈ food w' ->
        food_id g = food_id f -> g = f)
  /\ (forall w1 w2 f g,
        later (H0:=sampleTrig) (H1:=sampleRandom) fedWorld w1 ->
        later (H0:=sampleTrig) (H1:=sampleRandom) w1 w2 ->
        f ∈ food fedWorld -> f ∉ food w1 ->
        g ∈ food w2 -> food_id g <> food_id f).
Proof.
  split; [exact fedWorld_reachable|]. split; [vm_compute; reflexivity|].
  exact (food_ids_never_shared (H0:=sampleTrig) (H1:=sampleRandom) fedWorld
           fedWorld_reachable).
Defined.

End SpawnExamples.

(* ================================================================== *)
(** ** The food scan of one worm *)

Section FoodScan.
Context {num : Type} `{JsNumber num} `{RandomSource num}.
Implicit Types (ps : list (string * Player num)) (g : Worm num -> Worm num).

(** [updateWormOf] on the registry alone. *)
Definition updatePlayers (key : string) g ps : list (string * Player num) :=
  match lookupPlayer key ps with
  | Some p =>
      match worm p with
      | Some o => storePlayer key (set_worm (Some (g o)) p) ps
      | None => ps
      end
  | None => ps
  end.

(** The worm registered under [key]. *)
Definition wormOf (key : string) (w : World num) : option (Worm num) :=
  match lookupPlayer key (players w) with
  | Some p => worm p
  | None => None
  end.

(** A write to a worm that leaves its segments and its liveness alone. *)
Definition benign g : Prop :=
  forall o, segments (g o) = segments o /\ isAlive (g o) = isAlive o.

(** The item switches the magnet on: its type is the magnet's, and not the
    speed boost's, which is tested first. *)
Definition switchesMagnetOn (t : num) : bool :=
  negb (eqb t FOOD_TYPE_POWER) && eqb t FOOD_TYPE_MAGNET.

Lemma updateWormOf_eq key g (w : World num) :
  updateWormOf key g w = set_players (updatePlayers key g (players w)) w.
Proof.
  unfold updateWormOf, updatePlayers.
  destruct (lookupPlayer key (players w)) as [p|]; [|now destruct w].
  destruct (worm p); [reflexivity|now destruct w].
Qed.

Lemma players_updateWormOf key g (w : World num) :
  players (updateWormOf key g w) = updatePlayers key g (players w).
Proof.
  unfold updateWormOf, updatePlayers.
  destruct (lookupPlayer key (players w)) as [p|]; [|reflexivity].
  now destruct (worm p).
Qed.

Lemma storePlayer_again key (p1 p2 : Player num) ps :
  storePlayer key p2 (storePlayer key p1 ps) = storePlayer key p2 ps.
Proof.
  induction ps as [|[k q] ps IH]; simpl.
  - now rewrite String.eqb_refl.
  - destruct (String.eqb k key) eqn:E; simpl; rewrite E; [reflexivity|].
    now rewrite IH.
Qed.

Lemma storePlayer_same key (p : Player num) ps :
  lookupPlayer key ps = Some p -> storePlayer key p ps = ps.
Proof.
  induction ps as [|[k q] ps IH]; simpl; [discriminate|].
  destruct (String.eqb k key) eqn:E.
  - now intros [= ->].
  - intros Hp. now rewrite IH.
Qed.

Lemma updatePlayers_compose key g1 g2 ps :
  updatePlayers key g2 (updatePlayers key g1 ps)
  = updatePlayers key (fun o => g2 (g1 o)) ps.
Proof.
  unfold updatePlayers.
  destruct (lookupPlayer key ps) as [p|] eqn:Hp; [|now rewrite Hp].
  destruct (worm p) as [o|] eqn:Ho; [|now rewrite Hp, Ho].
  rewrite lookupPlayer_storePlayer_eq. cbn [worm set_worm].
  apply storePlayer_again.
Qed.

Lemma updatePlayers_id key ps : updatePlayers key (fun o => o) ps = ps.
Proof.
  unfold updatePlayers.
  destruct (lookupPlayer key ps) as [p|] eqn:Hp; [|reflexivity].
  destruct (worm p) as [o|] eqn:Ho; [|reflexivity].
  apply storePlayer_same. rewrite Hp. f_equal. destruct p. cbn in *. now subst.
Qed.

Lemma lookupPlayer_updatePlayers key g ps :
  lookupPlayer key (updatePlayers key g ps)
  = match lookupPlayer key ps with
    | Some p =>
        Some (match worm p with
              | Some o => set_worm (Some (g o)) p
              | None => p
              end)
    | None => None
    end.
Proof.
  unfold updatePlayers.
  destruct (lookupPlayer key ps) as [p|] eqn:Hp; [|now rewrite Hp].
  destruct (worm p) as [o|] eqn:Ho; [|now rewrite Hp].
  apply lookupPlayer_storePlayer_eq.
Qed.

Lemma updateBotState_spec key fn (w w' : World num) :
  updateBotState key fn w = Ok (tt, w') ->
  exists v, w' = updateWormOf key (set_botState v) w.
Proof.
  unfold updateBotState, bind, getWorm, bind, getPlayer.
  destruct (lookupPlayer key (players w)) as [p|]; [|discriminate].
  destruct (worm p) as [o|]; [|discriminate]. cbn.
  destruct (botState o) as [b|]; [|discriminate].
  intros [= <-]. eauto.
Qed.

(** What eating one item does: one entry in [eatenFoodThisTick], food
    appended by [spawnFood(1)], and writes to the eater's worm that leave
    its segments and liveness alone, and its magnet too unless the item
    switches it on. *)
Lemma eatFood_spec now key f (w w' : World num) :
  eatFood now key f w = Ok (tt, w') ->
  exists player g spawned,
    lookupPlayer key (players w) = Some player
    /\ players w' = updatePlayers key g (players w)
    /\ benign g
    /\ (forall o, isMagnetActive (g o)
                  = if switchesMagnetOn (food_type f) then true
                    else isMagnetActive o)
    /\ eatenFoodThisTick w'
       = eatenFoodThisTick w
           ++ [mkEaten (food_id f) (player_id player) (food_type f)]
    /\ food w' = food w ++ spawned.
Proof.
  intros Hrun. unfold eatFood in Hrun. unfold bind at 1, getPlayer in Hrun.
  destruct (lookupPlayer key (players w)) as [player|] eqn:Hp; [|discriminate].
  unfold bind at 1, modify at 1 in Hrun.
  unfold bind at 1, modify at 1 in Hrun.
  unfold bind at 1 in Hrun.
  lazymatch type of Hrun with
  | match ?X with _ => _ end = _ => destruct X as [[[] w3]| |] eqn:Hspawn
  end; try discriminate.
  apply spawnFood_spec in Hspawn as (Hp3 & He3 & spawned & Hf3 & _).
  rewrite updateWormOf_eq in Hp3, He3, Hf3. cbn in Hp3, He3, Hf3.
  unfold bind at 1 in Hrun.
  lazymatch type of Hrun with
  | match ?X with _ => _ end = _ => destruct X as [[[] w4]| |] eqn:Hpow
  end; try discriminate.
  assert (exists g4,
            players w4 = updatePlayers key g4 (players w3)
            /\ benign g4
            /\ (forall o, isMagnetActive (g4 o)
                  = if switchesMagnetOn (food_type f) then true
                    else isMagnetActive o)
            /\ eatenFoodThisTick w4 = eatenFoodThisTick w3
            /\ food w4 = food w3) as (g4 & Hp4 & Hb4 & Hm4 & He4 & Hf4).
  { unfold switchesMagnetOn.
    destruct (eqb (food_type f) FOOD_TYPE_POWER).
    - injection Hpow as <-. eexists. rewrite updateWormOf_eq. cbn.
      split; [reflexivity|]. repeat split.
    - destruct (eqb (food_type f) FOOD_TYPE_MAGNET).
      + injection Hpow as <-. eexists. cbn. rewrite updateWormOf_eq. cbn.
        split; [reflexivity|]. repeat split.
      + injection Hpow as <-. exists (fun o => o).
        rewrite updatePlayers_id. repeat split. }
  assert (exists g5,
            players w' = updatePlayers key g5 (players w4)
            /\ benign g5
            /\ (forall o, isMagnetActive (g5 o) = isMagnetActive o)
            /\ eatenFoodThisTick w' = eatenFoodThisTick w4
            /\ food w' = food w4) as (g5 & Hp5 & Hb5 & Hm5 & He5 & Hf5).
  { assert (w' = w4 \/ exists v, w' = updateWormOf key (set_botState v) w4)
      as [->|[v ->]].
    { destruct (isBot player); [|left; now injection Hrun as <-].
      unfold bind at 1 in Hrun.
      destruct (getWorm key w4) as [[o w4']| |] eqn:Ho; try discriminate.
      assert (w4' = w4) as -> by (revert Ho; unfold getWorm, bind, getPlayer;
        destruct (lookupPlayer key (players w4)) as [p|]; [|discriminate];
        destruct (worm p); [|discriminate]; now intros [= _ <-]).
      destruct (botState o) as [b|]; [|discriminate].
      destruct (match targetFoodId b with
                | Some t => String.eqb t (food_id f)
                | None => false
                end).
      - right. now apply updateBotState_spec in Hrun.
      - left. now injection Hrun as <-. }
    - exists (fun o => o). rewrite updatePlayers_id. repeat split.
    - eexists. rewrite updateWormOf_eq. cbn. split; [reflexivity|].
      repeat split. }
  exists player, (fun o => g5 (g4 (set_score (score o + FOOD_SCORE)%Z o))), spawned.
  split; [reflexivity|]. split.
  { rewrite Hp5, Hp4, Hp3, !updatePlayers_compose. reflexivity. }
  split.
  { intros o. destruct (Hb5 (g4 (set_score (score o + FOOD_SCORE)%Z o))) as [-> ->].
    destruct (Hb4 (set_score (score o + FOOD_SCORE)%Z o)) as [-> ->]. now split. }
  split.
  { intros o. rewrite Hm5, Hm4. reflexivity. }
  split; [congruence|congruence].
Qed.


Lemma getWorm_spec key (w w' : World num) o :
  getWorm key w = Ok (o, w') -> w' = w /\ wormOf key w = Some o.
Proof.
  unfold getWorm, bind, getPlayer, wormOf.
  destruct (lookupPlayer key (players w)) as [p|]; [|discriminate].
  destruct (worm p); [|discriminate]. cbn. now intros [= <- <-].
Qed.

Lemma wormOf_updatePlayers key g (w w' : World num) :
  players w' = updatePlayers key g (players w) ->
  wormOf key w' = option_map g (wormOf key w).
Proof.
  intros Hp. unfold wormOf. rewrite Hp, lookupPlayer_updatePlayers.
  destruct (lookupPlayer key (players w)) as [p|]; [|reflexivity].
  destruct (worm p) eqn:E; cbn; [reflexivity|exact E].
Qed.

(** The entries that a scan adds: the flag that comes out. *)
Definition ateAfter (ate : bool) (es : list (Eaten num)) : bool :=
  match es with
  | [] => ate
  | _ :: _ => true
  end.

(** The eater recorded in [e] is the player registered under [key]. *)
Definition eatenBy (key : string) (w : World num) (e : Eaten num) : Prop :=
  exists player,
    lookupPlayer key (players w) = Some player /\ eaterId e = player_id player.

(** The scan from index [jPlus1 - 1] down to 0, for the worm under [key]:
    - the writes to that worm leave its segments and liveness alone;
    - the entries [es] are appended to [eatenFoodThisTick], all of them
      for this eater, and the flag is set when there is one;
    - of the first [jPlus1] items, [kept] stay, in order; the others, as
      many as there are entries, are removed; the items from [jPlus1] on are
      not touched, and what [spawnFood] creates goes to the end;
    - a worm whose magnet is off removes at most one item, unless the first
      item it eats switches the magnet on. *)
Lemma scanFood_spec now key head : forall jPlus1 ate (w : World num) ate' w',
  scanFood now key head jPlus1 ate w = Ok (ate', w') ->
  exists g es kept spawned,
    players w' = updatePlayers key g (players w)
    /\ benign g
    /\ eatenFoodThisTick w' = eatenFoodThisTick w ++ es
    /\ Forall (eatenBy key w) es
    /\ ate' = ateAfter ate es
    /\ food w' = kept ++ drop jPlus1 (food w) ++ spawned
    /\ kept `sublist_of` take jPlus1 (food w)
    /\ length kept + length es = jPlus1
    /\ ((forall o, wormOf key w = Some o -> isMagnetActive o = false) ->
        length es <= 1
        \/ exists e rest,
             es = e :: rest /\ switchesMagnetOn (eaten_type e) = true).
Proof.
  induction jPlus1 as [|j IH]; intros ate w ate' w'; cbn [scanFood].
  { intros [= <- <-]. exists (fun o => o), [], [], [].
    rewrite updatePlayers_id, drop_0, !app_nil_r. repeat split; auto. }
  unfold bind at 1, get.
  destruct (food w !! j) as [f|] eqn:Hf; [|discriminate].
  pose proof (lookup_lt_Some _ _ _ Hf) as Hj.
  unfold bind at 1.
  destruct (getWorm key w) as [[o w0]| |] eqn:Ho; try discriminate.
  apply getWorm_spec in Ho as [-> Ho].
  destruct (distSqBelow _ _ _ _ _).
  - (* the item is eaten *)
    unfold bind at 1, modify at 1. unfold bind at 1.
    destruct (eatFood now key f _) as [[[] w2]| |] eqn:Heat; try discriminate.
    apply eatFood_spec in Heat
      as (player & g1 & spawned1 & Hp & Hp2 & Hb1 & Hm1 & He2 & Hf2).
    cbn [players eatenFoodThisTick food set_food] in Hp, Hp2, He2, Hf2.
    unfold bind at 1.
    destruct (getWorm key w2) as [[o' w0]| |] eqn:Ho'; try discriminate.
    apply getWorm_spec in Ho' as [-> Ho'].
    rewrite (wormOf_updatePlayers key g1 w w2 Hp2), Ho in Ho'.
    injection Ho' as <-.
    assert (eatenBy key w (mkEaten (food_id f) (player_id player) (food_type f)))
      as Hby by (exists player; split; [exact Hp|reflexivity]).
    assert (length (take j (food w)) = j) as Hlen
      by (rewrite length_take; lia).
    destruct (negb (isMagnetActive (g1 o))) eqn:Hmag.
    + intros [= <- <-].
      exists g1, [mkEaten (food_id f) (player_id player) (food_type f)],
        (take j (food w)), spawned1.
      split; [exact Hp2|]. split; [exact Hb1|]. split; [exact He2|].
      split; [now constructor|]. split; [reflexivity|].
      split; [now rewrite Hf2, delete_take_drop, <- app_assoc|].
      split.
      { rewrite (take_S_r _ _ _ Hf). now apply sublist_inserts_r. }
      split; [cbn; lia|]. intros _. left. cbn. lia.
    + intros Hrest. apply IH in Hrest
        as (g2 & es2 & kept2 & spawned2 & Hp' & Hb2 & He' & Hby2 & Hate & Hf'
            & Hsub & Hcount & _).
      exists (fun o => g2 (g1 o)),
        (mkEaten (food_id f) (player_id player) (food_type f) :: es2),
        kept2, (spawned1 ++ spawned2).
      split; [now rewrite Hp', Hp2, updatePlayers_compose|].
      split.
      { intros o0. destruct (Hb2 (g1 o0)) as [-> ->]. apply Hb1. }
      split; [now rewrite He', He2, <- app_assoc|].
      split.
      { constructor; [exact Hby|]. eapply Forall_impl; [exact Hby2|].
        intros e (player2 & Hp2' & He). rewrite Hp2, lookupPlayer_updatePlayers, Hp in Hp2'.
        injection Hp2' as <-. exists player. split; [exact Hp|].
        rewrite He. now destruct (worm player). }
      split; [rewrite Hate; now destruct es2|].
      rewrite Hf2, delete_take_drop in Hf', Hsub.
      rewrite <- app_assoc in Hf', Hsub.
      rewrite (drop_app_length' _ _ _ (eq_sym Hlen)) in Hf'.
      rewrite (take_app_length' _ _ _ (eq_sym Hlen)) in Hsub.
      split; [now rewrite Hf', <- !app_assoc|].
      split.
      { rewrite (take_S_r _ _ _ Hf). now apply sublist_inserts_r. }
      split; [cbn; lia|].
      intros Hoff. right. eexists _, _. split; [reflexivity|]. cbn.
      specialize (Hm1 o). rewrite (Hoff o Ho) in Hm1.
      destruct (switchesMagnetOn (food_type f)); [reflexivity|].
      rewrite Hm1 in Hmag. discriminate.
  - (* the item stays *)
    intros Hrest. apply IH in Hrest
      as (g & es & kept & spawned & Hp' & Hb & He' & Hby & Hate & Hf'
          & Hsub & Hcount & Hmagnet).
    exists g, es, (kept ++ [f]), spawned.
    split; [exact Hp'|]. split; [exact Hb|]. split; [exact He'|].
    split; [exact Hby|]. split; [exact Hate|].
    split.
    { rewrite Hf', (drop_S _ _ _ Hf), <- !app_assoc. reflexivity. }
    split.
    { rewrite (take_S_r _ _ _ Hf). now apply sublist_app. }
    split; [rewrite length_app; cbn; lia|exact Hmagnet].
Qed.


(** The body of the food loop for the worm under [key]: the scan over the
    whole food list, then the trim of the tail. *)
Lemma foodCollision_spec now key (w w' : World num) :
  foodCollision now key w = Ok (tt, w') ->
  exists o g es kept spawned,
    wormOf key w = Some o
    /\ players w' = updatePlayers key g (players w)
    /\ isAlive (g o) = isAlive o
    /\ segments (g o)
       = (if negb (ateAfter false es)
             && (WORM_INITIAL_LENGTH <? length (segments o))%nat
          then removelast (segments o)
          else segments o)
    /\ eatenFoodThisTick w' = eatenFoodThisTick w ++ es
    /\ Forall (eatenBy key w) es
    /\ food w' = kept ++ spawned
    /\ kept `sublist_of` food w
    /\ length kept + length es = length (food w)
    /\ (isMagnetActive o = false ->
        length es <= 1
        \/ exists e rest,
             es = e :: rest /\ switchesMagnetOn (eaten_type e) = true).
Proof.
  unfold foodCollision. unfold bind at 1.
  destruct (getWorm key w) as [[o w0]| |] eqn:Ho; try discriminate.
  apply getWorm_spec in Ho as [-> Ho].
  destruct (segments o) as [|head rest] eqn:Hsegs.
  { intros [= <-]. exists o, (fun o => o), [], (food w), [].
    rewrite updatePlayers_id, !app_nil_r, Hsegs. cbn.
    repeat split; auto; lia. }
  unfold bind at 1, get. unfold bind at 1.
  destruct (scanFood now key head (length (food w)) false w)
    as [[ate w1]| |] eqn:Hscan; try discriminate.
  apply scanFood_spec in Hscan
    as (g & es & kept & spawned & Hp1 & Hb & He & Hby & -> & Hf & Hsub
        & Hcount & Hmagnet).
  rewrite drop_all in Hf. rewrite take_ge in Hsub by lia. cbn [app] in Hf.
  unfold bind at 1.
  destruct (getWorm key w1) as [[o1 w0]| |] eqn:Ho1; try discriminate.
  apply getWorm_spec in Ho1 as [-> Ho1].
  rewrite (wormOf_updatePlayers key g w w1 Hp1), Ho in Ho1.
  injection Ho1 as <-. destruct (Hb o) as [Hsegs1 Halive1].
  rewrite Hsegs1, Hsegs.
  destruct (negb (ateAfter false es)
            && (WORM_INITIAL_LENGTH <? length (head :: rest))%nat) eqn:Htrim.
  - intros [= <-].
    exists o, (fun o0 => set_segments (removelast (segments (g o0))) (g o0)),
      es, kept, spawned.
    rewrite updateWormOf_eq. cbn [players eatenFoodThisTick food set_players].
    split; [exact Ho|].
    split; [now rewrite Hp1, updatePlayers_compose|].
    split; [exact Halive1|].
    split; [cbn [segments set_segments]; now rewrite Hsegs1, Hsegs, Htrim|].
    repeat split; auto. intros Hoff. apply Hmagnet.
    intros o0 Ho0. rewrite Ho in Ho0. now injection Ho0 as <-.
  - intros [= <-]. exists o, g, es, kept, spawned.
    split; [exact Ho|]. split; [exact Hp1|]. split; [exact Halive1|].
    split; [now rewrite Hsegs1, Hsegs, Htrim|].
    repeat split; auto. intros Hoff. apply Hmagnet.
    intros o0 Ho0. rewrite Ho in Ho0. now injection Ho0 as <-.
Qed.

(** C6, as the code has it: in the food pass of one worm whose magnet is not
    active, the entries [es] it adds to [eatenFoodThisTick] are as many as
    the items it removes from the food list (the other items are kept, in
    order, and the replacements are appended), and there is at most one of
    them, unless the first item eaten is of the magnet type (and not of the
    speed-boost type, tested first): that item switches the magnet on at
    once, and the scan goes on. *)
Theorem nonmagnet_worm_eats_at_most_one_unless_magnet
  now key (w w' : World num) o :
  wormOf key w = Some o -> isMagnetActive o = false ->
  foodCollision now key w = Ok (tt, w') ->
  exists es kept spawned,
    eatenFoodThisTick w' = eatenFoodThisTick w ++ es
    /\ Forall (eatenBy key w) es
    /\ food w' = kept ++ spawned
    /\ kept `sublist_of` food w
    /\ length kept + length es = length (food w)
    /\ (length es <= 1
        \/ exists e rest,
             es = e :: rest /\ switchesMagnetOn (eaten_type e) = true).
Proof.
  intros Ho Hoff Hrun. apply foodCollision_spec in Hrun
    as (o0 & g & es & kept & spawned & Ho0 & _ & _ & _ & He & Hby & Hf & Hsub
        & Hcount & Hmagnet).
  rewrite Ho in Ho0. injection Ho0 as <-.
  exists es, kept, spawned. repeat split; auto.
Qed.

End FoodScan.

(* ================================================================== *)
(** ** The food scan, run on an example *)

Section FoodScanExample.

(** The world after the food pass of ["s1"] in [twoFoodWorld], on doubles. *)
Definition afterTwoFoods : World f64 :=
  match foodCollision (H1:=sampleRandom) 0 "s1" twoFoodWorld with
  | Ok (_, w) => w
  | _ => twoFoodWorld
  end.

(** C6, refuted as stated: the magnet of ["s1"] is not active when
    [checkCollisions] starts; the scan reaches the magnet item first, eats
    it, which turns the magnet on, goes on, and eats the ordinary item 60
    away as well: two items are removed for this one worm. *)
Lemma nonmagnet_worm_eats_two_items :
  option_map isMagnetActive (wormOf "s1" (twoFoodWorld (num:=f64))) = Some false
  /\ match checkCollisions (H1:=sampleRandom) 10 0 twoFoodWorld with
     | Ok (_, w') =>
         map (fun e => (eaten_id e, eaterId e)) (eatenFoodThisTick w')
         = [("food-1", "s1"); ("food-0", "s1")]%string
         /\ map food_id (food w') = ["food-2"; "food-3"]%string
     | _ => False
     end.
Proof. split; vm_compute; [reflexivity|split; reflexivity]. Qed.

Lemma nonmagnet_worm_eats_at_most_one_unless_magnet_witness :
  wormOf "s1" (twoFoodWorld (num:=f64)) = Some (straightWorm (F64_of_Z 0))
  /\ isMagnetActive (straightWorm (F64_of_Z 0)) = false
  /\ foodCollision (H1:=sampleRandom) 0 "s1" twoFoodWorld = Ok (tt, afterTwoFoods)
  /\ exists es kept spawned,
       eatenFoodThisTick afterTwoFoods = [] ++ es
       /\ Forall (eatenBy "s1" twoFoodWorld) es
       /\ food afterTwoFoods = kept ++ spawned
       /\ kept `sublist_of` food (twoFoodWorld (num:=f64))
       /\ length kept + length es = 2
       /\ (length es <= 1
           \/ exists e rest,
                es = e :: rest /\ switchesMagnetOn (eaten_type e) = true).
Proof.
  assert (foodCollision (H1:=sampleRandom) 0 "s1" twoFoodWorld
          = Ok (tt, afterTwoFoods)) as Hrun by (vm_compute; reflexivity).
  split; [reflexivity|]. split; [reflexivity|]. split; [exact Hrun|].
  exact (nonmagnet_worm_eats_at_most_one_unless_magnet (H0:=sampleRandom)
           0 "s1" twoFoodWorld afterTwoFoods (straightWorm (F64_of_Z 0))
           eq_refl eq_refl Hrun).
Defined.

End FoodScanExample.

(* ================================================================== *)
(** ** The growth of one worm in a tick *)

Section Growth.
Context {num : Type} `{JsNumber num} `{Trig num} `{RandomSource num}.
Implicit Types (ps : list (string * Player num)) (g : Worm num -> Worm num).

(** The registry as a JavaScript object has it: every key once, and under
    each key the player whose [id] is that key. *)
Definition registryOk ps : Prop :=
  NoDup (map fst ps) /\ Forall (fun kp => player_id (snd kp) = fst kp) ps.

(** The entries of [eatenFoodThisTick] whose eater is [key]. *)
Definition eatenOf (key : string) (w : World num) : list (Eaten num) :=
  List.filter (fun e => String.eqb (eaterId e) key) (eatenFoodThisTick w).

Lemma lookupPlayer_In key ps p :
  lookupPlayer key ps = Some p -> (key, p) ∈ ps.
Proof.
  induction ps as [|[k q] ps IH]; simpl; [discriminate|].
  destruct (String.eqb_spec k key) as [->|Hne].
  - intros [= ->]. left.
  - intros Hp. right. now apply IH.
Qed.

Lemma In_lookupPlayer key ps p :
  NoDup (map fst ps) -> (key, p) ∈ ps -> lookupPlayer key ps = Some p.
Proof.
  induction ps as [|[k q] ps IH]; simpl; intros Hnd Hin;
    [now apply elem_of_nil in Hin|].
  apply NoDup_cons in Hnd as [Hk Hnd].
  apply elem_of_cons in Hin as [[= -> ->]|Hin].
  - now rewrite String.eqb_refl.
  - destruct (String.eqb_spec k key) as [->|Hne]; [|now apply IH].
    exfalso. apply Hk. apply list_elem_of_fmap. now exists (key, p).
Qed.

Lemma registryOk_id ps key p :
  registryOk ps -> lookupPlayer key ps = Some p -> player_id p = key.
Proof.
  intros [_ Hids] Hp. apply lookupPlayer_In in Hp.
  rewrite Forall_forall in Hids. exact (Hids _ Hp).
Qed.

Lemma storePlayer_shape key (p q : Player num) ps :
  lookupPlayer key ps = Some q ->
  map fst (storePlayer key p ps) = map fst ps
  /\ (player_id p = key ->
      Forall (fun kp => player_id (snd kp) = fst kp) ps ->
      Forall (fun kp => player_id (snd kp) = fst kp) (storePlayer key p ps)).
Proof.
  induction ps as [|[k r] ps IH]; simpl; [discriminate|].
  destruct (String.eqb_spec k key) as [->|Hne].
  - intros _. split; [reflexivity|]. intros Hid Hall.
    apply Forall_cons in Hall as [_ Hall]. now constructor.
  - intros Hq. destruct (IH Hq) as [Hkeys Hids]. split; [cbn; now f_equal|].
    intros Hid Hall. apply Forall_cons in Hall as [Hr Hall].
    constructor; auto.
Qed.

Lemma registryOk_updatePlayers key g ps :
  registryOk ps -> registryOk (updatePlayers key g ps).
Proof.
  intros [Hnd Hids]. unfold updatePlayers.
  destruct (lookupPlayer key ps) as [p|] eqn:Hp; [|now split].
  destruct (worm p) as [o|]; [|now split].
  destruct (storePlayer_shape key (set_worm (Some (g o)) p) p ps Hp)
    as [Hkeys Hall].
  split; [now rewrite Hkeys|]. apply Hall; [|exact Hids].
  cbn. exact (registryOk_id ps key p (conj Hnd Hids) Hp).
Qed.

Lemma lookupPlayer_updatePlayers_ne key key' g ps :
  key <> key' ->
  lookupPlayer key (updatePlayers key' g ps) = lookupPlayer key ps.
Proof.
  intros Hne. unfold updatePlayers.
  destruct (lookupPlayer key' ps) as [p|]; [|reflexivity].
  destruct (worm p); [|reflexivity]. now apply lookupPlayer_storePlayer_ne.
Qed.

(** What the passes of the other worms leave alone: the worm under [key]
    and the entries of which it is the eater; the registry stays well formed.
    Stated for well-formed registries. *)
Definition frameOf (key : string) (w w' : World num) : Prop :=
  registryOk (players w) ->
  registryOk (players w')
  /\ wormOf key w' = wormOf key w
  /\ eatenOf key w' = eatenOf key w.

(** What the collision pass leaves alone in every worm: the segments of the
    worm under [key] and [eatenFoodThisTick]. *)
Definition segmentsKept (key : string) (w w' : World num) : Prop :=
  option_map segments (wormOf key w') = option_map segments (wormOf key w)
  /\ eatenFoodThisTick w' = eatenFoodThisTick w.

Lemma frameOf_other key (w w' : World num) :
  players w' = players w -> eatenFoodThisTick w' = eatenFoodThisTick w ->
  frameOf key w w'.
Proof.
  intros Hp He Hok. unfold wormOf, eatenOf. rewrite Hp, He. auto.
Qed.

Lemma frameOf_update key key' g (w : World num) :
  key' <> key -> frameOf key w (updateWormOf key' g w).
Proof.
  intros Hne Hok. rewrite updateWormOf_eq. unfold wormOf, eatenOf.
  cbn [players eatenFoodThisTick set_players].
  split; [now apply registryOk_updatePlayers|]. split; [|reflexivity].
  rewrite lookupPlayer_updatePlayers_ne; auto.
Qed.

#[local] Instance frameOf_PreOrder key : PreOrder (frameOf key).
Proof.
  split.
  - intros w Hok. auto.
  - intros w1 w2 w3 H12 H23 Hok. destruct (H12 Hok) as (Hok2 & Hw2 & He2).
    destruct (H23 Hok2) as (Hok3 & Hw3 & He3).
    split; [exact Hok3|]. split; congruence.
Qed.

#[local] Instance frameOf_random key : RandomTolerant (frameOf key).
Proof. split; [exact _|]. intros. now apply frameOf_other. Qed.

#[local] Instance frameOf_food key : TolFood (frameOf key).
Proof. split. intros. now apply frameOf_other. Qed.

#[local] Instance frameOf_delete key : TolDelete (frameOf key).
Proof. split. intros. now apply frameOf_other. Qed.

#[local] Instance frameOf_eaten key : TolEaten (frameOf key) (fun k => k <> key).
Proof.
  split. intros w k p e Hp He Hne Hok.
  split; [exact Hok|]. split; [reflexivity|].
  unfold eatenOf. cbn [eatenFoodThisTick set_eatenFoodThisTick].
  rewrite List.filter_app. cbn [List.filter].
  rewrite He, (registryOk_id _ _ _ Hok Hp).
  destruct (String.eqb_spec k key); [contradiction|]. now rewrite app_nil_r.
Qed.

#[local] Instance frameOf_worm key : TolWorm (frameOf key) (fun k => k <> key).
Proof. split. intros. now apply frameOf_update. Qed.

#[local] Instance frameOf_pop key : TolPop (frameOf key) (fun k => k <> key).
Proof. split. intros. now apply frameOf_update. Qed.

#[local] Instance frameOf_output key : TolOutput (frameOf key).
Proof. split; intros; now apply frameOf_other. Qed.

Lemma segmentsKept_other key (w w' : World num) :
  players w' = players w -> eatenFoodThisTick w' = eatenFoodThisTick w ->
  segmentsKept key w w'.
Proof. intros Hp He. unfold segmentsKept, wormOf. now rewrite Hp, He. Qed.

#[local] Instance segmentsKept_PreOrder key : PreOrder (segmentsKept key).
Proof.
  split.
  - intros w. now split.
  - intros w1 w2 w3 [Hs12 He12] [Hs23 He23]. split; congruence.
Qed.

#[local] Instance segmentsKept_random key : RandomTolerant (segmentsKept key).
Proof. split; [exact _|]. intros. now apply segmentsKept_other. Qed.

#[local] Instance segmentsKept_food key : TolFood (segmentsKept key).
Proof. split. intros. now apply segmentsKept_other. Qed.

#[local] Instance segmentsKept_worm key : TolWorm (segmentsKept key) (fun _ => True).
Proof.
  split. intros w k g _ Hg. rewrite updateWormOf_eq. split; [|reflexivity].
  unfold wormOf. cbn [players set_players].
  destruct (String.eqb_spec key k) as [->|Hne].
  - rewrite lookupPlayer_updatePlayers.
    destruct (lookupPlayer k (players w)) as [p|]; [|reflexivity].
    destruct (worm p) as [o|] eqn:Ho; cbn; [now rewrite Hg|now rewrite Ho].
  - now rewrite lookupPlayer_updatePlayers_ne.
Qed.

#[local] Instance segmentsKept_output key : TolOutput (segmentsKept key).
Proof. split; intros; now apply segmentsKept_other. Qed.

(** A loop over keys that are all different, seen from one of them: the
    iterations before, this one, the iterations after. *)
Lemma forEachKey_split (R : relation (World num)) `{!RandomTolerant R}
  (f : string -> M num unit) key keys : forall (w w' : World num),
  NoDup keys -> key ∈ keys ->
  (forall k, k ∈ keys -> k <> key -> preserves R (f k)) ->
  forEachKey f keys w = Ok (tt, w') ->
  exists wa wb, R w wa /\ f key wa = Ok (tt, wb) /\ R wb w'.
Proof.
  induction keys as [|k keys IH]; intros w w' Hnd Hin Hf;
    [now apply elem_of_nil in Hin|].
  apply NoDup_cons in Hnd as [Hk Hnd]. cbn [forEachKey]. unfold bind at 1.
  destruct (f k w) as [[[] w0]| |] eqn:Hrun; try discriminate.
  intros Hrest. destruct (String.eqb_spec k key) as [->|Hne].
  - exists w, w0. split; [reflexivity|]. split; [exact Hrun|].
    eapply (forEachKey_preserves R); [|exact Hrest].
    intros k' Hk'. apply Hf; [now right|]. intros ->. contradiction.
  - apply elem_of_cons in Hin as [->|Hin]; [contradiction|].
    destruct (IH w0 w' Hnd Hin) as (wa & wb & Ha & Hb & Hc); [|exact Hrest|].
    { intros k' Hk'. apply Hf. now right. }
    exists wa, wb. split; [|now split].
    transitivity w0; [|exact Ha]. eapply Hf; [now left|exact Hne|exact Hrun].
Qed.


Lemma preserves_lift (R : relation (World num)) `{!PreOrder R} {A} (r : result A) :
  preserves R (lift r).
Proof. intros w a w'. unfold lift. destruct r; intros [= _ <-]. reflexivity. Qed.

Lemma wormOf_registered key (w : World num) o :
  wormOf key w = Some o -> key ∈ map fst (players w).
Proof.
  unfold wormOf. destruct (lookupPlayer key (players w)) as [p|] eqn:Hp;
    [|discriminate].
  intros _. apply lookupPlayer_In in Hp. apply list_elem_of_fmap.
  now exists (key, p).
Qed.

Lemma wormOf_living key (w : World num) o :
  wormOf key w = Some o -> isAlive o = true ->
  key ∈ livingWormKeys (players w).
Proof.
  unfold wormOf. destruct (lookupPlayer key (players w)) as [p|] eqn:Hp;
    [|discriminate].
  intros Ho Halive. apply lookupPlayer_In in Hp. apply list_elem_of_fmap.
  exists (key, p). split; [reflexivity|].
  apply list_elem_of_In, List.filter_In. split; [now apply list_elem_of_In|].
  cbn. now rewrite Ho.
Qed.

Lemma livingWormKeys_NoDup ps : registryOk ps -> NoDup (livingWormKeys ps).
Proof.
  intros [Hnd _]. unfold livingWormKeys.
  eapply sublist_NoDup; [exact Hnd|]. apply fmap_sublist.
  induction ps as [|kp ps IH]; cbn; [constructor|].
  apply NoDup_cons in Hnd as [_ Hnd].
  destruct (match worm (snd kp) with Some o => isAlive o | None => false end).
  - constructor. now apply IH.
  - constructor. now apply IH.
Qed.

(** The movement step, seen from the worm under [key]: it is [updateWorm] on
    that worm; the registry stays well formed. *)
Lemma moveWorms_spec fuel now key (w w1 : World num) o :
  registryOk (players w) -> wormOf key w = Some o ->
  moveWorms fuel now w = Ok (tt, w1) ->
  registryOk (players w1)
  /\ eatenOf key w1 = eatenOf key w
  /\ exists o1, updateWorm fuel now o = Ok o1 /\ wormOf key w1 = Some o1.
Proof.
  intros Hok Ho. unfold moveWorms. unfold bind at 1, get. intros Hrun.
  apply (forEachKey_split (frameOf key)) with (key := key) in Hrun
    as (wa & wb & Ha & Hb & Hc).
  - destruct (Ha Hok) as (Hoka & Hwa & Hea). rewrite Ho in Hwa.
    unfold bind at 1, getPlayer in Hb. pose proof Hwa as Hworm.
    unfold wormOf in Hworm.
    destruct (lookupPlayer key (players wa)) as [p|]; [|discriminate].
    rewrite Hworm in Hb.
    assert (exists o1, updateWorm fuel now o = Ok o1
                       /\ wb = updateWormOf key (fun _ => o1) wa
                          \/ (isAlive o = false /\ o1 = o /\ wb = wa))
      as (o1 & Hcases).
    { destruct (isAlive o) eqn:Halive.
      - unfold bind at 1, lift in Hb.
        destruct (updateWorm fuel now o) as [o1| |]; try discriminate.
        exists o1. left. split; [reflexivity|]. now injection Hb as <-.
      - exists o. right. split; [reflexivity|]. split; [reflexivity|].
        now injection Hb as <-. }
    assert (updateWorm fuel now o = Ok o1) as Hup.
    { destruct Hcases as [[Hup _]|(Hdead & -> & _)]; [exact Hup|].
      apply updateWorm_idle. now left. }
    assert (registryOk (players wb) /\ eatenOf key wb = eatenOf key wa
            /\ wormOf key wb = Some o1) as (Hokb & Heb & Hwb).
    { destruct Hcases as [[_ ->]|(_ & -> & ->)].
      - rewrite updateWormOf_eq. unfold eatenOf.
        cbn [players eatenFoodThisTick set_players].
        split; [now apply registryOk_updatePlayers|]. split; [reflexivity|].
        rewrite (wormOf_updatePlayers key (fun _ => o1) wa); [|reflexivity].
        now rewrite Hwa.
      - split; [exact Hoka|]. split; [reflexivity|exact Hwa]. }
    destruct (Hc Hokb) as (Hok1 & Hw1 & He1).
    split; [exact Hok1|]. split; [congruence|].
    exists o1. split; [exact Hup|]. congruence.
  - now destruct Hok.
  - eapply wormOf_registered, Ho.
  - intros k _ Hne.
    preserves_step; [apply (getPlayer_preserves (frameOf key))|].
    preserves_step; [|preserves_step].
    preserves_step; [|preserves_step].
    preserves_step; [apply (preserves_lift (frameOf key))|].
    preserves_step. now apply frameOf_update.
Qed.


Lemma existsb_ateAfter (f : Eaten num -> bool) es :
  existsb f es = ateAfter false (List.filter f es).
Proof.
  induction es as [|e es IH]; cbn; [reflexivity|].
  destruct (f e); cbn; [reflexivity|exact IH].
Qed.

Lemma eatenBy_filter key (w : World num) es :
  registryOk (players w) -> Forall (eatenBy key w) es ->
  List.filter (fun e => String.eqb (eaterId e) key) es = es.
Proof.
  intros Hok. induction 1 as [|e es (p & Hp & He) _ IH]; cbn; [reflexivity|].
  rewrite He, (registryOk_id _ _ _ Hok Hp), String.eqb_refl. now f_equal.
Qed.

(** The collision step, seen from a living worm: its segments after the
    step are those before, without the last one when the worm is longer than
    the initial length and is the eater of no entry of [eatenFoodThisTick]. *)
Lemma checkCollisions_spec fuel now key (w1 w' : World num) o1 :
  registryOk (players w1) -> wormOf key w1 = Some o1 -> isAlive o1 = true ->
  checkCollisions fuel now w1 = Ok (tt, w') ->
  exists o',
    wormOf key w' = Some o'
    /\ segments o'
       = if negb (existsb (fun e => String.eqb (eaterId e) key)
                          (eatenFoodThisTick w'))
            && (WORM_INITIAL_LENGTH <? length (segments o1))%nat
         then removelast (segments o1)
         else segments o1.
Proof.
  intros Hok Ho Halive. unfold checkCollisions.
  unfold bind at 1, get. unfold bind at 1, modify. unfold bind at 1.
  set (w0 := set_eatenFoodThisTick [] w1).
  destruct (forEachKey (foodCollision now) _ w0) as [[[] wf]| |] eqn:Hfood;
    try discriminate.
  intros Hworm.
  apply (forEachKey_split (frameOf key)) with (key := key) in Hfood
    as (wa & wb & Ha & Hb & Hc).
  - destruct (Ha Hok) as (Hoka & Hwa & Hea).
    change (wormOf key w0) with (wormOf key w1) in Hwa. rewrite Ho in Hwa.
    change (eatenOf key w0) with (@nil (Eaten num)) in Hea.
    apply foodCollision_spec in Hb
      as (o & g & es & kept & spawned & Ho' & Hpb & _ & Hsegs & Heb & Hby & _).
    rewrite Hwa in Ho'. injection Ho' as <-.
    assert (registryOk (players wb)) as Hokb.
    { rewrite Hpb. now apply registryOk_updatePlayers. }
    destruct (Hc Hokb) as (Hokf & Hwf & Hef).
    rewrite (wormOf_updatePlayers key g wa wb Hpb), Hwa in Hwf. cbn in Hwf.
    assert (eatenOf key wf = es) as Hes.
    { rewrite Hef. unfold eatenOf. rewrite Heb, List.filter_app.
      fold (eatenOf key wa). rewrite Hea. cbn.
      exact (eatenBy_filter key wa es Hoka Hby). }
    assert (segmentsKept key wf w') as [Hkept Heaten].
    { eapply (forEachKey_preserves (segmentsKept key)); [|exact Hworm].
      intros k _.
      now apply (wormCollision_preserves (segmentsKept key) (fun _ => True)). }
    rewrite Hwf in Hkept. cbn in Hkept.
    destruct (wormOf key w') as [o'|]; [|discriminate].
    exists o'. split; [reflexivity|]. injection Hkept as ->.
    rewrite existsb_ateAfter, Heaten. fold (eatenOf key wf). rewrite Hes.
    exact Hsegs.
  - now apply livingWormKeys_NoDup.
  - now apply (wormOf_living key w1 o1).
  - intros k _ Hne.
    now apply (foodCollision_preserves (frameOf key)
                 (fun k => k <> key) (fun k => k <> key) (fun k => k <> key)).
Qed.

End Growth.

(* ================================================================== *)
(** ** The steps of a tick before the movement *)

Section BotSteps.
Context {num : Type} `{JsNumber num} `{Trig num} `{RandomSource num}.
Implicit Types (ps : list (string * Player num)) (g : Worm num -> Worm num).

(** The segments and the liveness of a worm. *)
Definition body (o : Worm num) : list (Point num) * bool :=
  (segments o, isAlive o).

(** What the bot steps leave alone in the player under [key], when it stays:
    the body of its worm.  Stated for well-formed registries, which stay so. *)
Definition steady (key : string) (w w' : World num) : Prop :=
  registryOk (players w) ->
  registryOk (players w')
  /\ option_map body (wormOf key w') = option_map body (wormOf key w).

#[local] Instance steady_PreOrder key : PreOrder (steady key).
Proof.
  split.
  - intros w Hok. auto.
  - intros w1 w2 w3 H12 H23 Hok. destruct (H12 Hok) as (Hok2 & Hw2).
    destruct (H23 Hok2) as (Hok3 & Hw3). split; [exact Hok3|congruence].
Qed.

Lemma steady_other key (w w' : World num) :
  players w' = players w -> steady key w w'.
Proof. intros Hp Hok. unfold wormOf. rewrite Hp. auto. Qed.

#[local] Instance steady_random key : RandomTolerant (steady key).
Proof. split; [exact _|]. intros. now apply steady_other. Qed.

Lemma steady_benign key k g (w : World num) :
  benign g -> steady key w (updateWormOf k g w).
Proof.
  intros Hg Hok. rewrite updateWormOf_eq.
  split; [now apply registryOk_updatePlayers|].
  unfold wormOf. cbn [players set_players].
  destruct (String.eqb_spec key k) as [->|Hne].
  - rewrite lookupPlayer_updatePlayers.
    destruct (lookupPlayer k (players w)) as [p|]; [|reflexivity].
    destruct (worm p) as [o|] eqn:Ho; cbn; [|now rewrite Ho].
    unfold body. now destruct (Hg o) as [-> ->].
  - now rewrite lookupPlayer_updatePlayers_ne.
Qed.

Lemma storePlayer_registryOk k (p : Player num) ps :
  player_id p = k -> registryOk ps -> registryOk (storePlayer k p ps).
Proof.
  intros Hid [Hnd Hids]. induction ps as [|[k' q] ps IH]; cbn.
  - split; [apply NoDup_singleton|]. now repeat constructor.
  - apply NoDup_cons in Hnd as [Hk' Hnd]. apply Forall_cons in Hids as [Hq Hids].
    destruct (String.eqb_spec k' k) as [->|Hne].
    + split; [cbn; apply NoDup_cons; now split|]. now constructor.
    + destruct (IH Hnd Hids) as [Hnd' Hids']. split; [|now constructor].
      cbn. apply NoDup_cons. split; [|exact Hnd'].
      intros Hin. apply list_elem_of_fmap in Hin as ([k2 q2] & -> & Hin).
      cbn in *. destruct (lookupPlayer k2 (storePlayer k p ps)) eqn:Hl.
      * rewrite lookupPlayer_storePlayer_ne in Hl by congruence.
        apply lookupPlayer_In in Hl. apply Hk'. apply list_elem_of_fmap.
        eexists (k2, _). split; [reflexivity|exact Hl].
      * rewrite (In_lookupPlayer k2 _ q2 Hnd' Hin) in Hl. discriminate.
Qed.

Lemma steady_store key k (p : Player num) (w : World num) :
  k <> key -> player_id p = k ->
  steady key w (set_players (storePlayer k p (players w)) w).
Proof.
  intros Hne Hid Hok. split; [now apply storePlayer_registryOk|].
  unfold wormOf. cbn [players set_players].
  now rewrite lookupPlayer_storePlayer_ne.
Qed.

Lemma areaClear_random (R : relation (World num)) `{!RandomTolerant R} segs :
  preserves R (areaClear segs).
Proof.
  induction segs as [|seg segs IH]; cbn [areaClear]; [preserves_step|].
  preserves_step; [apply (isSpawnPositionClear_preserves R)|].
  preserves_step; [exact IH|preserves_step].
Qed.

Lemma findClearArea_random (R : relation (World num)) `{!RandomTolerant R} n :
  preserves R (findClearArea n).
Proof.
  induction n as [|n IH]; cbn [findClearArea]; [preserves_step|].
  preserves_step; [apply (getRandomSpawnPositionXY_preserves R)|].
  preserves_step; [apply (random_preserves R)|].
  preserves_step; [apply (areaClear_random R)|].
  preserves_step; [preserves_step|exact IH].
Qed.

(** [resetPlayer] on another player. *)
Lemma resetPlayer_steady key pId (w w' : World num) :
  pId <> key -> resetPlayer pId w = Ok (tt, w') -> steady key w w'.
Proof.
  intros Hne Hrun Hok. revert Hrun. unfold resetPlayer. unfold bind at 1, get.
  destruct (lookupPlayer pId (players w)) as [player|] eqn:Hp.
  - pose proof (registryOk_id _ _ _ Hok Hp) as Hid. intros Hrun.
    revert Hok. change (steady key w w'). revert Hrun.
    lazymatch goal with
    | |- ?c w = Ok _ -> _ =>
        enough (preserves (steady key) c) as Hc by (exact (Hc _ _ _))
    end.
    preserves_step; [apply (findClearArea_random (steady key))|].
    preserves_step.
    { preserves_step; [preserves_step|].
      apply (getRandomSpawnPositionXY_preserves (steady key)). }
    preserves_step; [apply (random_preserves (steady key))|].
    preserves_step; [apply (getRandomColor_preserves (steady key))|].
    preserves_step. now apply steady_store.
  - intros [= <-]. auto.
Qed.

(** [addBot] when the id of the new bot is not [key]. *)
Lemma addBot_steady key (w w' : World num) :
  botIdOf (nextBotId w) <> key -> addBot w = Ok (tt, w') -> steady key w w'.
Proof.
  intros Hne. unfold addBot. unfold bind at 1, get.
  unfold bind at 1, modify. unfold bind at 1.
  destruct (getRandomColor _) as [[c w1]| |] eqn:Hcolor; try discriminate.
  apply (getRandomColor_preserves (steady key)) in Hcolor.
  unfold bind at 1, modify. intros Hreset.
  apply (resetPlayer_steady key) in Hreset; [|exact Hne].
  etransitivity; [|exact Hreset].
  etransitivity; [|apply steady_store; [exact Hne|reflexivity]].
  etransitivity; [|exact Hcolor]. now apply steady_other.
Qed.

Lemma deletePlayer_registryOk k ps :
  registryOk ps -> registryOk (deletePlayer k ps).
Proof.
  intros [Hnd Hids].
  assert (deletePlayer k ps `sublist_of` ps) as Hsub.
  { clear. induction ps as [|[k' q] ps IH]; cbn; [constructor|].
    destruct (String.eqb k' k); [now constructor|now constructor]. }
  split.
  - eapply sublist_NoDup; [exact Hnd|]. now apply fmap_sublist.
  - rewrite Forall_forall in *. intros kp Hin. apply Hids.
    eapply elem_of_sublist; [exact Hin|exact Hsub].
Qed.

Lemma lookupPlayer_deletePlayer_ne key k ps :
  key <> k -> lookupPlayer key (deletePlayer k ps) = lookupPlayer key ps.
Proof.
  intros Hne. induction ps as [|[k' q] ps IH]; cbn; [reflexivity|].
  destruct (String.eqb_spec k' k) as [->|Hk]; cbn.
  - destruct (String.eqb_spec k key); [congruence|reflexivity].
  - now rewrite IH.
Qed.

Lemma lookupPlayer_deletePlayer_eq k ps :
  NoDup (map fst ps) -> lookupPlayer k (deletePlayer k ps) = None.
Proof.
  induction ps as [|[k' q] ps IH]; cbn; [reflexivity|]. intros Hnd.
  apply NoDup_cons in Hnd as [Hk' Hnd].
  destruct (String.eqb_spec k' k) as [->|Hk]; cbn.
  - destruct (lookupPlayer k ps) as [p|] eqn:Hp; [|reflexivity].
    exfalso. apply Hk'. apply lookupPlayer_In in Hp.
    apply list_elem_of_fmap. now exists (k, p).
  - destruct (String.eqb_spec k' k); [contradiction|]. now apply IH.
Qed.

(** [manageBots], seen from the player under [key]: it stays as it is or,
    a bot, it is the one removed. *)
Lemma manageBots_spec key (w w1 : World num) p :
  registryOk (players w) -> lookupPlayer key (players w) = Some p ->
  botIdOf (nextBotId w) <> key ->
  manageBots w = Ok (tt, w1) ->
  registryOk (players w1)
  /\ (isBot p = true /\ lookupPlayer key (players w1) = None
      \/ option_map body (wormOf key w1) = option_map body (wormOf key w)).
Proof.
  intros Hok Hp Hne. unfold manageBots. unfold bind at 1, get.
  assert (forall w', steady key w w' ->
            registryOk (players w')
            /\ (isBot p = true /\ lookupPlayer key (players w') = None
                \/ option_map body (wormOf key w')
                   = option_map body (wormOf key w))) as Hsteady.
  { intros w' Hw'. destruct (Hw' Hok) as [Hok' Hbody]. auto. }
  destruct (_ <? _)%nat; [intros Hrun; now apply Hsteady, addBot_steady|].
  destruct (_ && _); [|intros [= <-]; now apply Hsteady].
  destruct (_ <? _)%nat; [|intros [= <-]; now apply Hsteady].
  unfold bind at 1, random. set (w0 := set_randomCalls _ w).
  assert (steady key w w0) as Hw0 by now apply steady_other.
  destruct (toIndex _) as [i|]; [|intros [= <-]; now apply Hsteady].
  destruct (_ !! i) as [botId|]; [|intros [= <-]; now apply Hsteady].
  unfold removeBot, bind at 1, get. change (players w0) with (players w).
  destruct (lookupPlayer botId (players w)) as [q|] eqn:Hq;
    [|intros [= <-]; now apply Hsteady].
  destruct (isBot q) eqn:Hbot; [|intros [= <-]; now apply Hsteady].
  unfold modify. intros [= <-]. cbn [players set_players].
  split; [now apply deletePlayer_registryOk|].
  destruct (String.eqb_spec key botId) as [->|Hk].
  - left. rewrite Hp in Hq. injection Hq as ->. split; [exact Hbot|].
    apply lookupPlayer_deletePlayer_eq, Hok.
  - right. unfold wormOf. cbn [players set_players].
    now rewrite lookupPlayer_deletePlayer_ne.
Qed.


(** The registry keys. *)
Definition keysKept (w w' : World num) : Prop :=
  map fst (players w') = map fst (players w).

#[local] Instance keysKept_PreOrder : PreOrder keysKept.
Proof.
  split; [now intros w|]. intros w1 w2 w3 H12 H23. unfold keysKept in *.
  congruence.
Qed.

Lemma keysKept_other (w w' : World num) :
  players w' = players w -> keysKept w w'.
Proof. intros Hp. unfold keysKept. now rewrite Hp. Qed.

Lemma keysKept_update k g (w : World num) : keysKept w (updateWormOf k g w).
Proof.
  rewrite updateWormOf_eq. unfold keysKept, updatePlayers.
  cbn [players set_players].
  destruct (lookupPlayer k (players w)) as [p|] eqn:Hp; [|reflexivity].
  destruct (worm p) as [o|]; [|reflexivity].
  now destruct (storePlayer_shape k (set_worm (Some (g o)) p) p _ Hp).
Qed.

#[local] Instance keysKept_random : RandomTolerant keysKept.
Proof. split; [exact _|]. intros. now apply keysKept_other. Qed.

#[local] Instance keysKept_food : TolFood keysKept.
Proof. split. intros. now apply keysKept_other. Qed.

#[local] Instance keysKept_delete : TolDelete keysKept.
Proof. split. intros. now apply keysKept_other. Qed.

#[local] Instance keysKept_eaten : TolEaten keysKept (fun _ => True).
Proof. split. intros. now apply keysKept_other. Qed.

#[local] Instance keysKept_worm : TolWorm keysKept (fun _ => True).
Proof. split. intros. apply keysKept_update. Qed.

#[local] Instance keysKept_pop : TolPop keysKept (fun _ => True).
Proof. split. intros. apply keysKept_update. Qed.

#[local] Instance keysKept_output : TolOutput keysKept.
Proof. split; intros; now apply keysKept_other. Qed.

Lemma lookupPlayer_None key ps :
  lookupPlayer key ps = None <-> key ∉ map fst ps.
Proof.
  induction ps as [|[k q] ps IH]; cbn.
  - split; [intros _; apply not_elem_of_nil|reflexivity].
  - rewrite not_elem_of_cons. destruct (String.eqb_spec k key) as [->|Hne].
    + split; [discriminate|]. now intros [Hk _].
    + rewrite IH. split; [intros Hk; split; [congruence|exact Hk]|now intros [_ Hk]].
Qed.

Lemma keysKept_absent key (w w' : World num) :
  keysKept w w' -> lookupPlayer key (players w) = None ->
  lookupPlayer key (players w') = None.
Proof. unfold keysKept. rewrite !lookupPlayer_None. now intros ->. Qed.

Lemma moveWorms_keys fuel now : preserves keysKept (moveWorms fuel now).
Proof.
  unfold moveWorms. preserves_step; [preserves_step|].
  apply (forEachKey_preserves keysKept). intros k _.
  preserves_step; [apply (getPlayer_preserves keysKept)|].
  preserves_step; [|preserves_step].
  preserves_step; [|preserves_step].
  preserves_step; [apply (preserves_lift keysKept)|].
  preserves_step. apply keysKept_update.
Qed.

Lemma checkCollisions_keys fuel now : preserves keysKept (checkCollisions fuel now).
Proof.
  unfold checkCollisions. preserves_step; [preserves_step|].
  preserves_step; [preserves_step; now apply keysKept_other|].
  preserves_step.
  - apply (forEachKey_preserves keysKept). intros k _.
    now apply (foodCollision_preserves keysKept
                 (fun _ => True) (fun _ => True) (fun _ => True)).
  - apply (forEachKey_preserves keysKept). intros k _.
    now apply (wormCollision_preserves keysKept (fun _ => True)).
Qed.

Section Steering.
Context (R : relation (World num)) `{!RandomTolerant R}.
Context (R_benign : forall w k g, benign g -> R w (updateWormOf k g w)).

(** The writes of the bot AI are to [botState] and [targetAngle]. *)
Lemma updateBotState_benign k f : preserves R (updateBotState k f).
Proof.
  unfold updateBotState.
  preserves_step; [apply (getWorm_preserves R)|].
  preserves_step; preserves_step. now apply R_benign.
Qed.

Lemma seekFood_benign k head a : preserves R (seekFood k head a).
Proof.
  unfold seekFood.
  repeat first
    [ preserves_step
    | apply (random_preserves R)
    | apply (getWorm_preserves R)
    | apply updateBotState_benign ].
Qed.

Lemma updateBotAI_benign k : preserves R (updateBotAI k).
Proof.
  unfold updateBotAI.
  repeat first
    [ preserves_step
    | apply (random_preserves R)
    | apply (getPlayer_preserves R)
    | apply updateBotState_benign
    | apply seekFood_benign ].
  now apply R_benign.
Qed.

Lemma updateBots_benign : preserves R updateBots.
Proof.
  unfold updateBots. preserves_step; [preserves_step|].
  apply (forEachKey_preserves R). intros k _.
  preserves_step; [apply (getPlayer_preserves R)|].
  preserves_step; [apply updateBotAI_benign|preserves_step].
Qed.

End Steering.

Lemma updateBots_keys : preserves keysKept updateBots.
Proof. apply (updateBots_benign keysKept). intros. apply keysKept_update. Qed.

Lemma updateBots_steady key : preserves (steady key) updateBots.
Proof. apply (updateBots_benign (steady key)). intros. now apply steady_benign. Qed.

End BotSteps.

(* ================================================================== *)
(** ** The growth law of a tick *)

Section Tick.
Context {num : Type} `{JsNumber num} `{Trig num} `{RandomSource num}.

(** [key] is the eater of an entry of [eatenFoodThisTick]. *)
Definition ateThisTick (key : string) (w : World num) : bool :=
  existsb (fun e => String.eqb (eaterId e) key) (eatenFoodThisTick w).

Lemma length_removelast_cons {A} (x : A) l :
  length (removelast (x :: l)) = length l.
Proof.
  revert x. induction l as [|y l IH]; intros x; [reflexivity|].
  change (removelast (x :: y :: l)) with (x :: removelast (y :: l)).
  cbn [length]. now rewrite IH.
Qed.

(** C5.  One tick, [gameLoop], seen from a living worm with segments that is
    registered under [key] in a well-formed registry, when the tick returns.
    Unless the player is the bot that [manageBots] removes in this tick, the
    worm is still registered after the tick and
    - if it is the eater of an entry of [eatenFoodThisTick], its segments are
      a new head in front of the old ones: the count is one more;
    - if it is not, and it had [WORM_INITIAL_LENGTH] segments or more, its
      segments are a new head in front of the old ones without the last: the
      count is the same;
    - if it is not, and it was shorter, a new head in front of the old ones.
    The id that [manageBots] gives to a bot it adds is taken not to be
    [key]: [addBot] stores the new bot under that id. *)
Theorem gameLoop_segment_growth_law fuel now key (w w' : World num) s p o :
  registryOk (players w) ->
  lookupPlayer key (players w) = Some p -> worm p = Some o ->
  isAlive o = true -> segments o <> [] ->
  botIdOf (nextBotId w) <> key ->
  gameLoop fuel now w = Ok (s, w') ->
  (isBot p = true /\ lookupPlayer key (players w') = None)
  \/ exists o' head',
       wormOf key w' = Some o'
       /\ (ateThisTick key w' = true ->
           segments o' = head' :: segments o
           /\ length (segments o') = S (length (segments o)))
       /\ (ateThisTick key w' = false ->
           (WORM_INITIAL_LENGTH <= length (segments o))%nat ->
           segments o' = head' :: removelast (segments o)
           /\ length (segments o') = length (segments o))
       /\ (ateThisTick key w' = false ->
           (length (segments o) < WORM_INITIAL_LENGTH)%nat ->
           segments o' = head' :: segments o).
Proof.
  intros Hok Hp Ho Halive Hsegs Hbot. unfold gameLoop.
  unfold bind at 1.
  destruct (manageBots w) as [[[] w1]| |] eqn:Hmanage; try discriminate.
  unfold bind at 1.
  destruct (updateBots w1) as [[[] w2]| |] eqn:Hbots; try discriminate.
  unfold bind at 1.
  destruct (moveWorms fuel now w2) as [[[] w3]| |] eqn:Hmove; try discriminate.
  unfold bind at 1.
  destruct (checkCollisions fuel now w3) as [[[] w4]| |] eqn:Hcoll;
    try discriminate.
  unfold bind, get, ret. intros [= _ <-].
  destruct (manageBots_spec key w w1 p Hok Hp Hbot Hmanage)
    as [Hok1 [[Hisbot Hgone]|Hbody1]].
  { left. split; [exact Hisbot|].
    apply updateBots_keys in Hbots.
    apply moveWorms_keys in Hmove. apply checkCollisions_keys in Hcoll.
    eauto using keysKept_absent. }
  right.
  apply (updateBots_steady key) in Hbots.
  destruct (Hbots Hok1) as [Hok2 Hbody2]. rewrite Hbody1 in Hbody2.
  unfold wormOf at 2 in Hbody2. rewrite Hp, Ho in Hbody2. cbn in Hbody2.
  destruct (wormOf key w2) as [o2|] eqn:Ho2; [|discriminate].
  injection Hbody2 as Hsegs2 Halive2.
  destruct (moveWorms_spec fuel now key w2 w3 o2 Hok2 Ho2 Hmove)
    as (Hok3 & _ & o3 & Hup & Ho3).
  destruct (segments o) as [|head rest] eqn:Hshape; [contradiction|].
  rewrite (updateWorm_alive fuel now o2 head rest) in Hup by congruence.
  destruct (shortestAngleDiff _ _ _) as [angleDiff| |]; try discriminate.
  cbv zeta in Hup. injection Hup as <-.
  lazymatch type of Ho3 with
  | context [set_segments (?h :: _) _] => set (head' := h) in *
  end.
  destruct (checkCollisions_spec fuel now key w3 w4 _ Hok3 Ho3)
    as (o' & Ho' & Hsegs'); [cbn; congruence|exact Hcoll|].
  cbn [segments set_segments set_angle] in Hsegs'. rewrite Hsegs2 in Hsegs'.
  fold (ateThisTick key w4) in Hsegs'.
  exists o', head'. split; [exact Ho'|].
  cbn [length] in *.
  split; [|split].
  - intros Hate. rewrite Hate in Hsegs'. cbn in Hsegs'.
    rewrite Hsegs'. now split.
  - intros Hate Hlen. rewrite Hate in Hsegs'.
    replace (WORM_INITIAL_LENGTH <? S (S (length rest)))%nat with true
      in Hsegs' by (symmetry; apply Nat.ltb_lt; lia).
    cbn [negb andb] in Hsegs'.
    change (removelast (head' :: head :: rest))
      with (head' :: removelast (head :: rest)) in Hsegs'.
    rewrite Hsegs'. split; [reflexivity|].
    cbn [length]. now rewrite length_removelast_cons.
  - intros Hate Hlen. rewrite Hate in Hsegs'.
    replace (WORM_INITIAL_LENGTH <? S (S (length rest)))%nat with false
      in Hsegs' by (symmetry; apply Nat.ltb_ge; lia).
    exact Hsegs'.
Qed.

End Tick.

Section TickExample.

(** The world after one tick from [twoFoodWorld], on doubles. *)
Definition afterOneTick : World f64 :=
  match gameLoop (H0:=sampleTrig) (H1:=sampleRandom) 10 0 twoFoodWorld with
  | Ok (_, w) => w
  | _ => twoFoodWorld
  end.

Lemma gameLoop_segment_growth_law_witness :
  registryOk (players (twoFoodWorld (num:=f64)))
  /\ gameLoop (H0:=sampleTrig) (H1:=sampleRandom) 10 0 twoFoodWorld
     = Ok (prepareGameState afterOneTick, afterOneTick)
  /\ ateThisTick "s1" afterOneTick = true
  /\ option_map (fun o => length (segments o)) (wormOf "s1" afterOneTick)
     = Some 101%nat.
Proof.
  assert (registryOk (players (twoFoodWorld (num:=f64)))) as Hok.
  { split; [apply NoDup_singleton|]. now repeat constructor. }
  assert (gameLoop (H0:=sampleTrig) (H1:=sampleRandom) 10 0 twoFoodWorld
          = Ok (prepareGameState afterOneTick, afterOneTick)) as Hrun
    by (vm_compute; reflexivity).
  assert (ateThisTick "s1" afterOneTick = true) as Hate
    by (vm_compute; reflexivity).
  split; [exact Hok|]. split; [exact Hrun|]. split; [exact Hate|].
  destruct (gameLoop_segment_growth_law (H0:=sampleTrig) (H1:=sampleRandom)
              10 0 "s1" twoFoodWorld afterOneTick _ _
              (straightWorm (F64_of_Z 0)) Hok eq_refl eq_refl eq_refl
              ltac:(discriminate) ltac:(discriminate) Hrun)
    as [[Hbot _]|(o' & head' & -> & Hgrow & _)]; [discriminate|].
  cbn [option_map]. now destruct (Hgrow Hate) as [_ ->].
Defined.

End TickExample.

(* ================================================================== *)
(** ** Preconditions and postconditions

    [preserves] says nothing of a run that throws.  A triple does: from a
    world in [P] the computation does not throw, and when it returns [a] in
    the world [w'], [Q a w'] holds.  Running out of fuel is allowed. *)

Section Triples.
Context {num : Type}.
Implicit Types (P : World num -> Prop).

Definition triple {A} P (c : M num A) (Q : A -> World num -> Prop) : Prop :=
  forall w, P w ->
    match c w with
    | Ok (a, w') => Q a w'
    | OutOfFuel => True
    | TypeError => False
    end.

Lemma triple_ret {A} P (a : A) (Q : A -> World num -> Prop) :
  (forall w, P w -> Q a w) -> triple P (ret a) Q.
Proof. intros HQ w Hw. now apply HQ. Qed.

Lemma triple_get P (Q : World num -> World num -> Prop) :
  (forall w, P w -> Q w w) -> triple P get Q.
Proof. intros HQ w Hw. now apply HQ. Qed.

Lemma triple_modify P (f : World num -> World num) (Q : unit -> World num -> Prop) :
  (forall w, P w -> Q tt (f w)) -> triple P (modify f) Q.
Proof. intros HQ w Hw. now apply HQ. Qed.

Lemma triple_outOfFuel {A} P (Q : A -> World num -> Prop) : triple P outOfFuel Q.
Proof. now intros w Hw. Qed.

Lemma triple_bind {A B} P (c : M num A) (k : A -> M num B)
  (Q : A -> World num -> Prop) (Q' : B -> World num -> Prop) :
  triple P c Q -> (forall a, triple (Q a) (k a) Q') -> triple P (bind c k) Q'.
Proof.
  intros Hc Hk w Hw. unfold bind. specialize (Hc w Hw).
  destruct (c w) as [[a w1]| |]; [|exact I|exact Hc]. now apply Hk.
Qed.

Lemma triple_weaken {A} P P' (c : M num A) (Q Q' : A -> World num -> Prop) :
  (forall w, P w -> P' w) -> (forall a w, Q' a w -> Q a w) ->
  triple P' c Q' -> triple P c Q.
Proof.
  intros HP HQ Hc w Hw. specialize (Hc w (HP w Hw)).
  destruct (c w) as [[a w1]| |]; [|exact I|exact Hc]. now apply HQ.
Qed.

(** A fact that does not depend on the world. *)
Lemma triple_pure {A} P (phi : Prop) (c : M num A) (Q : A -> World num -> Prop) :
  (phi -> triple P c Q) -> triple (fun w => P w /\ phi) c Q.
Proof. intros Hc w [Hw Hphi]. now apply Hc. Qed.

(** The value is used after a step that keeps [P] and says [phi] of it. *)
Lemma triple_bind_pure {A B} P (phi : A -> Prop) (c : M num A)
  (k : A -> M num B) (Q' : B -> World num -> Prop) :
  triple P c (fun a w => P w /\ phi a) ->
  (forall a, phi a -> triple P (k a) Q') -> triple P (bind c k) Q'.
Proof.
  intros Hc Hk. eapply triple_bind; [exact Hc|].
  intros a. now apply triple_pure, Hk.
Qed.

(** The value is not used, or nothing is known of it. *)
Lemma triple_bind_keep {A B} P (c : M num A) (k : A -> M num B)
  (Q' : B -> World num -> Prop) :
  triple P c (fun _ => P) -> (forall a, triple P (k a) Q') ->
  triple P (bind c k) Q'.
Proof. intros Hc Hk. eapply triple_bind; [exact Hc|exact Hk]. Qed.

Lemma triple_forEachKey P (f : string -> M num unit) keys :
  (forall key, key ∈ keys -> triple P (f key) (fun _ => P)) ->
  triple P (forEachKey f keys) (fun _ => P).
Proof.
  induction keys as [|key keys IH]; intros Hf; cbn [forEachKey].
  - now apply triple_ret.
  - apply triple_bind_keep; [apply Hf; left|].
    intros ?. apply IH. intros k Hk. apply Hf. now right.
Qed.

Lemma triple_lift {A} P (r : result A) (phi : A -> Prop) :
  r <> TypeError -> (forall a, r = Ok a -> phi a) ->
  triple P (lift r) (fun a w => P w /\ phi a).
Proof.
  intros Hr Hphi w Hw. unfold lift. destruct r; [|exact I|congruence]. auto.
Qed.

End Triples.

(* ================================================================== *)
(** ** What the server keeps true *)

Section Sound.
Context {num : Type} `{JsNumber num} `{Trig num} `{RandomSource num}.
Implicit Types (ps : list (string * Player num)) (g : Worm num -> Worm num)
  (s : list (string * bool)).

(** A worm as the server keeps it: alive, it has the initial number of
    segments or more; of a bot, it has a [botState]; its score is a number
    of items eaten times [FOOD_SCORE]. *)
Definition wormOk (bot : bool) (o : Worm num) : Prop :=
  (isAlive o = true -> (WORM_INITIAL_LENGTH <= length (segments o))%nat)
  /\ (bot = true -> botState o <> None)
  /\ (0 <= score o)%Z /\ (FOOD_SCORE | score o)%Z.

(** A registry entry: the player's id is its key and it has a worm. *)
Definition playerOk (kp : string * Player num) : Prop :=
  player_id (snd kp) = fst kp
  /\ exists o, worm (snd kp) = Some o /\ wormOk (isBot (snd kp)) o.

Definition sound (w : World num) : Prop :=
  NoDup (map fst (players w))
  /\ Forall playerOk (players w)
  /\ (length (food w) <= MAX_FOOD)%nat.

(** The keys of the registry, each with the [isBot] of its player. *)
Definition shape (w : World num) : list (string * bool) :=
  map (fun kp : string * Player num => (fst kp, isBot (snd kp))) (players w).

(** [sound] while the keys and who is a bot are [s] and the food list has
    [j] items or more. *)
Definition during s (j : nat) (w : World num) : Prop :=
  sound w /\ shape w = s /\ (j <= length (food w))%nat.

Lemma sound_during (w : World num) : sound w -> during (shape w) 0 w.
Proof. intros Hw. split; [exact Hw|]. split; [reflexivity|lia]. Qed.

Lemma during_sound s j (w : World num) : during s j w -> sound w.
Proof. now intros [Hw _]. Qed.

Lemma during_le s j j' (w : World num) :
  during s j w -> (j' <= j)%nat -> during s j' w.
Proof. intros (Hw & Hs & Hj) Hle. split; [exact Hw|]. split; [exact Hs|lia]. Qed.

Lemma during_other s j (w w' : World num) :
  during s j w -> players w' = players w -> food w' = food w -> during s j w'.
Proof.
  intros ((Hnd & Hok & Hcap) & Hs & Hj) Hp Hf. unfold during, sound, shape.
  rewrite Hp, Hf. auto.
Qed.

Lemma keys_shape (w : World num) : map fst (shape w) = map fst (players w).
Proof. unfold shape. rewrite <- list_fmap_compose. reflexivity. Qed.

(** What is known of the player found under [key]. *)
Lemma during_lookup s j (w : World num) key p :
  during s j w -> lookupPlayer key (players w) = Some p ->
  (key, isBot p) ∈ s /\ player_id p = key
  /\ exists o, worm p = Some o /\ wormOk (isBot p) o.
Proof.
  intros ((Hnd & Hok & _) & <- & _) Hp. apply lookupPlayer_In in Hp.
  split.
  - unfold shape. apply list_elem_of_fmap. now exists (key, p).
  - rewrite Forall_forall in Hok. exact (Hok _ Hp).
Qed.

(** A key of [s] is registered. *)
Lemma during_registered s j (w : World num) key b :
  during s j w -> (key, b) ∈ s ->
  exists p, lookupPlayer key (players w) = Some p /\ isBot p = b.
Proof.
  intros ((Hnd & _ & _) & <- & _) Hin. unfold shape in Hin.
  apply list_elem_of_fmap in Hin as ([k p] & [= -> ->] & Hin).
  exists p. split; [now apply In_lookupPlayer|reflexivity].
Qed.

Lemma during_bot s j (w : World num) key p b :
  during s j w -> (key, b) ∈ s -> lookupPlayer key (players w) = Some p ->
  isBot p = b.
Proof.
  intros Hw Hin Hp. destruct (during_registered s j w key b Hw Hin) as (q & Hq & <-).
  congruence.
Qed.

Lemma storePlayer_Forall (Q : string * Player num -> Prop) key (p : Player num) ps :
  Q (key, p) -> Forall Q ps -> Forall Q (storePlayer key p ps).
Proof.
  intros Hp. induction 1 as [|[k q] ps Hq Hall IH]; cbn.
  - now repeat constructor.
  - destruct (String.eqb_spec k key) as [->|Hne]; constructor; assumption.
Qed.

Lemma storePlayer_keys key (p q : Player num) ps :
  lookupPlayer key ps = Some q ->
  map fst (storePlayer key p ps) = map fst ps.
Proof. intros Hq. now destruct (storePlayer_shape key p q ps Hq). Qed.

Lemma storePlayer_bots key (p q : Player num) ps :
  lookupPlayer key ps = Some q -> isBot p = isBot q ->
  map (fun kp : string * Player num => (fst kp, isBot (snd kp)))
      (storePlayer key p ps)
  = map (fun kp : string * Player num => (fst kp, isBot (snd kp))) ps.
Proof.
  intros Hq Hbot. induction ps as [|[k r] ps IH]; cbn in *; [discriminate|].
  destruct (String.eqb_spec k key) as [->|Hne]; cbn.
  - injection Hq as ->. now rewrite Hbot.
  - now rewrite IH.
Qed.

(** A player is replaced by one that is in order and is a bot, or not, as
    the one before. *)
Lemma during_store s j (w : World num) key p q :
  during s j w -> lookupPlayer key (players w) = Some q ->
  isBot p = isBot q -> playerOk (key, p) ->
  during s j (set_players (storePlayer key p (players w)) w).
Proof.
  intros ((Hnd & Hok & Hcap) & Hs & Hj) Hq Hbot Hp.
  unfold during, sound, shape. cbn [players food set_players].
  rewrite (storePlayer_keys key p q _ Hq), (storePlayer_bots key p q _ Hq Hbot).
  repeat split; auto. now apply storePlayer_Forall.
Qed.

(** A write to the worm under [key] that leaves it in order. *)
Lemma during_update s j (w : World num) key g :
  during s j w ->
  (forall p o, lookupPlayer key (players w) = Some p -> worm p = Some o ->
               wormOk (isBot p) (g o)) ->
  during s j (updateWormOf key g w).
Proof.
  intros Hw Hg. unfold updateWormOf.
  destruct (lookupPlayer key (players w)) as [p|] eqn:Hp; [|exact Hw].
  destruct (worm p) as [o|] eqn:Ho; [|exact Hw].
  destruct (during_lookup s j w key p Hw Hp) as (_ & Hid & _).
  apply (during_store s j w key _ p Hw Hp); [reflexivity|].
  split; [exact Hid|]. exists (g o). split; [reflexivity|].
  exact (Hg p o eq_refl Ho).
Qed.

(** The same for a write that keeps any worm in order. *)
Lemma during_touch s j (w : World num) key g :
  during s j w -> (forall b o, wormOk b o -> wormOk b (g o)) ->
  during s j (updateWormOf key g w).
Proof.
  intros Hw Hg. apply during_update; [exact Hw|]. intros p o Hp Ho.
  apply Hg. destruct (during_lookup s j w key p Hw Hp) as (_ & _ & o' & Ho' & Hok).
  congruence.
Qed.

Lemma during_push s j (w : World num) (f : Food num) n :
  during s j w -> (length (food w) < MAX_FOOD)%nat ->
  during s j (set_food (food w ++ [f]) (set_nextFoodId n w)).
Proof.
  intros ((Hnd & Hok & Hcap) & Hs & Hj) Hlt. unfold during, sound, shape.
  cbn [players food set_food set_nextFoodId]. rewrite length_app. cbn.
  repeat split; auto; lia.
Qed.

Lemma during_delete s j (w : World num) i :
  during s (S j) w -> during s j (set_food (delete i (food w)) w).
Proof.
  intros ((Hnd & Hok & Hcap) & Hs & Hj). unfold during, sound, shape.
  cbn [players food set_food].
  assert (length (food w) - 1 <= length (delete i (food w))
          /\ length (delete i (food w)) <= length (food w))%nat as [Hlo Hhi].
  { generalize (food w). clear. intros l. revert i.
    induction l as [|a l IH]; intros [|i]; simpl; try lia.
    specialize (IH i). lia. }
  repeat split; auto; lia.
Qed.


(** *** Reads, and draws of [Math.random()] *)

(** A predicate that the count of draws does not matter to, and that says
    that the registry is in order. *)
Class Calm (P : World num -> Prop) : Prop := {
  calm_random : forall w n, P w -> P (set_randomCalls n w);
  calm_ok : forall w, P w -> Forall playerOk (players w)
}.

#[local] Instance during_Calm s j : Calm (during s j).
Proof.
  split.
  - intros w n Hw. now apply (during_other s j w).
  - now intros w ((_ & Hok & _) & _).
Qed.

#[local] Instance room_Calm s j :
  Calm (fun w => during s j w /\ (length (food w) < MAX_FOOD)%nat).
Proof.
  split.
  - intros w n [Hw Hlt]. split; [now apply (during_other s j w)|exact Hlt].
  - now intros w [((_ & Hok & _) & _) _].
Qed.

(** The heads of the living worms can all be read. *)
Lemma headsClear_total x y ps :
  Forall playerOk ps -> exists b, headsClear x y ps = Ok b.
Proof.
  induction 1 as [|[k p] ps (_ & o & Ho & Hlen & _) _ IH]; cbn [headsClear];
    [now exists true|].
  cbn [snd] in Ho. rewrite Ho. destruct (isAlive o); [|exact IH].
  destruct (segments o) as [|head rest];
    [specialize (Hlen eq_refl); unfold WORM_INITIAL_LENGTH in Hlen; simpl in Hlen; lia|].
  destruct (distSqBelow _ _ _ _ _); [now exists false|exact IH].
Qed.

Section Calm.
Context (P : World num -> Prop) `{!Calm P}.

Lemma random_triple : triple P random (fun _ => P).
Proof. intros w Hw. now apply calm_random. Qed.

Lemma getRandomColor_triple : triple P getRandomColor (fun _ => P).
Proof.
  unfold getRandomColor. apply triple_bind_keep; [apply random_triple|].
  intros h. now apply triple_ret.
Qed.

Lemma getRandomSpawnPositionXY_triple margin :
  triple P (getRandomSpawnPositionXY margin) (fun _ => P).
Proof.
  unfold getRandomSpawnPositionXY.
  apply triple_bind_keep; [apply random_triple|]. intros rx.
  apply triple_bind_keep; [apply random_triple|]. intros ry.
  now apply triple_ret.
Qed.

Lemma randomFoodType_triple : triple P randomFoodType (fun _ => P).
Proof.
  unfold randomFoodType. apply triple_bind_keep; [apply random_triple|].
  intros r. now apply triple_ret.
Qed.

Lemma isSpawnPositionClear_triple x y :
  triple P (isSpawnPositionClear x y) (fun _ => P).
Proof.
  intros w Hw. unfold isSpawnPositionClear.
  destruct (existsb _ (food w)); [exact Hw|].
  destruct (headsClear_total x y (players w) (calm_ok w Hw)) as [b ->].
  exact Hw.
Qed.

Lemma findClearSpot_triple n : triple P (findClearSpot n) (fun _ => P).
Proof.
  induction n as [|n IH]; cbn [findClearSpot]; [now apply triple_ret|].
  apply triple_bind_keep; [apply getRandomSpawnPositionXY_triple|]. intros pos.
  apply triple_bind_keep; [apply isSpawnPositionClear_triple|]. intros clear.
  destruct clear; [now apply triple_ret|exact IH].
Qed.

Lemma areaClear_triple segs : triple P (areaClear segs) (fun _ => P).
Proof.
  induction segs as [|seg segs IH]; cbn [areaClear]; [now apply triple_ret|].
  apply triple_bind_keep; [apply isSpawnPositionClear_triple|]. intros clear.
  destruct clear; [exact IH|now apply triple_ret].
Qed.

Lemma findClearArea_triple n : triple P (findClearArea n) (fun _ => P).
Proof.
  induction n as [|n IH]; cbn [findClearArea]; [now apply triple_ret|].
  apply triple_bind_keep; [apply getRandomSpawnPositionXY_triple|]. intros pos.
  apply triple_bind_keep; [apply random_triple|]. intros r.
  apply triple_bind_keep; [apply areaClear_triple|]. intros clear.
  destruct clear; [now apply triple_ret|exact IH].
Qed.

Lemma redrawWhileSpecial_triple fuel : forall t,
  triple P (redrawWhileSpecial fuel t) (fun _ => P).
Proof.
  induction fuel as [|fuel IH]; intros t; cbn [redrawWhileSpecial];
    [apply triple_outOfFuel|].
  destruct (isSpecialFoodType t); [|now apply triple_ret].
  apply triple_bind_keep; [apply randomFoodType_triple|]. intros t'. apply IH.
Qed.

End Calm.

(** *** Food *)

Lemma pushFood_triple s j mk :
  triple (fun w => during s j w /\ (length (food w) < MAX_FOOD)%nat)
         (pushFood mk) (fun _ => during s j).
Proof.
  unfold pushFood. apply triple_modify. intros w [Hw Hlt].
  now apply during_push.
Qed.

Lemma spawnOneFood_triple s j :
  triple (fun w => during s j w /\ (length (food w) < MAX_FOOD)%nat)
         spawnOneFood (fun _ => during s j).
Proof.
  unfold spawnOneFood.
  apply triple_bind_keep; [apply findClearSpot_triple; exact _|]. intros found.
  apply triple_bind_keep.
  { destruct found; [now apply triple_ret|].
    apply getRandomSpawnPositionXY_triple; exact _. }
  intros spawnPos.
  apply triple_bind_keep; [apply randomFoodType_triple; exact _|]. intros t.
  apply triple_bind_keep; [apply getRandomColor_triple; exact _|]. intros c.
  apply pushFood_triple.
Qed.

Lemma spawnFood_triple s j count :
  triple (during s j) (spawnFood count) (fun _ => during s j).
Proof.
  induction count as [|count IH]; cbn [spawnFood]; [now apply triple_ret|].
  intros w Hw. unfold bind at 1, get.
  destruct (MAX_FOOD <=? length (food w))%nat eqn:Hfull; [exact Hw|].
  apply Nat.leb_gt in Hfull.
  revert w Hw Hfull.
  enough (triple (fun w => during s j w /\ (length (food w) < MAX_FOOD)%nat)
                 (run! spawnOneFood in spawnFood count) (fun _ => during s j))
    as Ht by (intros w Hw Hfull; exact (Ht w (conj Hw Hfull))).
  eapply triple_bind; [apply spawnOneFood_triple|]. intros ?. exact IH.
Qed.

(** *** Players *)

Lemma length_createInitialWormSegments (x y : num) len a :
  length (createInitialWormSegments x y len a) = len.
Proof. unfold createInitialWormSegments. now rewrite length_map, length_seq. Qed.

Lemma resetPlayer_triple s j pId :
  triple (during s j) (resetPlayer pId) (fun _ => during s j).
Proof.
  intros w Hw. unfold resetPlayer. unfold bind at 1, get.
  destruct (lookupPlayer pId (players w)) as [player|] eqn:Hp; [|exact Hw].
  destruct (during_lookup s j w pId player Hw Hp) as (Hin & Hid & _).
  revert w Hw Hp.
  lazymatch goal with
  | |- forall w, _ -> _ -> match ?c w with _ => _ end =>
      enough (triple (during s j) c (fun _ => during s j)) as Ht
        by (intros w Hw _; exact (Ht w Hw))
  end.
  apply triple_bind_keep; [apply findClearArea_triple; exact _|]. intros found.
  apply triple_bind_keep.
  { destruct found; [now apply triple_ret|].
    apply getRandomSpawnPositionXY_triple; exact _. }
  intros spawnPos.
  apply triple_bind_keep; [apply random_triple; exact _|]. intros r.
  apply triple_bind_keep; [apply getRandomColor_triple; exact _|]. intros c.
  apply triple_modify. intros w Hw.
  destruct (during_registered s j w pId (isBot player) Hw Hin) as (q & Hq & Hbot).
  apply (during_store s j w pId _ q Hw Hq); [now rewrite Hbot|].
  split; [exact Hid|]. eexists. split; [reflexivity|].
  unfold wormOk. cbn [isBot set_worm isAlive segments botState score snd].
  split; [intros _; now rewrite length_createInitialWormSegments|].
  split; [intros ->; discriminate|]. split; [lia|apply Z.divide_0_r].
Qed.


(** *** Writes to a worm that keep it in order *)

Ltac worm_ok :=
  let Hlen := fresh "Hlen" in
  let Hbot := fresh "Hbot" in
  let Hpos := fresh "Hpos" in
  let Hdiv := fresh "Hdiv" in
  intros ? ? (Hlen & Hbot & Hpos & Hdiv); unfold wormOk;
  cbn [isAlive segments botState score set_isAlive set_score set_targetAngle
       set_botState set_hasSpeedBoost set_speedBoostEndTime set_isMagnetActive];
  repeat split; auto; try discriminate.

Lemma wormOk_dead b (o : Worm num) : wormOk b o -> wormOk b (set_isAlive false o).
Proof. revert b o. worm_ok. Qed.

Lemma wormOk_score b (o : Worm num) :
  wormOk b o -> wormOk b (set_score (score o + FOOD_SCORE) o).
Proof.
  revert b o. worm_ok; [unfold FOOD_SCORE; lia|].
  apply Z.divide_add_r; [assumption|apply Z.divide_refl].
Qed.

Lemma wormOk_targetAngle a b (o : Worm num) :
  wormOk b o -> wormOk b (set_targetAngle a o).
Proof. revert b o. worm_ok. Qed.

Lemma wormOk_botState v b (o : Worm num) :
  wormOk b o -> wormOk b (set_botState (Some v) o).
Proof. revert b o. worm_ok. Qed.

Lemma wormOk_boost t b (o : Worm num) :
  wormOk b o -> wormOk b (set_speedBoostEndTime t (set_hasSpeedBoost true o)).
Proof. revert b o. worm_ok. Qed.

Lemma wormOk_magnet v b (o : Worm num) :
  wormOk b o -> wormOk b (set_isMagnetActive v o).
Proof. revert b o. worm_ok. Qed.

Lemma updateWorm_grows fuel now (o o' : Worm num) :
  updateWorm fuel now o = Ok o' ->
  (length (segments o) <= length (segments o'))%nat.
Proof.
  unfold updateWorm. destruct (negb (isAlive o)); [now intros [= <-]|].
  destruct (segments o) as [|head rest] eqn:Hsegs; [intros [= <-]; now rewrite Hsegs|].
  destruct (shortestAngleDiff fuel (targetAngle o) (angle o)); try discriminate.
  intros [= <-]. cbn. lia.
Qed.

Lemma wormOk_updateWorm fuel now b (o o' : Worm num) :
  updateWorm fuel now o = Ok o' -> wormOk b o -> wormOk b o'.
Proof.
  intros Hup (Hlen & Hbot & Hpos & Hdiv).
  pose proof (updateWorm_grows _ _ _ _ Hup) as Hgrow.
  destruct (updateWorm_frame _ _ _ _ Hup) as (_ & _ & _ & Ha & _ & Hs & Hb).
  unfold wormOk. rewrite Ha, Hs, Hb. repeat split; auto.
  intros Halive. specialize (Hlen Halive). lia.
Qed.

(** *** Reads through a key *)

Lemma getPlayer_triple s j key b :
  (key, b) ∈ s ->
  triple (during s j) (getPlayer key)
         (fun p w => during s j w
                     /\ (isBot p = b /\ player_id p = key
                         /\ exists o, worm p = Some o /\ wormOk b o)).
Proof.
  intros Hin w Hw. unfold getPlayer.
  destruct (during_registered s j w key b Hw Hin) as (p & Hp & Hbot).
  rewrite Hp. split; [exact Hw|].
  destruct (during_lookup s j w key p Hw Hp) as (_ & Hid & o & Ho & Hok).
  rewrite Hbot in Hok. eauto 6.
Qed.

Lemma getWorm_triple s j key b :
  (key, b) ∈ s ->
  triple (during s j) (getWorm key) (fun o w => during s j w /\ wormOk b o).
Proof.
  intros Hin. unfold getWorm.
  eapply triple_bind_pure; [exact (getPlayer_triple s j key b Hin)|].
  intros p (_ & _ & o & Ho & Hok). rewrite Ho. now apply triple_ret.
Qed.

Lemma updateBotState_triple s j key f :
  (key, true) ∈ s ->
  triple (during s j) (updateBotState key f) (fun _ => during s j).
Proof.
  intros Hin. unfold updateBotState.
  eapply triple_bind_pure; [exact (getWorm_triple s j key true Hin)|].
  intros o (_ & Hbot & _). destruct (botState o) as [b|]; [|now destruct Hbot].
  apply triple_modify. intros w Hw. apply during_touch; [exact Hw|].
  intros. now apply wormOk_botState.
Qed.

(** *** Death *)

Lemma dropFoodFrom_triple s j fuel c segs : forall index,
  triple (during s j) (dropFoodFrom fuel c index segs) (fun _ => during s j).
Proof.
  induction segs as [|seg segs IH]; intros index; cbn [dropFoodFrom];
    [now apply triple_ret|].
  apply triple_bind_keep; [|intros ?; apply IH].
  destruct (_ =? 0)%nat; [|now apply triple_ret].
  apply triple_bind_keep; [apply random_triple; exact _|]. intros r.
  destruct (ltb r FOOD_DROP_CHANCE); [|now apply triple_ret].
  intros w Hw. unfold bind at 1, get.
  destruct (length (food w) <? MAX_FOOD)%nat eqn:Hroom; [|exact Hw].
  apply Nat.ltb_lt in Hroom. revert w Hw Hroom.
  lazymatch goal with
  | |- forall w, _ -> _ -> match ?c w with _ => _ end =>
      enough (triple (fun w => during s j w /\ (length (food w) < MAX_FOOD)%nat)
                     c (fun _ => during s j)) as Ht
        by (intros w Hw Hroom; exact (Ht w (conj Hw Hroom)))
  end.
  apply triple_bind_keep; [apply randomFoodType_triple; exact _|]. intros t.
  apply triple_bind_keep; [apply redrawWhileSpecial_triple; exact _|]. intros t'.
  apply pushFood_triple.
Qed.

Lemma killPlayer_triple s j fuel pId :
  triple (during s j) (killPlayer fuel pId) (fun _ => during s j).
Proof.
  intros w Hw. unfold killPlayer. unfold bind at 1, get.
  destruct (lookupPlayer pId (players w)) as [player|]; [|exact Hw].
  destruct (worm player) as [o|]; [|exact Hw].
  destruct (isAlive o); [|exact Hw]. revert w Hw.
  lazymatch goal with
  | |- forall w, _ -> match ?c w with _ => _ end =>
      enough (triple (during s j) c (fun _ => during s j)) as Ht
        by (intros w Hw; exact (Ht w Hw))
  end.
  apply triple_bind_keep.
  { apply triple_modify. intros w Hw. apply during_touch; [exact Hw|].
    intros. now apply wormOk_dead. }
  intros ?. apply triple_bind_keep; [apply dropFoodFrom_triple|]. intros ?.
  destruct (negb (isBot player)); apply triple_modify; intros w Hw;
    now apply (during_other s j w).
Qed.


(** *** Bots *)

Lemma seekFood_triple s j key head a :
  (key, true) ∈ s ->
  triple (during s j) (seekFood key head a) (fun _ => during s j).
Proof.
  intros Hin. unfold seekFood.
  apply triple_bind_keep; [now apply updateBotState_triple|]. intros ?.
  eapply triple_bind_pure; [exact (getWorm_triple s j key true Hin)|].
  intros o (_ & Hbot & _).
  apply triple_bind_keep; [now apply triple_get|]. intros w0.
  apply triple_bind_keep.
  { destruct (botState o); [now apply triple_ret|now destruct Hbot]. }
  intros b. apply triple_bind_keep.
  { destruct (_ || _); [now apply updateBotState_triple|now apply triple_ret]. }
  intros ?.
  eapply triple_bind_pure; [exact (getWorm_triple s j key true Hin)|].
  intros o' (_ & Hbot' & _).
  apply triple_bind_keep.
  { destruct (botState o'); [now apply triple_ret|now destruct Hbot']. }
  intros b'. destruct (isTruthyId _).
  - destruct (findFood _ _); [now apply triple_ret|].
    apply triple_bind_keep; [now apply updateBotState_triple|]. intros ?.
    now apply triple_ret.
  - apply triple_bind_keep; [apply random_triple; exact _|]. intros r.
    destruct (ltb r BOT_RANDOM_TURN_CHANCE); [|now apply triple_ret].
    apply triple_bind_keep; [apply random_triple; exact _|]. intros r'.
    now apply triple_ret.
Qed.

Lemma updateBotAI_triple s j key :
  (key, true) ∈ s ->
  triple (during s j) (updateBotAI key) (fun _ => during s j).
Proof.
  intros Hin. unfold updateBotAI.
  apply triple_bind_keep.
  { eapply triple_weaken; [| |exact (getPlayer_triple s j key true Hin)];
      [auto|now intros p w [Hw _]]. }
  intros botPlayer. destruct (worm botPlayer) as [botWorm|]; [|now apply triple_ret].
  destruct (negb (isAlive botWorm)); [now apply triple_ret|].
  destruct (segments botWorm) as [|head rest]; [now apply triple_ret|].
  cbv zeta. apply triple_bind_keep.
  { destruct (_ || _); [now apply triple_ret|].
    apply triple_bind_keep; [now apply triple_get|]. intros w0.
    destruct (findThreat _ _ _ _); [|now apply triple_ret].
    apply triple_bind_keep; [apply random_triple; exact _|]. intros r.
    now apply triple_ret. }
  intros avoidAngle. apply triple_bind_keep.
  { destruct avoidAngle; [|now apply seekFood_triple].
    apply triple_bind_keep; [now apply updateBotState_triple|]. intros ?.
    now apply triple_ret. }
  intros targetAngle'. apply triple_modify. intros w Hw.
  apply during_touch; [exact Hw|]. intros. now apply wormOk_targetAngle.
Qed.

Lemma during_key s j (w : World num) key :
  during s j w -> key ∈ map fst (players w) -> exists b, (key, b) ∈ s.
Proof.
  intros (_ & <- & _). rewrite <- keys_shape. intros Hin.
  apply list_elem_of_fmap in Hin as ([k b] & -> & Hin). now exists b.
Qed.

Lemma updateBots_triple s j :
  triple (during s j) updateBots (fun _ => during s j).
Proof.
  intros w Hw. unfold updateBots. unfold bind at 1, get.
  apply triple_forEachKey; [|exact Hw]. intros key Hkey.
  destruct (during_key s j w key Hw Hkey) as [b Hin].
  eapply triple_bind_pure; [exact (getPlayer_triple s j key b Hin)|].
  intros player (Hbot & _). destruct (isBot player); [|now apply triple_ret].
  subst b. destruct (match worm player with Some o => isAlive o | None => false end);
    [now apply updateBotAI_triple|now apply triple_ret].
Qed.

(** *** Movement *)

Lemma moveWorms_triple s j fuel now :
  triple (during s j) (moveWorms fuel now) (fun _ => during s j).
Proof.
  intros w Hw. unfold moveWorms. unfold bind at 1, get.
  apply triple_forEachKey; [|exact Hw]. intros key Hkey.
  destruct (during_key s j w key Hw Hkey) as [b Hin].
  clear w Hw Hkey. intros w Hw. unfold bind at 1, getPlayer.
  destruct (during_registered s j w key b Hw Hin) as (p & Hp & Hbot).
  rewrite Hp. destruct (worm p) as [o|] eqn:Ho; [|exact Hw].
  destruct (isAlive o); [|exact Hw]. unfold bind, lift, modify.
  destruct (updateWorm fuel now o) as [o'| |] eqn:Hup;
    [|exact I|now apply updateWorm_no_TypeError in Hup].
  apply during_update; [exact Hw|]. intros p0 o0 Hp0 Ho0.
  rewrite Hp in Hp0. injection Hp0 as <-. rewrite Ho in Ho0. injection Ho0 as <-.
  destruct (during_lookup s j w key p Hw Hp) as (_ & _ & o1 & Ho1 & Hok).
  rewrite Ho in Ho1. injection Ho1 as <-.
  exact (wormOk_updateWorm fuel now _ o o' Hup Hok).
Qed.

(** *** Collisions *)

Lemma eatFood_triple s j now key b f :
  (key, b) ∈ s ->
  triple (during s j) (eatFood now key f) (fun _ => during s j).
Proof.
  intros Hin. unfold eatFood.
  eapply triple_bind_pure; [exact (getPlayer_triple s j key b Hin)|].
  intros player (Hbot & _).
  apply triple_bind_keep.
  { apply triple_modify. intros w Hw. now apply (during_other s j w). }
  intros ?. apply triple_bind_keep.
  { apply triple_modify. intros w Hw. apply during_touch; [exact Hw|].
    intros. now apply wormOk_score. }
  intros ?. apply triple_bind_keep; [apply spawnFood_triple|]. intros ?.
  apply triple_bind_keep.
  { destruct (eqb _ FOOD_TYPE_POWER).
    - apply triple_modify. intros w Hw. apply during_touch; [exact Hw|].
      intros. now apply wormOk_boost.
    - destruct (eqb _ FOOD_TYPE_MAGNET); [|now apply triple_ret].
      apply triple_bind_keep.
      + apply triple_modify. intros w Hw. apply during_touch; [exact Hw|].
        intros. now apply wormOk_magnet.
      + intros ?. apply triple_modify. intros w Hw.
        now apply (during_other s j w). }
  intros ?. destruct (isBot player); [|now apply triple_ret]. subst b.
  eapply triple_bind_pure; [exact (getWorm_triple s j key true Hin)|].
  intros o (_ & Hbs & _). destruct (botState o) as [bs|]; [|now destruct Hbs].
  destruct (match targetFoodId bs with Some t => _ | None => false end);
    [now apply updateBotState_triple|now apply triple_ret].
Qed.

Lemma scanFood_triple s now key b head :
  (key, b) ∈ s ->
  forall jPlus1 ate,
    triple (during s jPlus1) (scanFood now key head jPlus1 ate)
           (fun _ => during s 0).
Proof.
  intros Hin. induction jPlus1 as [|j IH]; intros ate; cbn [scanFood];
    [now apply triple_ret|].
  intros w Hw. unfold bind at 1, get.
  destruct (food w !! j) as [f|] eqn:Hf.
  2:{ apply lookup_ge_None in Hf. destruct Hw as (_ & _ & Hj). lia. }
  revert w Hw Hf.
  lazymatch goal with
  | |- forall w, _ -> _ -> match ?c w with _ => _ end =>
      enough (triple (during s (S j)) c (fun _ => during s 0)) as Ht
        by (intros w Hw _; exact (Ht w Hw))
  end.
  apply triple_bind_keep.
  { eapply triple_weaken; [| |exact (getWorm_triple s (S j) key b Hin)];
      [auto|now intros o w [Hw _]]. }
  intros o. destruct (distSqBelow _ _ _ _ _).
  - eapply triple_bind with (Q := fun _ => during s j).
    { apply triple_modify. intros w Hw. now apply during_delete. }
    intros ?. apply triple_bind_keep; [now apply (eatFood_triple s j now key b)|].
    intros ?. apply triple_bind_keep.
    { eapply triple_weaken; [| |exact (getWorm_triple s j key b Hin)];
        [auto|now intros o' w [Hw _]]. }
    intros o'. destruct (negb (isMagnetActive o')); [|apply IH].
    apply triple_ret. intros w Hw. apply (during_le s j 0 w Hw). lia.
  - eapply triple_weaken; [| |apply (IH ate)]; [|auto].
    intros w Hw. apply (during_le s (S j) j w Hw). lia.
Qed.

Lemma length_removelast {A} (l : list A) :
  length (removelast l) = (length l - 1)%nat.
Proof.
  destruct l as [|x l]; [reflexivity|]. rewrite length_removelast_cons. cbn. lia.
Qed.

Lemma foodCollision_triple s now key b :
  (key, b) ∈ s ->
  triple (during s 0) (foodCollision now key) (fun _ => during s 0).
Proof.
  intros Hin. unfold foodCollision.
  apply triple_bind_keep.
  { eapply triple_weaken; [| |exact (getWorm_triple s 0 key b Hin)];
      [auto|now intros o w [Hw _]]. }
  intros o. destruct (segments o) as [|head rest]; [now apply triple_ret|].
  intros w Hw. unfold bind at 1, get.
  assert (during s (length (food w)) w) as Hw'.
  { destruct Hw as (Hs & Hshape & _). split; [exact Hs|]. split; [exact Hshape|lia]. }
  pose proof (scanFood_triple s now key b head Hin (length (food w)) false w Hw')
    as Hscan.
  unfold bind at 1.
  destruct (scanFood now key head (length (food w)) false w) as [[ate w1]| |];
    [|exact I|exact Hscan].
  unfold bind at 1, getWorm, bind at 1, getPlayer.
  destruct (during_registered s 0 w1 key b Hscan Hin) as (p & Hp & Hbot).
  rewrite Hp.
  destruct (during_lookup s 0 w1 key p Hscan Hp) as (_ & _ & o' & Ho' & Hok).
  rewrite Ho'. unfold ret.
  destruct (negb ate && (WORM_INITIAL_LENGTH <? length (segments o'))%nat)
    eqn:Hpop; [|exact Hscan].
  apply andb_true_iff in Hpop as [_ Hlong]. apply Nat.ltb_lt in Hlong.
  unfold modify. apply during_update; [exact Hscan|].
  intros p0 o0 Hp0 Ho0. rewrite Hp in Hp0. injection Hp0 as <-.
  rewrite Ho' in Ho0. injection Ho0 as <-.
  destruct Hok as (Hlen & Hbs & Hpos & Hdiv). unfold wormOk.
  cbn [isAlive segments botState score set_segments].
  repeat split; auto. intros _. rewrite length_removelast. lia.
Qed.

Lemma killAndMark_triple s j fuel key player :
  triple (during s j) (killAndMark fuel key player) (fun _ => during s j).
Proof.
  unfold killAndMark. apply triple_bind_keep; [apply killPlayer_triple|].
  intros ?. apply triple_modify. intros w Hw. apply during_touch; [exact Hw|].
  intros. now apply wormOk_dead.
Qed.

Lemma wormCollision_triple s j fuel living key b :
  (key, b) ∈ s ->
  triple (during s j) (wormCollision fuel living key) (fun _ => during s j).
Proof.
  intros Hin. unfold wormCollision.
  assert (triple (during s j) (getWorm key) (fun _ => during s j)) as Hget.
  { eapply triple_weaken; [| |exact (getWorm_triple s j key b Hin)];
      [auto|now intros o w [Hw _]]. }
  apply triple_bind_keep.
  { eapply triple_weaken; [| |exact (getPlayer_triple s j key b Hin)];
      [auto|now intros p w [Hw _]]. }
  intros player. apply triple_bind_keep; [exact Hget|]. intros o.
  destruct (segments o) as [|head rest]; [now apply triple_ret|].
  destruct (_ || _); [apply killAndMark_triple|].
  destruct (negb (isAlive o)); [now apply triple_ret|].
  apply triple_bind_keep.
  { destruct (hitsSelf _ _); [apply killAndMark_triple|now apply triple_ret]. }
  intros ?. apply triple_bind_keep; [exact Hget|]. intros o'.
  destruct (negb (isAlive o')); [now apply triple_ret|].
  apply triple_bind_keep; [now apply triple_get|]. intros w0.
  destruct (hitsOther _ _ _ _); [apply killAndMark_triple|now apply triple_ret].
Qed.

Lemma livingWormKeys_registered ps key :
  key ∈ livingWormKeys ps -> key ∈ map fst ps.
Proof.
  unfold livingWormKeys. intros Hin.
  apply list_elem_of_fmap in Hin as (kp & -> & Hin).
  apply list_elem_of_In, List.filter_In in Hin as [Hin _].
  apply list_elem_of_fmap. exists kp. split; [reflexivity|].
  now apply list_elem_of_In.
Qed.

Lemma checkCollisions_triple s fuel now :
  triple (during s 0) (checkCollisions fuel now) (fun _ => during s 0).
Proof.
  intros w Hw. unfold checkCollisions. unfold bind at 1, get.
  assert (forall key, key ∈ livingWormKeys (players w) -> exists b, (key, b) ∈ s)
    as Hkeys.
  { intros key Hkey. apply (during_key s 0 w key Hw).
    now apply livingWormKeys_registered. }
  set (living := livingWormKeys (players w)) in *. clearbody living.
  revert w Hw.
  lazymatch goal with
  | |- forall w, _ -> match ?c w with _ => _ end =>
      enough (triple (during s 0) c (fun _ => during s 0)) as Ht
        by (intros w Hw; exact (Ht w Hw))
  end.
  apply triple_bind_keep.
  { apply triple_modify. intros w Hw. now apply (during_other s 0 w). }
  intros ?. apply triple_bind_keep.
  - apply triple_forEachKey. intros key Hkey. destruct (Hkeys key Hkey) as [b Hin].
    now apply (foodCollision_triple s now key b).
  - intros ?. apply triple_forEachKey. intros key Hkey.
    destruct (Hkeys key Hkey) as [b Hin].
    now apply (wormCollision_triple s 0 fuel living key b).
Qed.


(** *** The tick and the events *)

Lemma sound_triple {A} (c : M num A) :
  (forall s, triple (during s 0) c (fun _ => during s 0)) ->
  triple sound c (fun _ => sound).
Proof.
  intros Hc w Hw. specialize (Hc (shape w) w (sound_during w Hw)).
  destruct (c w) as [[a w']| |]; [|exact I|exact Hc]. exact (during_sound _ _ _ Hc).
Qed.

Lemma sound_other (w w' : World num) :
  sound w -> players w' = players w -> food w' = food w -> sound w'.
Proof. intros Hw Hp Hf. unfold sound. now rewrite Hp, Hf. Qed.

#[local] Instance sound_Calm : Calm sound.
Proof.
  split.
  - intros w n Hw. now apply (sound_other w).
  - now intros w (_ & Hok & _).
Qed.

Lemma sound_registryOk (w : World num) : sound w -> registryOk (players w).
Proof.
  intros (Hnd & Hok & _). split; [exact Hnd|].
  eapply Forall_impl; [exact Hok|]. now intros kp [Hid _].
Qed.

Lemma sound_store (w : World num) key p :
  sound w -> playerOk (key, p) ->
  sound (set_players (storePlayer key p (players w)) w).
Proof.
  intros Hw Hp. pose proof (sound_registryOk w Hw) as Hreg.
  destruct Hw as (Hnd & Hok & Hcap). unfold sound. cbn [players food set_players].
  split; [|split; [now apply storePlayer_Forall|exact Hcap]].
  destruct Hp as [Hid _]. now apply storePlayer_registryOk.
Qed.

Lemma sound_delete (w : World num) key :
  sound w -> sound (set_players (deletePlayer key (players w)) w).
Proof.
  intros Hw. pose proof (sound_registryOk w Hw) as Hreg.
  destruct Hw as (Hnd & Hok & Hcap). unfold sound. cbn [players food set_players].
  split; [now apply deletePlayer_registryOk|]. split; [|exact Hcap].
  rewrite Forall_forall in *. intros kp Hin. apply Hok.
  clear - Hin. induction (players w) as [|[k q] ps IH]; cbn in Hin; [exact Hin|].
  destruct (String.eqb k key); [now right|].
  apply elem_of_cons in Hin as [->|Hin]; [left|right; now apply IH].
Qed.

(** The placeholder that [addBot] and the connection handler store. *)
Lemma placeholder_ok key name bot (c : Color num) bs :
  (bot = true -> bs <> None) ->
  playerOk (key, mkPlayer key name bot
                   (Some (mkWorm [] (of_Z 0) (of_Z 0) c 0 false false 0 false bs))).
Proof.
  intros Hbs. split; [reflexivity|]. eexists. split; [reflexivity|].
  unfold wormOk. cbn. repeat split; auto; [discriminate|lia|apply Z.divide_0_r].
Qed.

Lemma addBot_triple : triple sound addBot (fun _ => sound).
Proof.
  intros w Hw. unfold addBot. unfold bind at 1, get.
  lazymatch goal with
  | |- match ?c w with _ => _ end =>
      assert (triple sound c (fun _ => sound)) as Ht; [|exact (Ht w Hw)]
  end.
  apply triple_bind_keep.
  { apply triple_modify. intros w' Hw'. now apply (sound_other w'). }
  intros ?. apply triple_bind_keep; [apply getRandomColor_triple; exact _|].
  intros c. apply triple_bind_keep.
  { apply triple_modify. intros w' Hw'. apply sound_store; [exact Hw'|].
    apply placeholder_ok. discriminate. }
  intros ?. apply sound_triple. intros s. apply resetPlayer_triple.
Qed.

Lemma removeBot_triple botId : triple sound (removeBot botId) (fun _ => sound).
Proof.
  intros w Hw. unfold removeBot. unfold bind at 1, get.
  destruct (lookupPlayer botId (players w)) as [p|]; [|exact Hw].
  destruct (isBot p); [|exact Hw]. unfold modify.
  apply (sound_other (set_players (deletePlayer botId (players w)) w));
    [now apply sound_delete|reflexivity|reflexivity].
Qed.

Lemma manageBots_triple : triple sound manageBots (fun _ => sound).
Proof.
  intros w Hw. unfold manageBots. unfold bind at 1, get.
  destruct (_ <? _)%nat; [exact (addBot_triple w Hw)|].
  destruct (_ && _); [|exact Hw].
  destruct (_ <? _)%nat; [|exact Hw].
  lazymatch goal with
  | |- match ?c w with _ => _ end =>
      assert (triple sound c (fun _ => sound)) as Ht; [|exact (Ht w Hw)]
  end.
  apply triple_bind_keep; [apply random_triple; exact _|]. intros r.
  destruct (toIndex _) as [i|]; [|now apply triple_ret].
  destruct (_ !! i); [apply removeBot_triple|now apply triple_ret].
Qed.

Lemma gameLoop_triple fuel now :
  triple sound (gameLoop fuel now) (fun _ => sound).
Proof.
  unfold gameLoop.
  apply triple_bind_keep; [apply manageBots_triple|]. intros ?.
  apply triple_bind_keep; [apply sound_triple; intros s; apply updateBots_triple|].
  intros ?.
  apply triple_bind_keep; [apply sound_triple; intros s; apply moveWorms_triple|].
  intros ?.
  apply triple_bind_keep;
    [apply sound_triple; intros s; apply checkCollisions_triple|].
  intros ?. apply triple_bind_keep; [now apply triple_get|]. intros w.
  now apply triple_ret.
Qed.

Lemma onPlayerInput_triple socketId data :
  triple sound (onPlayerInput socketId data) (fun _ => sound).
Proof.
  intros w Hw. unfold onPlayerInput. unfold bind at 1, get.
  destruct (_ && _); [|exact Hw].
  destruct (getProperty "angle" data) as [| | |a| |]; try exact Hw.
  destruct (isFinite a); [|exact Hw]. unfold modify.
  apply (during_sound (shape w) 0).
  apply during_touch; [now apply sound_during|].
  intros. now apply wormOk_targetAngle.
Qed.

Lemma onConnection_triple socketId :
  triple sound (onConnection socketId) (fun _ => sound).
Proof.
  unfold onConnection.
  apply triple_bind_keep; [apply getRandomColor_triple; exact _|]. intros c.
  apply triple_bind_keep.
  { apply triple_modify. intros w Hw. apply sound_store; [exact Hw|].
    apply placeholder_ok. discriminate. }
  intros ?. apply triple_bind_keep.
  { apply sound_triple. intros s. apply resetPlayer_triple. }
  intros ?. apply triple_modify. intros w Hw. now apply (sound_other w).
Qed.

(** Every registered player has a worm. *)
Lemma sound_worm (w : World num) key p :
  sound w -> lookupPlayer key (players w) = Some p ->
  exists o, worm p = Some o /\ wormOk (isBot p) o.
Proof.
  intros Hw Hp.
  now destruct (during_lookup _ 0 w key p (sound_during w Hw) Hp) as (_ & _ & Ho).
Qed.

Lemma respawnIfDead_triple pId :
  triple sound
    (let! w := get in
     match lookupPlayer pId (players w) with
     | Some player =>
         match worm player with
         | Some o => if negb (isAlive o) then resetPlayer pId else ret tt
         | None => throw
         end
     | None => ret tt
     end) (fun _ => sound).
Proof.
  intros w Hw. unfold bind at 1, get.
  destruct (lookupPlayer pId (players w)) as [player|] eqn:Hp; [|exact Hw].
  destruct (sound_worm w pId player Hw Hp) as (o & -> & _).
  destruct (negb (isAlive o)); [|exact Hw].
  apply (sound_triple (resetPlayer pId)); [|exact Hw].
  intros s. apply resetPlayer_triple.
Qed.

Lemma onRespawn_triple socketId :
  triple sound (onRespawn socketId) (fun _ => sound).
Proof. apply respawnIfDead_triple. Qed.

Lemma onDisconnect_triple socketId :
  triple sound (onDisconnect socketId) (fun _ => sound).
Proof.
  unfold onDisconnect. apply triple_modify. intros w Hw. now apply sound_delete.
Qed.

Lemma onSetPlayerName_triple socketId name :
  triple sound (onSetPlayerName socketId name) (fun _ => sound).
Proof.
  intros w Hw. unfold onSetPlayerName. unfold bind at 1, get.
  destruct (lookupPlayer socketId (players w)) as [player|] eqn:Hp; [|exact Hw].
  destruct name as [| | | |n|]; try exact Hw.
  destruct (negb _); [|exact Hw]. unfold modify.
  apply sound_store; [exact Hw|].
  destruct (during_lookup _ 0 w socketId player (sound_during w Hw) Hp)
    as (_ & Hid & Ho).
  split; [exact Hid|exact Ho].
Qed.

Lemma fireTimer_triple t : triple sound (fireTimer t) (fun _ => sound).
Proof.
  destruct t as [pId ms|pId ms]; cbn [fireTimer];
    [apply respawnIfDead_triple|].
  apply triple_modify. intros w Hw. apply (during_sound (shape w) 0).
  apply during_touch; [now apply sound_during|].
  intros b o Hok. destruct (isMagnetActive o); [now apply wormOk_magnet|exact Hok].
Qed.

Lemma handle_triple e : triple sound (handle e) (fun _ => sound).
Proof.
  destruct e; cbn [handle].
  - apply sound_triple. intros s. apply spawnFood_triple.
  - apply addBot_triple.
  - apply triple_bind_keep; [apply gameLoop_triple|]. intros ?.
    now apply triple_ret.
  - apply onConnection_triple.
  - apply onPlayerInput_triple.
  - apply onRespawn_triple.
  - apply onDisconnect_triple.
  - apply onSetPlayerName_triple.
  - apply fireTimer_triple.
Qed.

Lemma emptyWorld_sound : sound (emptyWorld (num:=num)).
Proof.
  split; [constructor|]. split; [constructor|]. cbn. unfold MAX_FOOD. lia.
Qed.

Lemma later_sound (w w' : World num) : later w w' -> sound w -> sound w'.
Proof.
  induction 1 as [w|w e w1 w' _ Hrun _ IH]; [auto|]. intros Hw. apply IH.
  pose proof (handle_triple e w Hw) as Ht. now rewrite Hrun in Ht.
Qed.

Lemma reachable_sound (w : World num) : reachable w -> sound w.
Proof. intros Hw. exact (later_sound _ _ Hw emptyWorld_sound). Qed.


(** The registry of a server that has handled any events is as a JavaScript
    object that the code fills has it: no key twice, and under each key the
    player whose [id] is that key. *)
Theorem registry_keys_are_player_ids (w : World num) :
  reachable w -> registryOk (players w).
Proof. intros Hw. apply sound_registryOk, reachable_sound, Hw. Qed.

(** Every registered player has a worm; a living worm has
    [WORM_INITIAL_LENGTH] segments or more (so it has a head), and the worm
    of a bot has a [botState]. *)
Theorem living_worms_have_initial_length (w : World num) :
  reachable w ->
  Forall (fun kp : string * Player num =>
            exists o,
              worm (snd kp) = Some o
              /\ (isAlive o = true ->
                  (WORM_INITIAL_LENGTH <= length (segments o))%nat)
              /\ (isBot (snd kp) = true -> is_Some (botState o)))
         (players w).
Proof.
  intros Hw. destruct (reachable_sound w Hw) as (_ & Hok & _).
  eapply Forall_impl; [exact Hok|].
  intros kp (_ & o & Ho & Hlen & Hbot & _). exists o.
  split; [exact Ho|]. split; [exact Hlen|]. intros Hb.
  destruct (botState o); [eauto|now destruct (Hbot Hb)].
Qed.

(** The food list never has more than [MAX_FOOD] items. *)
Theorem food_never_exceeds_MAX_FOOD (w : World num) :
  reachable w -> (length (food w) <= MAX_FOOD)%nat.
Proof. intros Hw. now destruct (reachable_sound w Hw) as (_ & _ & Hcap). Qed.

(** A score is [FOOD_SCORE] times a number of items. *)
Theorem scores_are_multiples_of_FOOD_SCORE (w : World num) :
  reachable w ->
  Forall (fun kp : string * Player num =>
            forall o, worm (snd kp) = Some o ->
                      exists n : nat, score o = (FOOD_SCORE * Z.of_nat n)%Z)
         (players w).
Proof.
  intros Hw. destruct (reachable_sound w Hw) as (_ & Hok & _).
  eapply Forall_impl; [exact Hok|].
  intros kp (_ & o & Ho & _ & _ & Hpos & z & Hz) o' Ho'.
  rewrite Ho in Ho'. injection Ho' as <-. exists (Z.to_nat z).
  unfold FOOD_SCORE in *. rewrite Z2Nat.id; lia.
Qed.

(** No event makes the server throw a [TypeError]: neither a tick of the
    game loop, nor a socket event with any payload, nor a timer. *)
Theorem handlers_never_throw (w : World num) (e : Event) :
  reachable w -> handle e w <> TypeError.
Proof.
  intros Hw Hthrow. pose proof (handle_triple e w (reachable_sound w Hw)) as Ht.
  now rewrite Hthrow in Ht.
Qed.

End Sound.

Section SoundExamples.

(** The world after one [addBot()] at start-up, on doubles and with the
    sample draws. *)
Definition botWorld : World f64 :=
  match addBot (H0:=sampleTrig) (H1:=sampleRandom) emptyWorld with
  | Ok (_, w) => w
  | _ => emptyWorld
  end.

Lemma botWorld_reachable :
  reachable (H0:=sampleTrig) (H1:=sampleRandom) botWorld.
Proof.
  apply (later_event (H0:=sampleTrig) (H1:=sampleRandom)
           emptyWorld StartBot botWorld botWorld); [exact I| |apply later_now].
  vm_compute. reflexivity.
Defined.

Lemma registry_keys_are_player_ids_witness : registryOk (players botWorld).
Proof.
  exact (registry_keys_are_player_ids (H0:=sampleTrig) (H1:=sampleRandom)
           botWorld botWorld_reachable).
Defined.

Lemma living_worms_have_initial_length_witness :
  map (fun kp : string * Player f64 =>
         (fst kp,
          option_map (fun o => (isAlive o, length (segments o))) (worm (snd kp))))
      (players botWorld) = [("bot_0"%string, Some (true, 100%nat))]
  /\ Forall (fun kp : string * Player f64 =>
               exists o,
                 worm (snd kp) = Some o
                 /\ (isAlive o = true ->
                     (WORM_INITIAL_LENGTH <= length (segments o))%nat)
                 /\ (isBot (snd kp) = true -> is_Some (botState o)))
            (players botWorld).
Proof.
  split; [vm_compute; reflexivity|].
  exact (living_worms_have_initial_length (H0:=sampleTrig) (H1:=sampleRandom)
           botWorld botWorld_reachable).
Defined.

Lemma food_never_exceeds_MAX_FOOD_witness :
  (length (food fedWorld) <= MAX_FOOD)%nat.
Proof.
  exact (food_never_exceeds_MAX_FOOD (H0:=sampleTrig) (H1:=sampleRandom)
           fedWorld fedWorld_reachable).
Defined.

Lemma scores_are_multiples_of_FOOD_SCORE_witness :
  Forall (fun kp : string * Player f64 =>
            forall o, worm (snd kp) = Some o ->
                      exists n : nat, score o = (FOOD_SCORE * Z.of_nat n)%Z)
         (players botWorld).
Proof.
  exact (scores_are_multiples_of_FOOD_SCORE (H0:=sampleTrig) (H1:=sampleRandom)
           botWorld botWorld_reachable).
Defined.

Lemma handlers_never_throw_witness :
  handle (H0:=sampleTrig) (H1:=sampleRandom) (Tick 10 0) botWorld <> TypeError.
Proof.
  exact (handlers_never_throw (H0:=sampleTrig) (H1:=sampleRandom)
           botWorld (Tick 10 0) botWorld_reachable).
Defined.

End SoundExamples.

(* ================================================================== *)
(** ** What [spawnFood] appends *)

Section Spawned.
Context {num : Type} `{JsNumber num} `{RandomSource num}.

#[local] Existing Instance onlyRandom_RandomTolerant.

(** A position as [getRandomSpawnPositionXY(margin)] computes it from two
    draws. *)
Definition drawnAt (margin : num) (p : num * num) : Prop :=
  exists n1 n2,
    p = (add (mul (Math_random n1) (sub WORLD_WIDTH (mul (of_Z 2) margin))) margin,
         add (mul (Math_random n2) (sub WORLD_HEIGHT (mul (of_Z 2) margin))) margin).

(** An item as [spawnFood] makes it: on the ground, of the one radius, at a
    position drawn with the margin [FOOD_RADIUS * 4], or [FOOD_RADIUS * 2]
    when no clear spot was found. *)
Definition spawnedItem (f : Food num) : Prop :=
  food_z f = WORLD_GROUND_Z /\ food_radius f = FOOD_RADIUS
  /\ (drawnAt (mul FOOD_RADIUS (of_Z 4)) (food_x f, food_y f)
      \/ drawnAt (mul FOOD_RADIUS (of_Z 2)) (food_x f, food_y f)).

Lemma getRandomSpawnPositionXY_spec margin (w w' : World num) p :
  getRandomSpawnPositionXY margin w = Ok (p, w') ->
  onlyRandom w w' /\ drawnAt margin p.
Proof.
  unfold getRandomSpawnPositionXY, bind, random, ret. intros [= <- <-].
  split; [eexists; reflexivity|]. now eexists _, _.
Qed.

Lemma findClearSpot_spec k : forall (w w' : World num) found,
  findClearSpot k w = Ok (found, w') ->
  onlyRandom w w'
  /\ forall p, found = Some p -> drawnAt (mul FOOD_RADIUS (of_Z 4)) p.
Proof.
  induction k as [|k IH]; intros w w' found; cbn [findClearSpot].
  - intros [= <- <-]. split; [reflexivity|discriminate].
  - unfold bind at 1.
    destruct (getRandomSpawnPositionXY _ w) as [[pos w1]| |] eqn:Hpos;
      try discriminate.
    apply getRandomSpawnPositionXY_spec in Hpos as [Hw1 Hdrawn].
    unfold bind at 1.
    destruct (isSpawnPositionClear _ _ w1) as [[clear w2]| |] eqn:Hclear;
      try discriminate.
    apply (isSpawnPositionClear_preserves onlyRandom) in Hclear.
    destruct clear.
    + intros [= <- <-]. split; [now transitivity w1|]. now intros p [= <-].
    + intros Hrest. apply IH in Hrest as [Hw' Hfound].
      split; [|exact Hfound]. transitivity w1; [exact Hw1|].
      now transitivity w2.
Qed.

(** One iteration of [spawnFood]: what it writes. *)
Lemma spawnOneFood_exact (w w' : World num) :
  spawnOneFood w = Ok (tt, w') ->
  exists n f,
    w' = set_food (food w ++ [f])
           (set_nextFoodId (N.succ (nextFoodId w)) (set_randomCalls n w))
    /\ food_id f = foodIdOf (nextFoodId w) /\ spawnedItem f.
Proof.
  unfold spawnOneFood. unfold bind at 1.
  destruct (findClearSpot 15 w) as [[found w1]| |] eqn:E1; try discriminate.
  apply findClearSpot_spec in E1 as [[n1 ->] Hfound].
  unfold bind at 1.
  destruct (match found with
            | Some p => ret p
            | None => getRandomSpawnPositionXY (mul FOOD_RADIUS (of_Z 2))
            end (set_randomCalls n1 w)) as [[spawnPos w2]| |] eqn:E2;
    try discriminate.
  assert (onlyRandom (set_randomCalls n1 w) w2
          /\ (drawnAt (mul FOOD_RADIUS (of_Z 4)) spawnPos
              \/ drawnAt (mul FOOD_RADIUS (of_Z 2)) spawnPos)) as [[n2 ->] Hpos].
  { destruct found as [p|].
    - injection E2 as <- <-. split; [reflexivity|left; now apply Hfound].
    - apply getRandomSpawnPositionXY_spec in E2 as [Hw2 Hd]. now split; [|right]. }
  cbn. intros [= <-]. eexists _, _. split; [reflexivity|].
  split; [reflexivity|]. split; [reflexivity|]. split; [reflexivity|].
  cbn [food_x food_y]. now destruct spawnPos.
Qed.

(** The ids from the counter value [n] on. *)
Definition idsFrom (n : N) (k : nat) : list string :=
  map (fun i => foodIdOf (n + N.of_nat i)) (seq 0 k).

Lemma idsFrom_S n k : idsFrom n (S k) = foodIdOf n :: idsFrom (N.succ n) k.
Proof.
  unfold idsFrom. cbn [seq map]. rewrite N.add_0_r. f_equal.
  rewrite <- seq_shift, map_map. apply map_ext. intros i. f_equal. lia.
Qed.

(** What a run of [spawnFood] leaves: the new items at the end of the food
    list, the counter moved on by their number. *)
Lemma spawnFood_exact (count : nat) (w w' : World num) :
  spawnFood count w = Ok (tt, w') ->
  exists new n,
    w' = set_food (food w ++ new)
           (set_nextFoodId (nextFoodId w + N.of_nat (length new))
                           (set_randomCalls n w))
    /\ length new = Nat.min count (MAX_FOOD - length (food w))
    /\ map food_id new = idsFrom (nextFoodId w) (length new)
    /\ Forall spawnedItem new.
Proof.
  revert w w'. induction count as [|count IH]; intros w w'; cbn [spawnFood].
  - intros [= <-]. exists [], (randomCalls w). rewrite app_nil_r, N.add_0_r.
    split; [now destruct w|]. now repeat split.
  - unfold bind at 1, get.
    destruct (MAX_FOOD <=? length (food w))%nat eqn:Hfull.
    + intros [= <-]. apply Nat.leb_le in Hfull.
      exists [], (randomCalls w). rewrite app_nil_r, N.add_0_r.
      split; [now destruct w|]. split; [cbn [length]; lia|]. now split.
    + apply Nat.leb_gt in Hfull. unfold bind at 1.
      destruct (spawnOneFood w) as [[[] w1]| |] eqn:E1; try discriminate.
      apply spawnOneFood_exact in E1 as (n1 & f & -> & Hid & Hitem).
      intros Hrest. apply IH in Hrest as (new & n & -> & Hlen & Hids & Hall).
      cbn [food nextFoodId set_food set_nextFoodId set_randomCalls] in *.
      rewrite length_app in Hlen. cbn [length] in Hlen.
      exists (f :: new), n. split.
      { unfold set_food, set_nextFoodId, set_randomCalls.
        cbn [players food eatenFoodThisTick nextFoodId nextBotId randomCalls
             timers emitted length].
        f_equal; [now rewrite <- app_assoc|lia]. }
      split; [cbn [length]; lia|]. split; [|now constructor].
      cbn [length map]. rewrite idsFrom_S, Hid, Hids. reflexivity.
Qed.

(** [spawnFood(count)] appends items until it has appended [count] of them
    or the list has [MAX_FOOD]; their ids are the next values of the counter,
    in order; every one of them is on the ground, has the radius
    [FOOD_RADIUS] and a place drawn by [getRandomSpawnPositionXY]; nothing
    but the food list, the counter and the count of draws changes. *)
Theorem spawnFood_appends_up_to_MAX_FOOD (count : nat) (w w' : World num) :
  spawnFood count w = Ok (tt, w') ->
  exists new n,
    w' = set_food (food w ++ new)
           (set_nextFoodId (nextFoodId w + N.of_nat (length new))
                           (set_randomCalls n w))
    /\ length new = Nat.min count (MAX_FOOD - length (food w))
    /\ map food_id new = idsFrom (nextFoodId w) (length new)
    /\ Forall spawnedItem new.
Proof. apply spawnFood_exact. Qed.

End Spawned.

Section SpawnedExact.
Context {rs : RandomSource Q}.
Local Open Scope Q_scope.

(** With draws in [0, 1), a position drawn with the margin [m] is at least
    [m] inside the world. *)
Lemma drawnAt_inside (m x y : Q) :
  (forall n, 0 <= Math_random n /\ Math_random n < 1) ->
  0 <= m -> m < 1500 -> drawnAt m (x, y) ->
  (m <= x /\ x < 3000 - m) /\ (m <= y /\ y < 3000 - m).
Proof.
  intros Hrandom Hm0 Hm1 (n1 & n2 & [= -> ->]).
  destruct (Hrandom n1) as [Hx0 Hx1]. destruct (Hrandom n2) as [Hy0 Hy1].
  change (add ?a ?b) with (a + b). change (mul ?a ?b) with (a * b).
  change (sub ?a ?b) with (a - b).
  change WORLD_WIDTH with 3000. change WORLD_HEIGHT with 3000.
  change (of_Z 2) with 2.
  assert (0 < 3000 - 2 * m) as Hw by lra.
  assert (forall r, 0 <= r -> r < 1 ->
            0 <= r * (3000 - 2 * m) /\ r * (3000 - 2 * m) < 3000 - 2 * m)
    as Hscale.
  { intros r Hr0 Hr1. split; [apply Qmult_le_0_compat; lra|].
    assert (0 < (1 - r) * (3000 - 2 * m)) as Hgap
      by (apply Qmult_lt_0_compat; lra).
    lra. }
  destruct (Hscale _ Hx0 Hx1). destruct (Hscale _ Hy0 Hy1).
  change (inject_Z 3000) with 3000. change (inject_Z 2) with 2.
  repeat split; lra.
Qed.

(** With draws in [0, 1), every item that [spawnFood] appends lies in the
    world, [FOOD_RADIUS * 2 = 24] or more from each edge. *)
Theorem spawnFood_places_food_inside_world (count : nat) (w w' : World Q) :
  (forall n, 0 <= Math_random n /\ Math_random n < 1) ->
  spawnFood count w = Ok (tt, w') ->
  exists new,
    food w' = food w ++ new
    /\ Forall (fun f => (24 <= food_x f /\ food_x f < 2976)
                        /\ (24 <= food_y f /\ food_y f < 2976)) new.
Proof.
  intros Hrandom Hrun.
  apply spawnFood_exact in Hrun as (new & n & -> & _ & _ & Hall).
  exists new. split; [reflexivity|].
  eapply Forall_impl; [exact Hall|]. intros f (_ & _ & [Hpos|Hpos]).
  - apply (drawnAt_inside 48) in Hpos; [|exact Hrandom|lra|lra].
    destruct Hpos as [[? ?] [? ?]]. repeat split; lra.
  - apply (drawnAt_inside 24) in Hpos; [|exact Hrandom|lra|lra].
    destruct Hpos as [[? ?] [? ?]]. repeat split; lra.
Qed.

End SpawnedExact.

(* ================================================================== *)
(** ** What [killPlayer] drops *)

Section Drops.
Context {num : Type} `{JsNumber num} `{RandomSource num}.

#[local] Existing Instance onlyRandom_RandomTolerant.

(** An item as [killPlayer] drops it for a worm of the colour [c]: at one of
    the segments whose index is a multiple of [FOOD_DROP_INTERVAL] (the
    segments given are those from [index] on), of that colour, and of a type
    that is none of the three power-ups. *)
Definition droppedFrom (c : Color num) (segs : list (Point num)) (index : nat)
  (f : Food num) : Prop :=
  isSpecialFoodType (food_type f) = false
  /\ food_color f = c /\ food_radius f = FOOD_RADIUS
  /\ exists i seg,
       segs !! i = Some seg /\ ((index + i) mod FOOD_DROP_INTERVAL = 0)%nat
       /\ food_x f = pt_x seg /\ food_y f = pt_y seg /\ food_z f = pt_z seg.

(** The loop that draws again leaves it with a type that is not special. *)
Lemma redrawWhileSpecial_spec fuel : forall t (w w' : World num) t',
  redrawWhileSpecial fuel t w = Ok (t', w') ->
  onlyRandom w w' /\ isSpecialFoodType t' = false.
Proof.
  induction fuel as [|fuel IH]; intros t w w' t'; cbn [redrawWhileSpecial];
    [discriminate|].
  destruct (isSpecialFoodType t) eqn:Hspecial.
  - unfold bind at 1, randomFoodType, bind at 1, random, ret.
    intros Hrest. apply IH in Hrest as [[n ->] Ht']. split; [|exact Ht'].
    now exists n.
  - intros [= <- <-]. split; [reflexivity|exact Hspecial].
Qed.

(** What changes in [dropFoodFrom]: the food list, its counter, the count
    of draws. *)
Definition onlyFood (w w' : World num) : Prop :=
  players w' = players w /\ eatenFoodThisTick w' = eatenFoodThisTick w
  /\ nextBotId w' = nextBotId w /\ timers w' = timers w
  /\ emitted w' = emitted w.

Lemma dropFoodFrom_spec fuel c segs : forall index (w w' : World num),
  dropFoodFrom fuel c index segs w = Ok (tt, w') ->
  onlyFood w w'
  /\ exists dropped,
       food w' = food w ++ dropped
       /\ Forall (droppedFrom c segs index) dropped
       /\ (length (food w') <= Nat.max MAX_FOOD (length (food w)))%nat.
Proof.
  induction segs as [|seg segs IH]; intros index w w'; cbn [dropFoodFrom].
  { intros [= <-]. split; [now repeat split|]. exists [].
    rewrite app_nil_r. repeat split; [constructor|lia]. }
  unfold bind at 1.
  lazymatch goal with
  | |- match ?c w with _ => _ end = _ -> _ =>
      destruct (c w) as [[[] w1]| |] eqn:Hone; try discriminate
  end.
  assert (onlyFood w w1
          /\ exists d1,
               food w1 = food w ++ d1
               /\ Forall (droppedFrom c (seg :: segs) index) d1
               /\ (length (food w1) <= Nat.max MAX_FOOD (length (food w)))%nat)
    as (Hframe1 & d1 & Hfood1 & Hd1 & Hcap1).
  { assert (forall w1, onlyRandom w w1 ->
              onlyFood w w1
              /\ exists d1,
                   food w1 = food w ++ d1
                   /\ Forall (droppedFrom c (seg :: segs) index) d1
                   /\ (length (food w1) <= Nat.max MAX_FOOD (length (food w)))%nat)
      as Hsame.
    { intros w2 [n ->]. split; [now repeat split|]. exists [].
      cbn. rewrite app_nil_r. repeat split; [constructor|lia]. }
    revert Hone. destruct (_ =? 0)%nat eqn:Hidx;
      [|intros [= <-]; now apply Hsame].
    apply Nat.eqb_eq in Hidx.
    unfold bind at 1, random.
    destruct (ltb _ FOOD_DROP_CHANCE); [|intros [= <-]; apply Hsame; now eexists].
    unfold bind at 1, get.
    destruct (_ <? MAX_FOOD)%nat eqn:Hroom;
      [|intros [= <-]; apply Hsame; now eexists].
    apply Nat.ltb_lt in Hroom. cbn [food set_randomCalls] in Hroom.
    unfold bind at 1, randomFoodType, bind at 1, random, ret. unfold bind at 1.
    lazymatch goal with
    | |- match ?r with _ => _ end = _ -> _ =>
        destruct r as [[t' w2]| |] eqn:Hredraw; try discriminate
    end.
    apply redrawWhileSpecial_spec in Hredraw as [[n ->] Ht'].
    unfold pushFood, modify. intros [= <-].
    cbn [players eatenFoodThisTick nextBotId timers emitted food
         set_food set_nextFoodId set_randomCalls].
    split; [now repeat split|]. eexists [_]. split; [reflexivity|].
    split; [|rewrite length_app; cbn [length]; lia].
    constructor; [|constructor]. split; [exact Ht'|].
    split; [reflexivity|]. split; [reflexivity|].
    exists 0%nat, seg. rewrite Nat.add_0_r. now repeat split. }
  intros Hrest. apply IH in Hrest as (Hframe & d & Hfood & Hd & Hcap).
  split.
  { destruct Hframe1 as (? & ? & ? & ? & ?), Hframe as (? & ? & ? & ? & ?).
    repeat split; congruence. }
  exists (d1 ++ d). split; [now rewrite Hfood, Hfood1, app_assoc|].
  split; [|lia]. apply Forall_app. split; [exact Hd1|].
  eapply Forall_impl; [exact Hd|].
  intros f (Ht & Hc & Hr & i & s & Hi & Hmod & Hpos).
  split; [exact Ht|]. split; [exact Hc|]. split; [exact Hr|].
  exists (S i), s. split; [exact Hi|]. split; [|exact Hpos].
  now replace (index + S i)%nat with (S index + i)%nat by lia.
Qed.

(** What a run of [killPlayer] leaves. *)
Lemma killPlayer_exact fuel pId (w w' : World num) :
  killPlayer fuel pId w = Ok (tt, w') ->
  match lookupPlayer pId (players w) with
  | Some p =>
      match worm p with
      | Some o =>
          if isAlive o then
            players w' = updatePlayers pId (set_isAlive false) (players w)
            /\ (exists dropped,
                  food w' = food w ++ dropped
                  /\ Forall (droppedFrom (color o) (segments o) 0) dropped)
            /\ (length (food w') <= Nat.max MAX_FOOD (length (food w)))%nat
            /\ eatenFoodThisTick w' = eatenFoodThisTick w
            /\ (if isBot p
                then timers w' = timers w ++ [RespawnBot pId 5000]
                     /\ emitted w' = emitted w
                else emitted w' = emitted w ++ [GameOver pId (score o)]
                     /\ timers w' = timers w)
          else w' = w
      | None => w' = w
      end
  | None => w' = w
  end.
Proof.
  unfold killPlayer. unfold bind at 1, get.
  destruct (lookupPlayer pId (players w)) as [p|] eqn:Hp; [|now intros [= <-]].
  destruct (worm p) as [o|] eqn:Ho; [|now intros [= <-]].
  destruct (isAlive o); [|now intros [= <-]].
  unfold bind at 1, modify at 1. unfold bind at 1.
  destruct (dropFoodFrom _ _ _ _ _) as [[[] w1]| |] eqn:Hdrop; try discriminate.
  apply dropFoodFrom_spec in Hdrop
    as ((Hp1 & He1 & _ & Ht1 & Hm1) & dropped & Hf1 & Hall & Hcap).
  rewrite updateWormOf_eq in Hp1, He1, Ht1, Hm1, Hf1, Hcap.
  cbn [players eatenFoodThisTick timers emitted food set_players]
    in Hp1, He1, Ht1, Hm1, Hf1, Hcap.
  destruct (isBot p); cbn [negb]; unfold modify; intros [= <-];
    cbn [players eatenFoodThisTick timers emitted food set_timers set_emitted];
    rewrite Ht1, Hm1; repeat split; eauto.
Qed.

(** [killPlayer(pId)]: a player that is not registered or whose worm is not
    alive is left alone.  Otherwise the worm is marked dead, nothing else of
    the registry changes, and the food list gets items dropped at segments
    of the worm whose index is a multiple of [FOOD_DROP_INTERVAL], of the
    worm's colour and never of one of the three power-up types, as long as
    there are fewer than [MAX_FOOD]; a human is sent [gameOver] with the
    score, for a bot the respawn in 5000 ms is set. *)
Theorem killPlayer_marks_dead_and_drops_plain_food fuel pId (w w' : World num) :
  killPlayer fuel pId w = Ok (tt, w') ->
  match lookupPlayer pId (players w) with
  | Some p =>
      match worm p with
      | Some o =>
          if isAlive o then
            players w' = updatePlayers pId (set_isAlive false) (players w)
            /\ (exists dropped,
                  food w' = food w ++ dropped
                  /\ Forall (droppedFrom (color o) (segments o) 0) dropped)
            /\ (length (food w') <= Nat.max MAX_FOOD (length (food w)))%nat
            /\ eatenFoodThisTick w' = eatenFoodThisTick w
            /\ (if isBot p
                then timers w' = timers w ++ [RespawnBot pId 5000]
                     /\ emitted w' = emitted w
                else emitted w' = emitted w ++ [GameOver pId (score o)]
                     /\ timers w' = timers w)
          else w' = w
      | None => w' = w
      end
  | None => w' = w
  end.
Proof. apply killPlayer_exact. Qed.

End Drops.

(* ================================================================== *)
(** ** Spawning a worm, connecting and disconnecting *)

Section Respawn.
Context {num : Type} `{JsNumber num} `{Trig num} `{RandomSource num}.

#[local] Existing Instance onlyRandom_RandomTolerant.

(** A worm as [resetPlayer] makes it. *)
Definition freshWorm (bot : bool) (o : Worm num) : Prop :=
  isAlive o = true
  /\ length (segments o) = WORM_INITIAL_LENGTH
  /\ Forall (fun seg => pt_z seg = WORLD_GROUND_Z) (segments o)
  /\ score o = 0%Z
  /\ targetAngle o = angle o
  /\ hasSpeedBoost o = false /\ speedBoostEndTime o = 0%Z
  /\ isMagnetActive o = false
  /\ botState o = (if bot then Some (mkBotState None 0) else None).

Lemma createInitialWormSegments_ground (x y : num) len a :
  Forall (fun seg => pt_z seg = WORLD_GROUND_Z)
         (createInitialWormSegments x y len a).
Proof.
  unfold createInitialWormSegments. apply Forall_fmap, Forall_forall.
  now intros i _.
Qed.

(** What a run of [resetPlayer] leaves. *)
Lemma resetPlayer_exact pId (w w' : World num) :
  resetPlayer pId w = Ok (tt, w') ->
  match lookupPlayer pId (players w) with
  | Some p =>
      exists o n,
        freshWorm (isBot p) o
        /\ w' = set_players (storePlayer pId (set_worm (Some o) p) (players w))
                            (set_randomCalls n w)
  | None => w' = w
  end.
Proof.
  unfold resetPlayer. unfold bind at 1, get.
  destruct (lookupPlayer pId (players w)) as [p|]; [|now intros [= <-]].
  unfold bind at 1.
  destruct (findClearArea 20 w) as [[found w1]| |] eqn:E1; try discriminate.
  apply (findClearArea_random onlyRandom) in E1 as [n1 ->].
  unfold bind at 1.
  lazymatch goal with
  | |- match ?c with _ => _ end = _ -> _ =>
      destruct c as [[spawnPos w2]| |] eqn:E2; try discriminate
  end.
  assert (onlyRandom (set_randomCalls n1 w) w2) as [n2 ->].
  { destruct found.
    - injection E2 as _ <-. reflexivity.
    - now apply (getRandomSpawnPositionXY_preserves onlyRandom) in E2. }
  unfold bind, random, getRandomColor, bind, random, ret, modify.
  intros [= <-]. eexists _, _. split; [|reflexivity].
  unfold freshWorm. cbn [isAlive segments score targetAngle angle hasSpeedBoost
                         speedBoostEndTime isMagnetActive botState].
  rewrite length_createInitialWormSegments.
  repeat split. apply createInitialWormSegments_ground.
Qed.

(** [resetPlayer(pId)] does nothing for a key that is not registered.  For
    a registered player it replaces the worm by a fresh one, alive, of
    [WORM_INITIAL_LENGTH] segments on the ground, with score 0 and no
    power-up; the player keeps its id, its name and its place in the
    registry, and nothing else changes but the count of draws. *)
Theorem resetPlayer_gives_fresh_worm pId (w w' : World num) :
  resetPlayer pId w = Ok (tt, w') ->
  match lookupPlayer pId (players w) with
  | Some p =>
      exists o n,
        freshWorm (isBot p) o
        /\ w' = set_players (storePlayer pId (set_worm (Some o) p) (players w))
                            (set_randomCalls n w)
  | None => w' = w
  end.
Proof. apply resetPlayer_exact. Qed.

Lemma storePlayer_absent key (p : Player num) ps :
  lookupPlayer key ps = None -> storePlayer key p ps = ps ++ [(key, p)].
Proof.
  induction ps as [|[k q] ps IH]; cbn; [reflexivity|].
  destruct (String.eqb k key); [discriminate|]. intros Hnone. now rewrite IH.
Qed.

Lemma deletePlayer_last key (p : Player num) ps :
  lookupPlayer key ps = None -> deletePlayer key (ps ++ [(key, p)]) = ps.
Proof.
  induction ps as [|[k q] ps IH]; cbn.
  - now rewrite String.eqb_refl.
  - destruct (String.eqb k key); [discriminate|]. intros Hnone. now rewrite IH.
Qed.

(** A socket that connects is registered, last, as a human named
    ["Worm_"] and the first four characters of its id, with a fresh worm;
    it is sent [welcome].  When it disconnects next, the registry is again
    what it was before; the food is untouched by both. *)
Theorem connect_then_disconnect_restores_registry socketId (w w1 w2 : World num) :
  lookupPlayer socketId (players w) = None ->
  onConnection socketId w = Ok (tt, w1) ->
  onDisconnect socketId w1 = Ok (tt, w2) ->
  (exists o,
     freshWorm false o
     /\ players w1
        = players w
          ++ [(socketId,
               mkPlayer socketId ("Worm_" +:+ String.substring 0 4 socketId)
                        false (Some o))])
  /\ emitted w1 = emitted w ++ [Welcome socketId]
  /\ food w1 = food w
  /\ players w2 = players w /\ food w2 = food w /\ emitted w2 = emitted w1.
Proof.
  intros Hnew. unfold onConnection. unfold bind at 1, getRandomColor, bind at 1,
    random, ret. unfold bind at 1, modify at 1. unfold bind at 1.
  lazymatch goal with
  | |- match resetPlayer _ ?w0 with _ => _ end = _ -> _ =>
      destruct (resetPlayer socketId w0) as [[[] w3]| |] eqn:Hreset;
        try discriminate
  end.
  apply resetPlayer_exact in Hreset.
  cbn [players set_players set_randomCalls] in Hreset.
  rewrite lookupPlayer_storePlayer_eq in Hreset.
  destruct Hreset as (o & n & Hfresh & ->).
  rewrite storePlayer_again, (storePlayer_absent _ _ _ Hnew).
  unfold modify. intros [= <-]. unfold onDisconnect, modify. intros [= <-].
  cbn [players food emitted set_players set_emitted set_randomCalls set_worm
       player_id player_name isBot worm].
  rewrite (deletePlayer_last _ _ _ Hnew). repeat split; eauto.
Qed.

End Respawn.

(* ================================================================== *)
(** ** The worms that survive the collision checks *)

Section Survivors.
Context {num : Type} `{JsNumber num} `{RandomSource num}.
Implicit Types (ps : list (string * Player num)) (g : Worm num -> Worm num).

(** The worm under [key] is alive. *)
Definition aliveAt (key : string) (w : World num) : bool :=
  match wormOf key w with
  | Some o => isAlive o
  | None => false
  end.

(** The negation of the boundary test of [checkCollisions]. *)
Definition insideWorld (p : Point num) : bool :=
  negb (ltb (pt_x p) (of_Z 0) || gtb (pt_x p) WORLD_WIDTH
        || ltb (pt_y p) (of_Z 0) || gtb (pt_y p) WORLD_HEIGHT).

(** The head is closer than the threshold of the worm-to-worm check to one
    of the segments. *)
Definition touches (head : Point num) (segs : list (Point num)) : bool :=
  existsb (fun seg => distSqBelow (pt_x head) (pt_y head) (pt_x seg) (pt_y seg)
                        OTHER_COLLISION_THRESHOLD_SQUARED) segs.

(** The food loop: no worm dies or comes to life. *)
Definition foodPhase (w w' : World num) : Prop :=
  (registryOk (players w) -> registryOk (players w'))
  /\ forall key, aliveAt key w' = aliveAt key w.

(** The segments and the score of a worm. *)
Definition kept (o : Worm num) : list (Point num) * Z := (segments o, score o).

(** The worm loop: worms only die, no segment moves and no score changes;
    no food is eaten, and food is appended only below [MAX_FOOD]. *)
Definition wormPhase (w w' : World num) : Prop :=
  (registryOk (players w) -> registryOk (players w'))
  /\ (forall key,
        option_map kept (wormOf key w') = option_map kept (wormOf key w)
        /\ (aliveAt key w' = true -> aliveAt key w = true))
  /\ eatenFoodThisTick w' = eatenFoodThisTick w
  /\ (length (food w) <= length (food w'))%nat
  /\ (length (food w') <= Nat.max MAX_FOOD (length (food w)))%nat.

#[local] Instance foodPhase_PreOrder : PreOrder foodPhase.
Proof.
  split.
  - intros w. now split.
  - intros w1 w2 w3 [Hok12 Ha12] [Hok23 Ha23]. split; [auto|].
    intros key. now rewrite Ha23.
Qed.

#[local] Instance foodPhase_random : RandomTolerant foodPhase.
Proof. split; [exact _|]. intros w n. now split. Qed.

#[local] Instance wormPhase_PreOrder : PreOrder wormPhase.
Proof.
  split.
  - intros w. split; [auto|]. split; [now intros key|]. split; [reflexivity|lia].
  - intros w1 w2 w3 (Hok12 & H12 & He12 & Hlo12 & Hhi12)
                    (Hok23 & H23 & He23 & Hlo23 & Hhi23).
    split; [auto|]. split; [|split; [congruence|lia]].
    intros key. destruct (H12 key) as [Hs12 Ha12], (H23 key) as [Hs23 Ha23].
    split; [congruence|auto].
Qed.

Lemma wormPhase_other (w w' : World num) :
  players w' = players w -> eatenFoodThisTick w' = eatenFoodThisTick w ->
  food w' = food w -> wormPhase w w'.
Proof.
  intros Hp He Hf. unfold wormPhase, aliveAt, wormOf. rewrite Hp, He, Hf.
  split; [auto|]. split; [now intros key|]. split; [reflexivity|lia].
Qed.

#[local] Instance wormPhase_random : RandomTolerant wormPhase.
Proof. split; [exact _|]. intros. now apply wormPhase_other. Qed.

Lemma wormOf_update key k g (w : World num) :
  wormOf key (updateWormOf k g w)
  = if String.eqb key k then option_map g (wormOf key w) else wormOf key w.
Proof.
  rewrite updateWormOf_eq. unfold wormOf. cbn [players set_players].
  destruct (String.eqb_spec key k) as [->|Hne].
  - rewrite lookupPlayer_updatePlayers.
    destruct (lookupPlayer k (players w)) as [p|]; [|reflexivity].
    destruct (worm p) as [o|] eqn:Ho; cbn; [reflexivity|exact Ho].
  - now rewrite lookupPlayer_updatePlayers_ne.
Qed.

Lemma wormPhase_kill k (w : World num) :
  wormPhase w (updateWormOf k (set_isAlive false) w).
Proof.
  pose proof (food_updateWormOf k (set_isAlive false) w) as [Hf _].
  split; [|split; [|split]].
  - intros Hok. rewrite updateWormOf_eq. now apply registryOk_updatePlayers.
  - intros key. unfold aliveAt. rewrite wormOf_update.
    destruct (String.eqb key k); [|now split].
    destruct (wormOf key w) as [o|]; cbn; [|now split]. now split.
  - now rewrite updateWormOf_eq.
  - rewrite Hf. lia.
Qed.

Lemma killPlayer_wormPhase fuel pId : preserves wormPhase (killPlayer fuel pId).
Proof.
  intros w [] w'. unfold killPlayer. unfold bind at 1, get.
  destruct (lookupPlayer pId (players w)) as [p|]; [|intros [= <-]; reflexivity].
  destruct (worm p) as [o|]; [|intros [= <-]; reflexivity].
  destruct (isAlive o); [|intros [= <-]; reflexivity].
  unfold bind at 1, modify at 1. unfold bind at 1.
  destruct (dropFoodFrom _ _ _ _ _) as [[[] w1]| |] eqn:Hdrop; try discriminate.
  apply dropFoodFrom_spec in Hdrop
    as ((Hp1 & He1 & _ & _ & _) & dropped & Hf1 & _ & Hcap).
  intros Hlast. transitivity (updateWormOf pId (set_isAlive false) w);
    [apply wormPhase_kill|].
  transitivity w1.
  - unfold wormPhase, aliveAt, wormOf. rewrite Hp1, He1, Hf1.
    split; [auto|]. split; [now intros key|]. split; [reflexivity|].
    rewrite Hf1 in Hcap. rewrite length_app in *. lia.
  - destruct (negb (isBot p)); injection Hlast as <-;
      now apply wormPhase_other.
Qed.

Lemma killAndMark_wormPhase fuel key player :
  preserves wormPhase (killAndMark fuel key player).
Proof.
  unfold killAndMark. preserves_step; [apply killPlayer_wormPhase|].
  preserves_step. apply wormPhase_kill.
Qed.

Lemma wormCollision_wormPhase fuel living key :
  preserves wormPhase (wormCollision fuel living key).
Proof.
  unfold wormCollision.
  preserves_step; [apply (getPlayer_preserves wormPhase)|].
  preserves_step; [apply (getWorm_preserves wormPhase)|].
  preserves_step; [preserves_step|].
  preserves_step; [apply killAndMark_wormPhase|].
  preserves_step; [preserves_step|].
  preserves_step.
  { preserves_step; [apply killAndMark_wormPhase|preserves_step]. }
  preserves_step; [apply (getWorm_preserves wormPhase)|].
  preserves_step; [preserves_step|].
  preserves_step; [preserves_step|].
  preserves_step; [apply killAndMark_wormPhase|preserves_step].
Qed.

Lemma wormLoop_wormPhase fuel living keys :
  preserves wormPhase (forEachKey (wormCollision fuel living) keys).
Proof.
  apply (forEachKey_preserves wormPhase). intros k _.
  apply wormCollision_wormPhase.
Qed.

Lemma foodCollision_foodPhase now key :
  preserves foodPhase (foodCollision now key).
Proof.
  intros w [] w' Hrun.
  apply foodCollision_spec in Hrun as (o & g & _ & _ & _ & Ho & Hp & Halive & _).
  split.
  - intros Hok. rewrite Hp. now apply registryOk_updatePlayers.
  - intros k. unfold aliveAt, wormOf. rewrite Hp.
    destruct (String.eqb_spec k key) as [->|Hne].
    + rewrite lookupPlayer_updatePlayers. unfold wormOf in Ho.
      destruct (lookupPlayer key (players w)) as [p|]; [|discriminate].
      rewrite Ho. exact Halive.
    + now rewrite lookupPlayer_updatePlayers_ne.
Qed.

(** After [killPlayer(player.id); worm.isAlive = false] the worm is dead. *)
Lemma killAndMark_dead fuel key player (w w' : World num) :
  killAndMark fuel key player w = Ok (tt, w') -> aliveAt key w' = false.
Proof.
  unfold killAndMark. unfold bind at 1.
  destruct (killPlayer _ _ w) as [[[] w1]| |]; try discriminate.
  unfold modify. intros [= <-]. unfold aliveAt. rewrite wormOf_update.
  rewrite String.eqb_refl. now destruct (wormOf key w1).
Qed.

(** The iteration of the worm loop for a worm that is alive after it: it
    wrote nothing, and every test came out false. *)
Lemma wormCollision_survivor fuel living key (w w' : World num) :
  wormCollision fuel living key w = Ok (tt, w') -> aliveAt key w' = true ->
  w' = w
  /\ exists p o,
       lookupPlayer key (players w) = Some p /\ worm p = Some o
       /\ match segments o with
          | [] => True
          | head :: _ =>
              insideWorld head = true
              /\ hitsSelf head (segments o) = false
              /\ hitsOther (player_id p) head (players w) living = false
          end.
Proof.
  unfold wormCollision. unfold bind at 1, getPlayer.
  destruct (lookupPlayer key (players w)) as [p|] eqn:Hp; [|discriminate].
  unfold bind at 1, getWorm, bind at 1, getPlayer. rewrite Hp.
  destruct (worm p) as [o|] eqn:Ho; [|discriminate]. unfold ret at 1.
  assert (aliveAt key w = isAlive o) as Hnow.
  { unfold aliveAt, wormOf. now rewrite Hp, Ho. }
  destruct (segments o) as [|head rest] eqn:Hsegs.
  { intros [= <-] _. split; [reflexivity|]. exists p, o. rewrite Hsegs.
    now repeat split. }
  unfold insideWorld.
  destruct (_ || _) eqn:Hout.
  { intros Hkill Halive. apply killAndMark_dead in Hkill. congruence. }
  destruct (isAlive o) eqn:Ha; cbn [negb].
  2:{ intros [= <-] Halive. congruence. }
  destruct (hitsSelf head (head :: rest)) eqn:Hself.
  { unfold bind at 1.
    destruct (killAndMark _ _ _ w) as [[[] w1]| |] eqn:Hkill; try discriminate.
    apply killAndMark_dead in Hkill. unfold bind at 1, getWorm, bind at 1, getPlayer.
    unfold aliveAt, wormOf in Hkill.
    destruct (lookupPlayer key (players w1)) as [p1|] eqn:Hp1; [|discriminate].
    destruct (worm p1) as [o1|] eqn:Ho1; [|discriminate]. unfold ret at 1.
    rewrite Hkill. cbn [negb]. intros [= <-] Halive.
    unfold aliveAt, wormOf in Halive. rewrite Hp1, Ho1 in Halive. congruence. }
  unfold bind at 1, ret at 1. unfold bind at 1, getWorm, bind at 1, getPlayer.
  rewrite Hp, Ho. unfold ret at 1. rewrite Ha. cbn [negb].
  unfold bind at 1, get.
  destruct (hitsOther _ _ _ _) eqn:Hother.
  { intros Hkill Halive. apply killAndMark_dead in Hkill. congruence. }
  intros [= <-] _. split; [reflexivity|]. exists p, o. rewrite Hsegs.
  split; [reflexivity|]. split; [exact Ho|]. rewrite Hout. now repeat split.
Qed.

Lemma aliveAt_wormOf key (w : World num) :
  aliveAt key w = true -> exists o, wormOf key w = Some o /\ isAlive o = true.
Proof. unfold aliveAt. destruct (wormOf key w) as [o|]; [eauto|discriminate]. Qed.

(** The worms that are alive when [checkCollisions] returns: each has its
    head in the world, clear of its own segments from index
    [SELF_COLLISION_START_INDEX] on, and clear of every segment of every
    other worm that is alive. *)
Theorem survivors_are_inside_and_apart fuel now (w w' : World num) :
  registryOk (players w) ->
  checkCollisions fuel now w = Ok (tt, w') ->
  forall key o head rest,
    wormOf key w' = Some o -> isAlive o = true -> segments o = head :: rest ->
    insideWorld head = true
    /\ hitsSelf head (segments o) = false
    /\ forall key2 o2,
         key2 <> key -> wormOf key2 w' = Some o2 -> isAlive o2 = true ->
         touches head (segments o2) = false.
Proof.
  intros Hok. unfold checkCollisions.
  unfold bind at 1, get. unfold bind at 1, modify. unfold bind at 1.
  set (w0 := set_eatenFoodThisTick [] w).
  set (living := livingWormKeys (players w)).
  destruct (forEachKey (foodCollision now) living w0) as [[[] wf]| |] eqn:Hfood;
    try discriminate.
  intros Hworm key o head rest Ho Halive Hsegs.
  apply (forEachKey_preserves foodPhase) in Hfood as [Hokf Hsame];
    [|intros k _; apply foodCollision_foodPhase].
  assert (forall k, aliveAt k w' = true -> k ∈ living) as Hliving.
  { intros k Hk.
    apply (forEachKey_preserves wormPhase) in Hworm as (_ & Hphase & _);
      [|intros k' _; apply wormCollision_wormPhase].
    destruct (Hphase k) as [_ Hwas]. specialize (Hwas Hk).
    rewrite Hsame in Hwas. apply aliveAt_wormOf in Hwas as (ok & Hwk & Hak).
    now apply (wormOf_living k w ok). }
  assert (aliveAt key w' = true) as Hkey.
  { unfold aliveAt. now rewrite Ho. }
  pose proof Hworm as Hsplit.
  apply (forEachKey_split wormPhase) with (key := key) in Hsplit
    as (wa & wb & (Hoka & Ha & _) & Hrun & (Hokb & Hb & _));
    [|now apply livingWormKeys_NoDup|now apply Hliving
     |intros k _ _; apply wormCollision_wormPhase].
  assert (registryOk (players wa)) as Hrega by (apply Hoka, Hokf, Hok).
  destruct (Hb key) as [Hsegsb Haliveb].
  apply wormCollision_survivor in Hrun
    as (-> & p & oa & Hp & Hoa & Htests); [|now apply Haliveb].
  assert (segments oa = head :: rest) as Hsegsa.
  { unfold wormOf in Hsegsb at 2. rewrite Hp, Hoa, Ho in Hsegsb.
    cbn in Hsegsb. injection Hsegsb as Hs _. now rewrite <- Hs. }
  rewrite Hsegsa in Htests. destruct Htests as (Hin & Hself & Hother).
  split; [exact Hin|]. split; [now rewrite Hsegs|].
  intros key2 o2 Hne Ho2 Halive2.
  assert (aliveAt key2 w' = true) as Hkey2.
  { unfold aliveAt. now rewrite Ho2. }
  destruct (Hb key2) as [Hsegs2 Hwas2]. specialize (Hwas2 Hkey2).
  apply aliveAt_wormOf in Hwas2 as (o2a & Ho2a & Halive2a).
  rewrite Ho2, Ho2a in Hsegs2. cbn in Hsegs2. injection Hsegs2 as Hsegs2 _.
  unfold hitsOther in Hother. rewrite <- not_true_iff_false in Hother.
  rewrite <- not_true_iff_false. intros Htouch. apply Hother.
  apply existsb_exists. exists key2. split.
  { apply list_elem_of_In. now apply Hliving. }
  unfold wormOf in Ho2a.
  destruct (lookupPlayer key2 (players wa)) as [p2|] eqn:Hp2; [|discriminate].
  rewrite Ho2a, Halive2a.
  rewrite (registryOk_id _ _ _ Hrega Hp), (registryOk_id _ _ _ Hrega Hp2).
  destruct (String.eqb_spec key key2) as [->|_]; [contradiction|].
  cbn [negb andb]. unfold touches in Htouch. now rewrite <- Hsegs2.
Qed.

End Survivors.

(* ================================================================== *)
(** ** The target angle of a bot *)

Section Yields.
Context {num : Type}.

(** Every value that the computation returns is in [Q]. *)
Definition yields {A} (c : M num A) (Q : A -> Prop) : Prop :=
  forall w a w', c w = Ok (a, w') -> Q a.

Lemma yields_ret {A} (a : A) (Q : A -> Prop) : Q a -> yields (ret a) Q.
Proof. now intros Ha w a' w' [= <- _]. Qed.

Lemma yields_bind {A B} (c : M num A) (k : A -> M num B) (Q : B -> Prop) :
  (forall a, yields (k a) Q) -> yields (bind c k) Q.
Proof.
  intros Hk w b w'. unfold bind. destruct (c w) as [[a w1]| |]; try discriminate.
  apply Hk.
Qed.

End Yields.

Section BotTarget.
Context {trig : Trig Q} {rs : RandomSource Q}.
Local Open Scope Q_scope.

Hypothesis atan2_range : forall y x, - Q_PI <= Math_atan2 y x /\ Math_atan2 y x <= Q_PI.
Hypothesis random_range : forall n, 0 <= Math_random n /\ Math_random n < 1.

(** The worm under [key] is still there. *)
Definition keepsWorm (key : string) (w w' : World Q) : Prop :=
  is_Some (wormOf key w) -> is_Some (wormOf key w').

#[local] Instance keepsWorm_PreOrder key : PreOrder (keepsWorm key).
Proof. split; [now intros w|]. intros w1 w2 w3 H12 H23 Hw. auto. Qed.

#[local] Instance keepsWorm_random key : RandomTolerant (keepsWorm key).
Proof. split; [exact _|]. now intros w n. Qed.

Lemma keepsWorm_update key k g (w : World Q) :
  keepsWorm key w (updateWormOf k g w).
Proof.
  intros Hw. rewrite wormOf_update. destruct (String.eqb key k); [|exact Hw].
  destruct Hw as [o ->]. now eexists.
Qed.

(** The angle that [seekFood] returns for a bot heading [a]: [a], it up to
    a sixteenth of [Math.PI] more or less, or a value of [Math.atan2]. *)
Lemma seekFood_yields key head (a : Q) :
  0 <= a -> yields (seekFood key head a) (fun v => - (Q_PI * 2) <= v).
Proof.
  pose proof Q_PI_bounds as [Hlo Hhi]. intros Ha. unfold seekFood.
  do 7 (apply yields_bind; intros ?).
  destruct (isTruthyId _).
  - destruct (findFood _ _) as [targetFood|].
    + apply yields_ret.
      lazymatch goal with
      | |- _ <= Math_atan2 ?y ?x => destruct (atan2_range y x)
      end. lra.
    + apply yields_bind. intros ?. apply yields_ret. lra.
  - unfold bind at 1, random. intros w v w'.
    destruct (ltb _ BOT_RANDOM_TURN_CHANCE); [|intros [= <- _]; lra].
    unfold bind, ret. intros [= <- _].
    destruct (random_range (S (randomCalls w))) as [Hr0 Hr1].
    change (add ?x ?y) with (x + y). change (sub ?x ?y) with (x - y).
    change (mul ?x ?y) with (x * y). change (div ?x ?y) with (x / y).
    change (Math_PI) with Q_PI. cbn [randomCalls set_randomCalls].
    set (r := Math_random (S (randomCalls w))) in *.
    assert ((r - inject_Z 5 / inject_Z 10) * Q_PI / inject_Z 8
            == (r - (1 # 2)) * Q_PI * (1 # 8)) as -> by field.
    assert (0 <= r * Q_PI) by (apply Qmult_le_0_compat; lra).
    lra.
Qed.

(** [updateBotAI] on a living bot whose heading is not negative: the target
    angle that it stores is in [0, 2π); the worm is still registered.  The
    values of [Math.atan2] are taken in [-π, π] and those of
    [Math.random()] in [0, 1). *)
Theorem updateBotAI_stores_angle_in_range key (w w' : World Q) p o :
  lookupPlayer key (players w) = Some p -> worm p = Some o ->
  isAlive o = true -> segments o <> [] -> 0 <= angle o ->
  updateBotAI key w = Ok (tt, w') ->
  exists o',
    wormOf key w' = Some o'
    /\ 0 <= targetAngle o' /\ targetAngle o' < Q_PI * 2.
Proof.
  pose proof Q_PI_bounds as [Hlo Hhi].
  intros Hp Ho Halive Hsegs Hangle. unfold updateBotAI.
  unfold bind at 1, getPlayer. rewrite Hp, Ho, Halive. cbn [negb].
  destruct (segments o) as [|head rest]; [contradiction|]. cbv zeta.
  unfold bind at 1.
  lazymatch goal with
  | |- match ?c w with _ => _ end = _ -> _ =>
      destruct (c w) as [[avoidAngle w1]| |] eqn:Havoid; try discriminate
  end.
  assert (keepsWorm key w w1
          /\ forall a, avoidAngle = Some a -> - (Q_PI * 2) <= a) as [Hw1 Hav].
  { revert Havoid. destruct (_ || _).
    - intros [= <- <-]. split; [reflexivity|]. intros a [= <-].
      lazymatch goal with
      | |- _ <= Math_atan2 ?y ?x => destruct (atan2_range y x)
      end. lra.
    - unfold bind at 1, get.
      destruct (findThreat _ _ _ _) as [seg|]; [|intros [= <- <-]; now split].
      unfold bind, random, ret. intros [= <- <-]. split; [now intros Hw|].
      intros a [= <-].
      change (add ?x ?y) with (x + y). change (mul ?x ?y) with (x * y).
      change (div ?x ?y) with (x / y). change Math_PI with Q_PI.
      lazymatch goal with
      | |- _ <= Math_atan2 ?y ?x + _ => destruct (atan2_range y x) as [Ha0 Ha1]
      end.
      lazymatch goal with
      | |- context [if ?c then _ else _] => destruct c
      end.
      + assert (Q_PI / of_Z 2 * of_Z 1 == Q_PI * (1 # 2)) as ->
          by (change (of_Z 2) with 2; change (of_Z 1) with 1; field).
        lra.
      + assert (Q_PI / of_Z 2 * of_Z (-1) == - (Q_PI * (1 # 2))) as ->
          by (change (of_Z 2) with 2; change (of_Z (-1)) with (-1); field).
        lra. }
  unfold bind at 1.
  lazymatch goal with
  | |- match ?c w1 with _ => _ end = _ -> _ =>
      destruct (c w1) as [[targetAngle' w2]| |] eqn:Htarget; try discriminate
  end.
  assert (keepsWorm key w1 w2 /\ - (Q_PI * 2) <= targetAngle') as [Hw2 Hta].
  { destruct avoidAngle as [a|].
    - revert Htarget. unfold bind at 1.
      destruct (updateBotState _ _ w1) as [[[] w3]| |] eqn:Hbs; try discriminate.
      intros [= <- <-]. split; [|now apply Hav].
      apply (updateBotState_benign (keepsWorm key)) in Hbs; [exact Hbs|].
      intros. apply keepsWorm_update.
    - split.
      + apply (seekFood_benign (keepsWorm key)) in Htarget; [exact Htarget|].
        intros. apply keepsWorm_update.
      + exact (seekFood_yields key head (angle o) Hangle _ _ _ Htarget). }
  unfold modify. intros [= <-]. rewrite wormOf_update, String.eqb_refl.
  assert (is_Some (wormOf key w2)) as [o2 Ho2].
  { apply Hw2, Hw1. unfold wormOf. rewrite Hp, Ho. now eexists. }
  rewrite Ho2. eexists. split; [reflexivity|].
  cbn [targetAngle set_targetAngle]. now apply normalizeAngle_range.
Qed.

End BotTarget.

(* ================================================================== *)
(** ** The number of bots *)

Section BotCount.
Context {num : Type} `{JsNumber num} `{Trig num} `{RandomSource num}.
Implicit Types (ps : list (string * Player num)).

(** [Object.values(players).filter(p => !p.isBot)] and
    [Object.values(players).filter(p => p.isBot)], with their keys. *)
Definition humansOf ps : list (string * Player num) :=
  List.filter (fun kp => negb (isBot (snd kp))) ps.

Definition botsOf ps : list (string * Player num) :=
  List.filter (fun kp => isBot (snd kp)) ps.

(** [Math.max(BOT_COUNT, humanPlayerCount * 2)] *)
Definition targetBots ps : nat := Nat.max BOT_COUNT (length (humansOf ps) * 2).

Lemma deletePlayer_found key ps p :
  lookupPlayer key ps = Some p ->
  exists before after,
    ps = before ++ (key, p) :: after /\ deletePlayer key ps = before ++ after.
Proof.
  induction ps as [|[k q] ps IH]; cbn; [discriminate|].
  destruct (String.eqb_spec k key) as [->|Hne].
  - intros [= ->]. now exists [], ps.
  - intros Hp. destruct (IH Hp) as (before & after & -> & ->).
    now exists ((k, q) :: before), after.
Qed.

(** Step 0 of the game loop when the id of the next bot is free: the
    humans stay as they are; below the target one bot is added, last; at
    the target nothing changes; above it one bot at most is removed. *)
Theorem manageBots_moves_bot_count_to_target (w w' : World num) :
  lookupPlayer (botIdOf (nextBotId w)) (players w) = None ->
  manageBots w = Ok (tt, w') ->
  humansOf (players w') = humansOf (players w)
  /\ food w' = food w
  /\ ((length (botsOf (players w)) < targetBots (players w))%nat ->
      exists p o,
        players w' = players w ++ [(botIdOf (nextBotId w), p)]
        /\ isBot p = true /\ worm p = Some o /\ freshWorm true o
        /\ length (botsOf (players w')) = S (length (botsOf (players w))))
  /\ (length (botsOf (players w)) = targetBots (players w) ->
      players w' = players w)
  /\ ((targetBots (players w) < length (botsOf (players w)))%nat ->
      players w' = players w
      \/ (players w' `sublist_of` players w
          /\ S (length (botsOf (players w'))) = length (botsOf (players w)))).
Proof.
  intros Hfree. unfold manageBots. unfold bind at 1, get.
  fold (humansOf (players w)) (botsOf (players w)).
  fold (targetBots (players w)).
  destruct (length (botsOf (players w)) <? targetBots (players w))%nat eqn:Hlow.
  - apply Nat.ltb_lt in Hlow. unfold addBot. unfold bind at 1, get.
    unfold bind at 1, modify at 1. unfold bind at 1, getRandomColor, bind at 1,
      random, ret. unfold bind at 1, modify at 1.
    intros Hreset. apply resetPlayer_exact in Hreset.
    cbn [players set_players set_randomCalls set_nextBotId] in Hreset.
    rewrite lookupPlayer_storePlayer_eq in Hreset.
    destruct Hreset as (o & n & Hfresh & ->).
    cbn [players food set_players set_randomCalls set_nextBotId].
    rewrite storePlayer_again, (storePlayer_absent _ _ _ Hfree).
    unfold botsOf in Hlow. unfold humansOf, botsOf.
    rewrite !List.filter_app. cbn. rewrite app_nil_r, length_app. cbn.
    split; [reflexivity|]. split; [reflexivity|]. split.
    { intros _. eexists _, o. split; [reflexivity|].
      split; [reflexivity|]. split; [reflexivity|]. split; [exact Hfresh|lia]. }
    split; intros; lia.
  - apply Nat.ltb_ge in Hlow.
    assert (forall w1, players w1 = players w -> food w1 = food w ->
              humansOf (players w1) = humansOf (players w)
              /\ food w1 = food w
              /\ ((length (botsOf (players w)) < targetBots (players w))%nat ->
                  exists p o,
                    players w1 = players w ++ [(botIdOf (nextBotId w), p)]
                    /\ isBot p = true /\ worm p = Some o /\ freshWorm true o
                    /\ length (botsOf (players w1))
                       = S (length (botsOf (players w))))
              /\ (length (botsOf (players w)) = targetBots (players w) ->
                  players w1 = players w)
              /\ ((targetBots (players w) < length (botsOf (players w)))%nat ->
                  players w1 = players w
                  \/ (players w1 `sublist_of` players w
                      /\ S (length (botsOf (players w1)))
                         = length (botsOf (players w))))) as Hsame.
    { intros w1 Hp Hf. rewrite Hp. repeat split; auto. intros; lia. }
    destruct (_ && _) eqn:Hhigh; [|intros [= <-]; now apply Hsame].
    apply andb_true_iff in Hhigh as [Hhigh _]. apply Nat.ltb_lt in Hhigh.
    destruct (_ <? _)%nat; [|intros [= <-]; now apply Hsame].
    unfold bind at 1, random.
    destruct (toIndex _) as [i|]; [|intros [= <-]; now apply Hsame].
    destruct (_ !! i) as [botId|]; [|intros [= <-]; now apply Hsame].
    unfold removeBot, bind at 1, get. cbn [players set_randomCalls].
    destruct (lookupPlayer botId (players w)) as [q|] eqn:Hq;
      [|intros [= <-]; now apply Hsame].
    destruct (isBot q) eqn:Hbot; [|intros [= <-]; now apply Hsame].
    unfold modify. intros [= <-]. cbn [players food set_players set_randomCalls].
    destruct (deletePlayer_found _ _ _ Hq) as (before & after & Hps & ->).
    assert (humansOf (before ++ after) = humansOf (players w)) as Hhumans.
    { rewrite Hps. unfold humansOf. rewrite !List.filter_app. cbn.
      now rewrite Hbot. }
    assert (S (length (botsOf (before ++ after))) = length (botsOf (players w)))
      as Hbots.
    { rewrite Hps. unfold botsOf. rewrite !List.filter_app. cbn.
      rewrite Hbot, !length_app. cbn. lia. }
    assert (before ++ after `sublist_of` players w) as Hsub.
    { rewrite Hps. apply sublist_app; [reflexivity|]. now apply sublist_cons. }
    split; [exact Hhumans|]. split; [reflexivity|].
    split; [intros; lia|]. split; [intros; lia|]. intros _. right. now split.
Qed.

End BotCount.

(* ================================================================== *)
(** ** Names *)

Section Names.
Context {num : Type} `{JsNumber num}.

Lemma length_substring_le (n : nat) : forall m s,
  (String.length (String.substring n m s) <= m)%nat.
Proof.
  induction n as [|n IH]; intros m s.
  - revert s. induction m as [|m IHm]; intros [|c s]; cbn; try lia.
    specialize (IHm s). lia.
  - destruct s as [|c s]; cbn; [lia|apply IH].
Qed.

(** The code units of the string are below 128: the string is made of ASCII
    characters. *)
Fixpoint asciiString (s : string) : bool :=
  match s with
  | EmptyString => true
  | String c s' => (Ascii.nat_of_ascii c <? 128)%nat && asciiString s'
  end.

(** The payload is not a string, or it is a string of ASCII characters. *)
Definition asciiPayload (name : JsValue num) : bool :=
  match name with
  | JsString s => asciiString s
  | _ => true
  end.

(** The name of [player] after [setPlayerName(name)]. *)
Definition renamed (name : JsValue num) (player : Player num) : string :=
  match name with
  | JsString s =>
      if String.eqb (sanitizeName s) "" then player_name player
      else sanitizeName s
  | _ => player_name player
  end.

(** [setPlayerName] always completes, whatever the payload, and leaves the
    food, the keys of the registry and every player but the sender as they
    are; of the sender only the name can change.  For a payload of ASCII
    characters the name afterwards is [name.trim().substring(0, 16)] when
    the payload is a string and that form is not empty, and the old name
    otherwise; a name that was set has 1 to 16 characters. *)
Theorem onSetPlayerName_stores_a_short_name socketId name (w : World num) :
  exists w',
    onSetPlayerName socketId name w = Ok (tt, w')
    /\ food w' = food w /\ map fst (players w') = map fst (players w)
    /\ (forall key, key <> socketId ->
          lookupPlayer key (players w') = lookupPlayer key (players w))
    /\ (lookupPlayer socketId (players w) = None ->
        lookupPlayer socketId (players w') = None)
    /\ forall p,
         lookupPlayer socketId (players w) = Some p ->
         exists p',
           lookupPlayer socketId (players w') = Some p'
           /\ p' = set_player_name (player_name p') p
           /\ (asciiPayload name = true ->
               player_name p' = renamed name p
               /\ (player_name p' <> player_name p ->
                   (1 <= String.length (player_name p') <= 16)%nat)).
Proof.
  unfold onSetPlayerName, bind, get, modify, ret.
  destruct (lookupPlayer socketId (players w)) as [player|] eqn:Hp.
  - assert (renamed name player = player_name player ->
            food w = food w /\ map fst (players w) = map fst (players w)
            /\ (forall key, key <> socketId ->
                  lookupPlayer key (players w) = lookupPlayer key (players w))
            /\ (Some player = None -> lookupPlayer socketId (players w) = None)
            /\ forall p,
                 Some player = Some p ->
                 exists p',
                   lookupPlayer socketId (players w) = Some p'
                   /\ p' = set_player_name (player_name p') p
                   /\ (asciiPayload name = true ->
                       player_name p' = renamed name p
                       /\ (player_name p' <> player_name p ->
                           (1 <= String.length (player_name p') <= 16)%nat)))
      as Hidle.
    { intros Hname. split; [reflexivity|]. split; [reflexivity|].
      split; [reflexivity|]. split; [discriminate|].
      intros p [= <-]. exists player. split; [exact Hp|].
      split; [now destruct player|]. intros _. split; [now rewrite Hname|].
      intros Hne. now contradiction Hne. }
    destruct name as [| |b|n|s|props];
      try (eexists; split; [reflexivity|]; now apply Hidle).
    destruct (String.eqb (sanitizeName s) "") eqn:Hempty; cbn [negb].
    + eexists. split; [reflexivity|]. apply Hidle.
      cbn [renamed]. now rewrite Hempty.
    + eexists. split; [reflexivity|]. cbn [food players set_players].
      split; [reflexivity|].
      split; [now apply (storePlayer_keys _ _ player)|].
      split; [intros key Hne; now apply lookupPlayer_storePlayer_ne|].
      split; [discriminate|]. intros p [= <-].
      rewrite lookupPlayer_storePlayer_eq. eexists. split; [reflexivity|].
      split; [reflexivity|]. intros _. cbn [player_name set_player_name renamed].
      rewrite Hempty. split; [reflexivity|]. intros _.
      split; [|apply length_substring_le].
      destruct (sanitizeName s); [discriminate|cbn; lia].
  - eexists. split; [reflexivity|]. split; [reflexivity|].
    split; [reflexivity|]. split; [reflexivity|]. split; [exact (fun _ => Hp)|].
    discriminate.
Qed.



End Names.

(** A name with white space around it and more than 16 characters, as the
    socket ["s1"] may send it. *)
Lemma onSetPlayerName_example :
  asciiPayload (num:=f64) (JsString "  Al the Great and Terrible ") = true
  /\ match onSetPlayerName "s1" (JsString "  Al the Great and Terrible ")
             (soloWorld (F64_of_Z 0)) with
     | Ok (_, w') =>
         map (fun kp : string * Player f64 => player_name (snd kp)) (players w')
         = ["Al the Great and"%string]
     | _ => False
     end.
Proof. split; vm_compute; reflexivity. Qed.

(* ================================================================== *)
(** ** Clear spawn positions *)

Section ClearSpots.
Context {num : Type} `{JsNumber num}.

(** The point is not close to the head of this player's worm, if the worm
    is alive. *)
Definition awayFromHead (x y : num) (kp : string * Player num) : Prop :=
  forall o head rest,
    worm (snd kp) = Some o -> isAlive o = true -> segments o = head :: rest ->
    distSqBelow x y (pt_x head) (pt_y head)
      (Math_pow2 (mul WORM_SEGMENT_RADIUS (of_Z 10))) = false.

Lemma headsClear_spec x y ps b :
  headsClear x y ps = Ok b -> b = true <-> Forall (awayFromHead x y) ps.
Proof.
  induction ps as [|[k p] ps IH]; cbn [headsClear].
  - intros [= <-]. split; [constructor|reflexivity].
  - assert (headsClear x y ps = Ok b ->
            (forall o head rest, worm p = Some o -> isAlive o = true ->
               segments o = head :: rest ->
               distSqBelow x y (pt_x head) (pt_y head)
                 (Math_pow2 (mul WORM_SEGMENT_RADIUS (of_Z 10))) = false) ->
            b = true <-> Forall (awayFromHead x y) ((k, p) :: ps)) as Hskip.
    { intros Hrest Hhead. rewrite (IH Hrest). split.
      - intros Hall. now constructor.
      - intros Hall. now apply Forall_cons in Hall as [_ Hall]. }
    destruct (worm p) as [o|] eqn:Ho; [|intros Hrest; now apply Hskip].
    destruct (isAlive o) eqn:Halive;
      [|intros Hrest; apply Hskip; [exact Hrest|];
        intros o' ? ? [= <-]; congruence].
    destruct (segments o) as [|head rest] eqn:Hsegs; [discriminate|].
    destruct (distSqBelow _ _ _ _ _) eqn:Hclose.
    + intros [= <-]. split; [discriminate|]. intros Hall.
      apply Forall_cons in Hall as [Hhead _].
      specialize (Hhead o head rest Ho Halive Hsegs). congruence.
    + intros Hrest. apply Hskip; [exact Hrest|].
      intros o' head' rest' [= <-] _ Hsegs'. rewrite Hsegs in Hsegs'.
      now injection Hsegs' as <- <-.
Qed.

(** [isSpawnPositionClear(x, y)] writes nothing, and answers [true] exactly
    when no food item is within [FOOD_RADIUS * 4] of the point and no head
    of a living worm within [WORM_SEGMENT_RADIUS * 10]; the other segments
    of the worms do not count. *)
Theorem isSpawnPositionClear_checks_food_and_heads x y (w w' : World num) b :
  isSpawnPositionClear x y w = Ok (b, w') ->
  w' = w
  /\ (b = true <->
      Forall (fun f => distSqBelow x y (food_x f) (food_y f)
                         MIN_FOOD_SPAWN_DISTANCE_SQ = false) (food w)
      /\ Forall (awayFromHead x y) (players w)).
Proof.
  unfold isSpawnPositionClear.
  destruct (existsb _ (food w)) eqn:Hfood.
  - intros [= <- <-]. split; [reflexivity|]. split; [discriminate|].
    intros [Hall _]. apply existsb_exists in Hfood as (f & Hin & Hclose).
    rewrite Forall_forall in Hall. apply list_elem_of_In in Hin.
    specialize (Hall f Hin). cbn in Hall. congruence.
  - destruct (headsClear x y (players w)) as [b'| |] eqn:Hheads; try discriminate.
    intros [= <- <-]. split; [reflexivity|].
    rewrite (headsClear_spec _ _ _ _ Hheads). split; [|now intros [_ Hall]].
    intros Hall. split; [|exact Hall]. apply Forall_forall. intros f Hin.
    apply not_true_iff_false. intros Hclose.
    apply not_true_iff_false in Hfood. apply Hfood, existsb_exists.
    exists f. split; [now apply list_elem_of_In|exact Hclose].
Qed.

End ClearSpots.

(* ================================================================== *)
(** ** Scores and the food supply in the collision checks *)

Section Accounts.
Context {num : Type} `{JsNumber num} `{RandomSource num}.
Implicit Types (ps : list (string * Player num)) (g : Worm num -> Worm num).

(** The score of the worm under [key], less [FOOD_SCORE] for each entry of
    [eatenFoodThisTick] of which it is the eater. *)
Definition balance (key : string) (w : World num) : option Z :=
  option_map
    (fun o => (score o - FOOD_SCORE * Z.of_nat (length (eatenOf key w)))%Z)
    (wormOf key w).

(** The balance of [key] is kept, and so is the number of food items when
    it is [MAX_FOOD] at most. *)
Definition accounted (key : string) (w w' : World num) : Prop :=
  (registryOk (players w) ->
   registryOk (players w') /\ balance key w' = balance key w)
  /\ ((length (food w) <= MAX_FOOD)%nat -> length (food w') = length (food w)).

#[local] Instance accounted_PreOrder key : PreOrder (accounted key).
Proof.
  split.
  - intros w. split; auto.
  - intros w1 w2 w3 [Hb12 Hf12] [Hb23 Hf23]. split.
    + intros Hok. destruct (Hb12 Hok) as [Hok2 H2]. destruct (Hb23 Hok2) as [Hok3 H3].
      split; [exact Hok3|congruence].
    + intros Hcap. rewrite Hf23; rewrite Hf12; auto.
Qed.

Lemma accounted_other key (w w' : World num) :
  players w' = players w -> eatenFoodThisTick w' = eatenFoodThisTick w ->
  food w' = food w -> accounted key w w'.
Proof.
  intros Hp He Hf. unfold accounted, balance, eatenOf, wormOf.
  rewrite Hp, He, Hf. auto.
Qed.

#[local] Instance accounted_random key : RandomTolerant (accounted key).
Proof. split; [exact _|]. intros. now apply accounted_other. Qed.

(** A write to a worm that leaves the score alone. *)
Lemma accounted_update key k g (w : World num) :
  (forall o, score (g o) = score o) -> accounted key w (updateWormOf k g w).
Proof.
  intros Hg. pose proof (food_updateWormOf k g w) as [Hf _]. split.
  - intros Hok. split; [rewrite updateWormOf_eq; now apply registryOk_updatePlayers|].
    unfold balance. rewrite wormOf_update.
    replace (eatenOf key (updateWormOf k g w)) with (eatenOf key w)
      by (unfold eatenOf; now rewrite updateWormOf_eq).
    destruct (String.eqb key k); [|reflexivity].
    destruct (wormOf key w) as [o|]; cbn; [|reflexivity]. now rewrite Hg.
  - intros _. now rewrite Hf.
Qed.

(** The power-up writes and the write to [botState] that follow in
    [checkCollisions] when an item was eaten: where they lead. *)
Definition afterEating (key : string) (w w' : World num) : Prop :=
  exists g ts,
    (forall o, score (g o) = score o)
    /\ w' = set_timers (timers w ++ ts) (updateWormOf key g w).

Lemma afterEating_trans key (w1 w2 w3 : World num) :
  afterEating key w1 w2 -> afterEating key w2 w3 -> afterEating key w1 w3.
Proof.
  intros (g1 & ts1 & Hg1 & ->) (g2 & ts2 & Hg2 & ->).
  exists (fun o => g2 (g1 o)), (ts1 ++ ts2). split.
  { intros o. now rewrite Hg2, Hg1. }
  rewrite !updateWormOf_eq. cbn [players timers set_players set_timers].
  rewrite updatePlayers_compose, app_assoc. reflexivity.
Qed.

Lemma afterEating_refl key (w : World num) : afterEating key w w.
Proof.
  exists (fun o => o), []. split; [reflexivity|].
  rewrite updateWormOf_eq, updatePlayers_id, app_nil_r. now destruct w.
Qed.

Lemma afterEating_update key g (w : World num) :
  (forall o, score (g o) = score o) -> afterEating key w (updateWormOf key g w).
Proof.
  intros Hg. exists g, []. split; [exact Hg|].
  rewrite app_nil_r. rewrite !updateWormOf_eq. now destruct w.
Qed.

(** What eating one item does to the world. *)
Lemma eatFood_exact now key f (w w' : World num) :
  eatFood now key f w = Ok (tt, w') ->
  exists player new n,
    lookupPlayer key (players w) = Some player
    /\ length new = Nat.min 1 (MAX_FOOD - length (food w))
    /\ afterEating key
         (set_food (food w ++ new)
            (set_nextFoodId (nextFoodId w + N.of_nat (length new))
               (set_randomCalls n
                  (updateWormOf key (fun o => set_score (score o + FOOD_SCORE) o)
                     (set_eatenFoodThisTick
                        (eatenFoodThisTick w
                           ++ [mkEaten (food_id f) (player_id player) (food_type f)])
                        w)))))
         w'.
Proof.
  unfold eatFood. unfold bind at 1, getPlayer.
  destruct (lookupPlayer key (players w)) as [player|] eqn:Hp; [|discriminate].
  unfold bind at 1, modify at 1. unfold bind at 1, modify at 1.
  unfold bind at 1.
  lazymatch goal with
  | |- match spawnFood 1 ?w2 with _ => _ end = _ -> _ =>
      set (w2' := w2); destruct (spawnFood 1 w2') as [[[] w3]| |] eqn:Hspawn;
        try discriminate
  end.
  apply spawnFood_exact in Hspawn as (new & n & -> & Hlen & _ & _).
  assert (food w2' = food w /\ nextFoodId w2' = nextFoodId w) as [Hf2 Hn2].
  { unfold w2'. now rewrite !(proj1 (food_updateWormOf _ _ _)),
      !(proj2 (food_updateWormOf _ _ _)). }
  rewrite Hf2 in Hlen. rewrite Hf2, Hn2.
  set (w3 := set_food _ _).
  unfold bind at 1.
  lazymatch goal with
  | |- match ?c w3 with _ => _ end = _ -> _ =>
      destruct (c w3) as [[[] w4]| |] eqn:Hpower; try discriminate
  end.
  assert (afterEating key w3 w4) as H34.
  { revert Hpower. destruct (eqb _ FOOD_TYPE_POWER).
    - unfold modify. intros [= <-]. now apply afterEating_update.
    - destruct (eqb _ FOOD_TYPE_MAGNET); [|intros [= <-]; apply afterEating_refl].
      unfold bind, modify. intros [= <-].
      exists (set_isMagnetActive true), [MagnetOff (player_id player) POWER_UP_DURATION_MS].
      split; [reflexivity|]. rewrite !updateWormOf_eq. reflexivity. }
  intros Hbot. exists player, new, n. split; [reflexivity|]. split; [exact Hlen|].
  change (afterEating key w3 w').
  eapply afterEating_trans; [exact H34|].
  destruct (isBot player); [|injection Hbot as <-; apply afterEating_refl].
  revert Hbot. unfold bind at 1.
  destruct (getWorm key w4) as [[o w4']| |] eqn:Ho; try discriminate.
  apply getWorm_spec in Ho as [-> _].
  destruct (botState o) as [b|]; [|discriminate].
  destruct (match targetFoodId b with Some t => _ | None => false end);
    [|intros [= <-]; apply afterEating_refl].
  intros Hbs. apply updateBotState_spec in Hbs as [v ->].
  now apply afterEating_update.
Qed.

Lemma afterEating_accounted key k (w w' : World num) :
  afterEating k w w' -> accounted key w w'.
Proof.
  intros (g & ts & Hg & ->).
  transitivity (updateWormOf k g w); [now apply accounted_update|].
  now apply accounted_other.
Qed.

(** One item eaten by the worm under [k]: the item is removed, the eater
    scores, and [spawnFood(1)] replaces the item. *)
Lemma eatStep_accounted now key k j f (w w' : World num) :
  food w !! j = Some f ->
  eatFood now k f (set_food (delete j (food w)) w) = Ok (tt, w') ->
  accounted key w w'.
Proof.
  intros Hf Heat. pose proof (lookup_lt_Some _ _ _ Hf) as Hj.
  apply eatFood_exact in Heat as (player & new & n & Hp & Hlen & Hafter).
  cbn [players food eatenFoodThisTick nextFoodId set_food] in Hp, Hlen, Hafter.
  eapply (@transitivity _ _ (@PreOrder_Transitive _ _ (accounted_PreOrder key)));
    [|exact (afterEating_accounted key k _ _ Hafter)].
  assert (length (delete j (food w)) = (length (food w) - 1)%nat) as Hdel.
  { apply length_delete. eexists. exact Hf. }
  split.
  - intros Hok. rewrite updateWormOf_eq.
    cbn [players food eatenFoodThisTick set_players set_food set_nextFoodId
         set_randomCalls set_eatenFoodThisTick].
    split; [now apply registryOk_updatePlayers|].
    unfold balance, eatenOf, wormOf.
    cbn [players food eatenFoodThisTick set_players set_food set_nextFoodId
         set_randomCalls set_eatenFoodThisTick].
    rewrite List.filter_app, length_app. cbn [List.filter eaterId].
    rewrite (registryOk_id _ _ _ Hok Hp).
    destruct (String.eqb_spec k key) as [->|Hne].
    + rewrite lookupPlayer_updatePlayers, Hp.
      destruct (worm player) as [o|] eqn:Ho; cbn; [|now rewrite Ho].
      f_equal. unfold FOOD_SCORE. lia.
    + rewrite lookupPlayer_updatePlayers_ne by congruence.
      cbn. now rewrite Nat.add_0_r.
  - intros Hcap. rewrite updateWormOf_eq.
    cbn [players food eatenFoodThisTick set_players set_food set_nextFoodId
         set_randomCalls set_eatenFoodThisTick].
    rewrite length_app, Hlen, Hdel. lia.
Qed.

Lemma scanFood_accounted now key k head : forall jPlus1 ate,
  preserves (accounted key) (scanFood now k head jPlus1 ate).
Proof.
  induction jPlus1 as [|j IH]; intros ate w b w'; cbn [scanFood].
  { intros [= _ <-]. reflexivity. }
  unfold bind at 1, get.
  destruct (food w !! j) as [f|] eqn:Hf; [|discriminate].
  unfold bind at 1.
  destruct (getWorm k w) as [[o w0]| |] eqn:Ho; try discriminate.
  apply getWorm_spec in Ho as [-> _].
  destruct (distSqBelow _ _ _ _ _); [|apply IH].
  unfold bind at 1, modify at 1. unfold bind at 1.
  destruct (eatFood now k f _) as [[[] w2]| |] eqn:Heat; try discriminate.
  apply (eatStep_accounted now key k j f w w2 Hf) in Heat.
  unfold bind at 1.
  destruct (getWorm k w2) as [[o' w2']| |] eqn:Ho'; try discriminate.
  apply getWorm_spec in Ho' as [-> _].
  destruct (negb (isMagnetActive o')); [intros [= _ <-]; exact Heat|].
  intros Hrest. transitivity w2; [exact Heat|]. exact (IH _ _ _ _ Hrest).
Qed.

Lemma foodCollision_accounted now key k :
  preserves (accounted key) (foodCollision now k).
Proof.
  unfold foodCollision.
  preserves_step; [apply (getWorm_preserves (accounted key))|].
  preserves_step; [preserves_step|].
  preserves_step; [preserves_step|].
  preserves_step; [apply scanFood_accounted|].
  preserves_step; [apply (getWorm_preserves (accounted key))|].
  preserves_step; preserves_step. now apply accounted_update.
Qed.

(** [checkCollisions]: every worm scores [FOOD_SCORE] for each entry of
    [eatenFoodThisTick] of which it is the eater, and nothing else; the
    entries are those of this call. *)
Theorem checkCollisions_scores_each_item_eaten fuel now (w w' : World num) key o :
  registryOk (players w) ->
  checkCollisions fuel now w = Ok (tt, w') ->
  wormOf key w = Some o ->
  exists o',
    wormOf key w' = Some o'
    /\ score o'
       = (score o + FOOD_SCORE * Z.of_nat (length (eatenOf key w')))%Z.
Proof.
  intros Hok. unfold checkCollisions.
  unfold bind at 1, get. unfold bind at 1, modify. unfold bind at 1.
  set (w0 := set_eatenFoodThisTick [] w).
  set (living := livingWormKeys (players w)).
  destruct (forEachKey (foodCollision now) living w0) as [[[] wf]| |] eqn:Hfood;
    try discriminate.
  intros Hworm Ho.
  apply (forEachKey_preserves (accounted key)) in Hfood as [Hbal _];
    [|intros k _; apply foodCollision_accounted].
  destruct (Hbal Hok) as [Hokf Hbalf].
  apply wormLoop_wormPhase in Hworm as (_ & Hphase & Heaten & _).
  destruct (Hphase key) as [Hkept _].
  unfold balance in Hbalf. change (wormOf key w0) with (wormOf key w) in Hbalf.
  rewrite Ho in Hbalf. cbn in Hbalf.
  destruct (wormOf key wf) as [owf|] eqn:Hof; [|discriminate].
  cbn in Hbalf, Hkept. injection Hbalf as Hbalf.
  destruct (wormOf key w') as [o'|]; [|discriminate].
  cbn in Hkept. injection Hkept as _ Hscore.
  exists o'. split; [reflexivity|].
  replace (eatenOf key w') with (eatenOf key wf)
    by (unfold eatenOf; now rewrite Heaten).
  rewrite Hscore. lia.
Qed.

(** [checkCollisions] on a food list of [MAX_FOOD] items at most: each item
    eaten is replaced at once, and death only adds items, up to [MAX_FOOD]:
    the list does not get shorter. *)
Theorem checkCollisions_never_shrinks_food fuel now (w w' : World num) :
  (length (food w) <= MAX_FOOD)%nat ->
  checkCollisions fuel now w = Ok (tt, w') ->
  (length (food w) <= length (food w'))%nat
  /\ (length (food w') <= MAX_FOOD)%nat.
Proof.
  intros Hcap. unfold checkCollisions.
  unfold bind at 1, get. unfold bind at 1, modify. unfold bind at 1.
  set (w0 := set_eatenFoodThisTick [] w).
  set (living := livingWormKeys (players w)).
  destruct (forEachKey (foodCollision now) living w0) as [[[] wf]| |] eqn:Hfood;
    try discriminate.
  intros Hworm.
  apply (forEachKey_preserves (accounted "")) in Hfood as [_ Hsame];
    [|intros k _; apply foodCollision_accounted].
  specialize (Hsame Hcap). change (food w0) with (food w) in Hsame.
  apply wormLoop_wormPhase in Hworm as (_ & _ & _ & Hlo & Hhi).
  lia.
Qed.

End Accounts.

(* ================================================================== *)
(** ** Food in reach is eaten *)

Section Reach.
Context {num : Type} `{JsNumber num} `{RandomSource num}.

(** The test of the food loop for the item [f], the head [head] and the
    worm [o]. *)
Definition inReach (head : Point num) (o : Worm num) (f : Food num) : bool :=
  distSqBelow (pt_x head) (pt_y head) (food_x f) (food_y f)
    (Math_pow2 (effectiveCollisionRadius o)).

(** A scan that is entered with the flag set returns it set. *)
Lemma scanFood_flag now key head jPlus1 (w w' : World num) ate' :
  scanFood now key head jPlus1 true w = Ok (ate', w') -> ate' = true.
Proof.
  intros Hrun.
  apply scanFood_spec in Hrun as (g & es & kept & spawned & _ & _ & _ & _ & -> & _).
  now destruct es.
Qed.

(** The scan reaches an item in reach, or eats one before. *)
Lemma scanFood_hits now key head o f : forall jPlus1 i ate (w w' : World num) ate',
  wormOf key w = Some o -> (i < jPlus1)%nat -> food w !! i = Some f ->
  inReach head o f = true ->
  scanFood now key head jPlus1 ate w = Ok (ate', w') -> ate' = true.
Proof.
  induction jPlus1 as [|j IH]; intros i ate w w' ate' Ho Hi Hf Hreach; [lia|].
  cbn [scanFood]. unfold bind at 1, get.
  destruct (food w !! j) as [fj|] eqn:Hfj; [|discriminate].
  unfold bind at 1.
  destruct (getWorm key w) as [[o0 w0]| |] eqn:Hget; try discriminate.
  apply getWorm_spec in Hget as [-> Ho0]. rewrite Ho in Ho0. injection Ho0 as <-.
  destruct (distSqBelow _ _ _ _ _) eqn:Hhit.
  - unfold bind at 1, modify at 1. unfold bind at 1.
    destruct (eatFood now key fj _) as [[[] w2]| |]; try discriminate.
    unfold bind at 1.
    destruct (getWorm key w2) as [[o' w2']| |] eqn:Hget'; try discriminate.
    apply getWorm_spec in Hget' as [-> _].
    destruct (negb (isMagnetActive o')); [now intros [= <- _]|].
    apply scanFood_flag.
  - assert (i <> j) as Hne.
    { intros ->. rewrite Hf in Hfj. injection Hfj as <-.
      unfold inReach in Hreach. congruence. }
    apply (IH i ate w w' ate' Ho); [lia|exact Hf|exact Hreach].
Qed.

(** A worm with a food item in reach of its head eats in its pass of the
    food loop: at least one entry with this eater is added to
    [eatenFoodThisTick], and the segments stay as they are: the tail is not
    removed. *)
Theorem foodCollision_eats_food_in_reach now key (w w' : World num) o head rest f :
  wormOf key w = Some o -> segments o = head :: rest ->
  f ∈ food w -> inReach head o f = true ->
  foodCollision now key w = Ok (tt, w') ->
  exists e es o',
    eatenFoodThisTick w' = eatenFoodThisTick w ++ e :: es
    /\ Forall (eatenBy key w) (e :: es)
    /\ wormOf key w' = Some o' /\ segments o' = segments o.
Proof.
  intros Ho Hsegs Hin Hreach. unfold foodCollision. unfold bind at 1.
  destruct (getWorm key w) as [[o0 w0]| |] eqn:Hget; try discriminate.
  apply getWorm_spec in Hget as [-> Ho0]. rewrite Ho in Ho0.
  injection Ho0 as <-. rewrite Hsegs. unfold bind at 1, get. unfold bind at 1.
  destruct (scanFood _ _ _ _ _ w) as [[ate w1]| |] eqn:Hscan; try discriminate.
  apply list_elem_of_lookup in Hin as [i Hi].
  pose proof (lookup_lt_Some _ _ _ Hi) as Hlt.
  pose proof (scanFood_hits now key head o f _ i false w w1 ate Ho Hlt Hi
                Hreach Hscan) as ->.
  apply scanFood_spec in Hscan
    as (g & es & kept & spawned & Hp & Hb & He & Hby & Hate & _).
  unfold bind at 1.
  destruct (getWorm key w1) as [[o1 w1']| |] eqn:Hget1; try discriminate.
  apply getWorm_spec in Hget1 as [-> Ho1]. cbn [negb andb].
  intros [= <-]. destruct es as [|e es]; [discriminate|].
  exists e, es, o1. split; [exact He|]. split; [exact Hby|].
  split; [exact Ho1|].
  rewrite (wormOf_updatePlayers key g w w1 Hp), Ho in Ho1.
  injection Ho1 as <-. rewrite <- Hsegs. apply Hb.
Qed.

End Reach.

(* ================================================================== *)
(** ** The snapshot of a tick *)

Section Snapshot.
Context {num : Type} `{JsNumber num} `{Trig num} `{RandomSource num}.

(** What [prepareGameState] sends for the player [p] with the worm [o]. *)
Definition forClient (p : Player num) (o : Worm num) : @WormForClient num :=
  mkWormForClient (player_id p) (player_name p) (isBot p)
    (segments o) (color o) (angle o) (score o)
    (negb (isAlive o)) (hasSpeedBoost o) (isMagnetActive o).

(** The snapshot is taken of the world the tick leaves. *)
Lemma gameLoop_snapshot fuel now (w w' : World num) st :
  gameLoop fuel now w = Ok (st, w') -> st = prepareGameState w'.
Proof.
  unfold gameLoop. unfold bind at 1.
  destruct (manageBots w) as [[[] w1]| |]; try discriminate. unfold bind at 1.
  destruct (updateBots w1) as [[[] w2]| |]; try discriminate. unfold bind at 1.
  destruct (moveWorms fuel now w2) as [[[] w3]| |]; try discriminate.
  unfold bind at 1.
  destruct (checkCollisions fuel now w3) as [[[] w4]| |]; try discriminate.
  cbn. now intros [= <- <-].
Qed.

Lemma gameLoop_reachable fuel now (w w' : World num) st :
  reachable w -> gameLoop fuel now w = Ok (st, w') -> reachable w'.
Proof.
  intros Hw Hrun. apply (later_trans _ w); [exact Hw|].
  apply (later_event w (Tick fuel now) w' w'); [exact I| |apply later_now].
  cbn [handle]. unfold bind. now rewrite Hrun.
Qed.

(** In a world with a sound registry the snapshot has one entry per
    registered player, in the order of the registry. *)
Lemma snapshot_worms (ps : list (string * Player num)) :
  Forall playerOk ps ->
  Forall2 (fun kp kc =>
             fst kc = fst kp
             /\ exists o, worm (snd kp) = Some o
                          /\ snd kc = forClient (snd kp) o)
    ps
    (omap (fun kp : string * Player num =>
             let p := snd kp in
             match worm p with
             | Some o =>
                 Some (player_id p,
                       mkWormForClient (player_id p) (player_name p) (isBot p)
                         (segments o) (color o) (angle o) (score o)
                         (negb (isAlive o)) (hasSpeedBoost o) (isMagnetActive o))
             | None => None
             end) ps).
Proof.
  induction 1 as [|[k p] ps (Hid & o & Ho & _) _ IH]; [constructor|].
  simpl in Hid, Ho |- *. rewrite Ho. simpl. constructor; [|exact IH].
  split; [exact Hid|]. exists o. now split.
Qed.

(** The snapshot that a tick gives to [io.emit] is the one of the world the
    tick leaves; it has exactly one worm entry for each registered player,
    in the order of the registry and under the player's id, no id twice, with
    [isGameOver] the negation of [isAlive]; and it carries the food list
    and the eaten food of that world. *)
Theorem gameLoop_snapshot_lists_each_player_once
  fuel now (w w' : World num) st :
  reachable w -> gameLoop fuel now w = Ok (st, w') ->
  Forall2 (fun kp kc =>
             fst kc = fst kp
             /\ exists o, worm (snd kp) = Some o
                          /\ snd kc = forClient (snd kp) o)
    (players w') (gs_worms st)
  /\ NoDup (map fst (gs_worms st))
  /\ gs_food st = food w'
  /\ gs_eatenFood st = eatenFoodThisTick w'.
Proof.
  intros Hw Hrun.
  pose proof (reachable_sound w' (gameLoop_reachable fuel now w w' st Hw Hrun))
    as (Hnd & Hok & _).
  apply gameLoop_snapshot in Hrun as ->. cbn [gs_worms gs_food gs_eatenFood prepareGameState].
  pose proof (snapshot_worms (players w') Hok) as Hall.
  split; [exact Hall|]. split; [|now split].
  match type of Hall with Forall2 _ _ ?cs =>
    change (NoDup (map fst cs));
    cut (map fst cs = map fst (players w')); [now intros ->|] end.
  clear Hnd Hok. induction Hall as [|kp kc ps cs [Hk _] _ IH]; [reflexivity|].
  cbn [map]. rewrite Hk. f_equal. exact IH.
Qed.

End Snapshot.

(* ================================================================== *)
(** ** Eaten food is gone *)

Section EatenIds.
Context {num : Type} `{JsNumber num} `{Trig num} `{RandomSource num}.

(** The ids of the food list are in order, and every entry of
    [eatenFoodThisTick] carries an id that was handed out and that no item
    of the food list has. *)
Definition gone (w : World num) : Prop :=
  foodIdsOk w
  /\ forall e, e ∈ eatenFoodThisTick w ->
       issued w (eaten_id e) /\ eaten_id e ∉ map food_id (food w).

Definition goneStep (w w' : World num) : Prop := gone w -> gone w'.

#[local] Instance goneStep_PreOrder : PreOrder goneStep.
Proof. split; [now intros w|]. intros w1 w2 w3 H12 H23 Hw. auto. Qed.

(** Items are removed and items with new ids are added, and the entries
    stay: the entries are still gone. *)
Lemma gone_foodStep (w w' : World num) :
  foodStep w w' -> eatenFoodThisTick w' = eatenFoodThisTick w -> goneStep w w'.
Proof.
  intros (Hle & Hok & Hnew) He [Hids Hgone]. split; [now apply Hok|].
  rewrite He. intros e Hin. destruct (Hgone e Hin) as [Hiss Hnot].
  split; [now apply (issued_mono w)|].
  intros Hid. apply list_elem_of_fmap in Hid as (f & Heq & Hf).
  destruct (Hnew f Hf) as [Hold|Hfresh].
  - apply Hnot. rewrite Heq. apply list_elem_of_fmap. eauto.
  - apply Hfresh. now rewrite <- Heq.
Qed.

Lemma goneStep_other (w w' : World num) :
  food w' = food w -> nextFoodId w' = nextFoodId w ->
  eatenFoodThisTick w' = eatenFoodThisTick w -> goneStep w w'.
Proof. intros Hf Hn He. apply gone_foodStep; [now apply foodStep_other|exact He]. Qed.

Let any : string -> Prop := fun _ => True.

#[local] Instance goneStep_random : RandomTolerant goneStep.
Proof. split; [exact _|]. intros. now apply goneStep_other. Qed.

#[local] Instance goneStep_food : TolFood goneStep.
Proof. split. intros w mk Hmk. apply gone_foodStep; [now apply foodStep_push|reflexivity]. Qed.

#[local] Instance goneStep_delete : TolDelete goneStep.
Proof. split. intros w j. apply gone_foodStep; [apply foodStep_delete|reflexivity]. Qed.

Lemma eaten_updateWormOf key (g : Worm num -> Worm num) (w : World num) :
  eatenFoodThisTick (updateWormOf key g w) = eatenFoodThisTick w.
Proof.
  unfold updateWormOf. destruct (lookupPlayer key (players w)) as [p|]; [|easy].
  now destruct (worm p).
Qed.

Lemma goneStep_worm key (g : Worm num -> Worm num) (w : World num) :
  goneStep w (updateWormOf key g w).
Proof.
  apply goneStep_other;
    [apply food_updateWormOf|apply food_updateWormOf|apply eaten_updateWormOf].
Qed.

#[local] Instance goneStep_touch : TolWorm goneStep any.
Proof. split. intros. apply goneStep_worm. Qed.

#[local] Instance goneStep_pop : TolPop goneStep any.
Proof. split. intros. apply goneStep_worm. Qed.

#[local] Instance goneStep_output : TolOutput goneStep.
Proof. split; intros; now apply goneStep_other. Qed.

(** The id of an item is not the id of another item of a list without
    repeated ids. *)
Lemma NoDup_delete_id (fs : list (Food num)) j f :
  NoDup (map food_id fs) -> fs !! j = Some f ->
  food_id f ∉ map food_id (delete j fs).
Proof.
  intros Hnd Hj. rewrite delete_take_drop.
  rewrite <- (take_drop_middle fs j f Hj) in Hnd.
  rewrite map_app in Hnd. cbn [map] in Hnd.
  apply NoDup_app in Hnd as (_ & Hdisj & Hnd2).
  apply NoDup_cons in Hnd2 as [Hnot _].
  rewrite map_app. intros Hin. apply elem_of_app in Hin as [Hin|Hin].
  - apply (Hdisj _ Hin). left.
  - exact (Hnot Hin).
Qed.

(** The item [f] has left the food list: eating it records an entry that
    is gone. *)
Lemma eatFood_gone now key f (w w' : World num) :
  gone w -> issued w (food_id f) -> food_id f ∉ map food_id (food w) ->
  eatFood now key f w = Ok (tt, w') -> gone w'.
Proof.
  intros [Hids Hgone] Hiss Hnot. unfold eatFood. unfold bind at 1, getPlayer.
  destruct (lookupPlayer key (players w)) as [player|] eqn:Hp; [|discriminate].
  unfold bind at 1, modify at 1. intros Hrun.
  lazymatch type of Hrun with
  | ?c ?w1 = Ok _ =>
      assert (gone w1) as Hw1; [|assert (preserves goneStep c) as Hc]
  end.
  - split; [exact Hids|]. cbn [eatenFoodThisTick set_eatenFoodThisTick food].
    intros e Hin. apply elem_of_app in Hin as [Hin|Hin]; [now apply Hgone|].
    apply list_elem_of_singleton in Hin as ->. now split.
  - preserves_step; [preserves_step; apply goneStep_worm|].
    preserves_step; [apply (spawnFood_preserves goneStep)|].
    preserves_step.
    { preserves_step; [preserves_step; apply goneStep_worm|].
      preserves_step; [|preserves_step].
      preserves_step; [preserves_step; apply goneStep_worm|].
      preserves_step. apply T_timers. }
    preserves_step; [|preserves_step].
    preserves_step; [apply (getWorm_preserves goneStep)|].
    preserves_step; [|preserves_step].
    preserves_step; [|preserves_step].
    now apply (updateBotState_preserves goneStep any).
  - exact (Hc _ _ _ Hrun Hw1).
Qed.

Lemma scanFood_gone now key head :
  forall jPlus1 ate, preserves goneStep (scanFood now key head jPlus1 ate).
Proof.
  induction jPlus1 as [|j IH]; intros ate; cbn [scanFood]; [preserves_step|].
  intros w ate' w'. unfold bind at 1, get.
  destruct (food w !! j) as [f|] eqn:Hf; [|discriminate].
  unfold bind at 1.
  destruct (getWorm key w) as [[o w0]| |] eqn:Ho; try discriminate.
  apply getWorm_spec in Ho as [-> Ho].
  destruct (distSqBelow _ _ _ _ _); [|apply IH].
  unfold bind at 1, modify at 1. unfold bind at 1.
  destruct (eatFood now key f _) as [[[] w2]| |] eqn:Heat; try discriminate.
  intros Hrun Hw.
  assert (gone w2) as Hw2.
  { eapply eatFood_gone; [| | |exact Heat].
    - exact (T_delete (R:=goneStep) w j Hw).
    - destruct Hw as [[_ Hiss] _]. apply Hiss.
      eapply list_elem_of_lookup_2, Hf.
    - cbn [food set_food]. destruct Hw as [[Hnd _] _].
      now apply NoDup_delete_id. }
  revert Hrun. unfold bind at 1.
  destruct (getWorm key w2) as [[o' w0]| |] eqn:Ho'; try discriminate.
  apply getWorm_spec in Ho' as [-> _].
  destruct (negb (isMagnetActive o')); [now intros [= _ <-]|].
  intros Hrest. exact (IH _ _ _ _ Hrest Hw2).
Qed.

Lemma foodCollision_gone now key : preserves goneStep (foodCollision now key).
Proof.
  unfold foodCollision.
  preserves_step; [apply (getWorm_preserves goneStep)|].
  preserves_step; [preserves_step|].
  preserves_step; [preserves_step|].
  preserves_step; [apply scanFood_gone|].
  preserves_step; [apply (getWorm_preserves goneStep)|].
  preserves_step; preserves_step. apply goneStep_worm.
Qed.

(** [checkCollisions] in a world whose food ids are in order. *)
Lemma checkCollisions_gone fuel now (w w' : World num) :
  foodIdsOk w -> checkCollisions fuel now w = Ok (tt, w') -> gone w'.
Proof.
  intros Hids. unfold checkCollisions. unfold bind at 1, get.
  unfold bind at 1, modify at 1. intros Hrun.
  lazymatch type of Hrun with
  | ?c ?w1 = Ok _ =>
      assert (gone w1) as Hw1; [|assert (preserves goneStep c) as Hc]
  end.
  - split; [exact Hids|]. cbn [eatenFoodThisTick set_eatenFoodThisTick].
    intros e Hin. now apply elem_of_nil in Hin.
  - preserves_step.
    + apply (forEachKey_preserves goneStep). intros key _.
      apply foodCollision_gone.
    + apply (forEachKey_preserves goneStep). intros key _.
      now apply (wormCollision_preserves goneStep any).
  - exact (Hc _ _ _ Hrun Hw1).
Qed.

(** After any sequence of events, the snapshot of a tick has no food id
    twice, and no item of its food list is listed as eaten: every entry of
    [eatenFood] carries the id of an item that has left the list, and that
    no item spawned or dropped since has been given. *)
Theorem gameLoop_snapshot_never_lists_eaten_food
  fuel now (w w' : World num) st :
  reachable w -> gameLoop fuel now w = Ok (st, w') ->
  NoDup (map food_id (gs_food st))
  /\ forall e, e ∈ gs_eatenFood st -> eaten_id e ∉ map food_id (gs_food st).
Proof.
  intros Hw. pose proof (reachable_foodIdsOk w Hw) as Hids.
  unfold gameLoop. unfold bind at 1.
  destruct (manageBots w) as [[[] w1]| |] eqn:E1; try discriminate.
  unfold bind at 1.
  destruct (updateBots w1) as [[[] w2]| |] eqn:E2; try discriminate.
  unfold bind at 1.
  destruct (moveWorms fuel now w2) as [[[] w3]| |] eqn:E3; try discriminate.
  unfold bind at 1.
  destruct (checkCollisions fuel now w3) as [[[] w4]| |] eqn:E4;
    try discriminate.
  cbn. intros [= <- <-].
  pose proof (foodStep_FoodOnly (num:=num)) as Hfood.
  apply (manageBots_food foodStep) in E1 as (_ & Hok1 & _).
  apply (updateBots_food foodStep) in E2 as (_ & Hok2 & _).
  apply (moveWorms_food foodStep) in E3 as (_ & Hok3 & _).
  apply checkCollisions_gone in E4 as [[Hnd _] Hgone]; [|auto].
  cbn [gs_food gs_eatenFood prepareGameState].
  split; [exact Hnd|]. intros e Hin. now apply Hgone.
Qed.

End EatenIds.

(* ================================================================== *)
(** ** Death and return *)

Section Comeback.
Context {num : Type} `{JsNumber num} `{Trig num} `{RandomSource num}.

(** The event that brings a dead player back: the timer that [killPlayer]
    sets for a bot, the [respawn] request for a human. *)
Definition comeback (bot : bool) (pId : string) : Event (num:=num) :=
  if bot then TimerFires (RespawnBot pId 5000) else Respawn pId.

(** [resetPlayer] for a player that is registered. *)
Lemma resetPlayer_registered pId (w w' : World num) p :
  lookupPlayer pId (players w) = Some p ->
  resetPlayer pId w = Ok (tt, w') ->
  exists o,
    wormOf pId w' = Some o /\ freshWorm (isBot p) o
    /\ map fst (players w') = map fst (players w)
    /\ food w' = food w /\ eatenFoodThisTick w' = eatenFoodThisTick w
    /\ timers w' = timers w /\ emitted w' = emitted w.
Proof.
  intros Hp Hrun. apply resetPlayer_exact in Hrun. rewrite Hp in Hrun.
  destruct Hrun as (o & n & Hfresh & ->). exists o.
  unfold wormOf. cbn [players food eatenFoodThisTick timers emitted
                      set_players set_randomCalls].
  rewrite lookupPlayer_storePlayer_eq. split; [reflexivity|].
  split; [exact Hfresh|]. split; [|now repeat split].
  exact (storePlayer_keys pId _ p _ Hp).
Qed.

(** The [respawn] request of a socket: nothing happens for a socket that is
    not registered or whose worm is alive; a dead worm is replaced by a
    fresh one, and nothing else changes but the count of draws. *)
Theorem onRespawn_revives_only_the_dead socketId (w w' : World num) p o :
  lookupPlayer socketId (players w) = Some p -> worm p = Some o ->
  onRespawn socketId w = Ok (tt, w') ->
  if isAlive o then w' = w
  else exists o',
         wormOf socketId w' = Some o' /\ freshWorm (isBot p) o'
         /\ map fst (players w') = map fst (players w)
         /\ food w' = food w /\ eatenFoodThisTick w' = eatenFoodThisTick w
         /\ timers w' = timers w /\ emitted w' = emitted w.
Proof.
  intros Hp Ho. unfold onRespawn. unfold bind at 1, get. rewrite Hp, Ho.
  destruct (isAlive o); cbn [negb]; [now intros [= <-]|].
  now apply resetPlayer_registered.
Qed.

(** A living player that is killed is marked dead and keeps its score; what
    brings it back is then possible (the timer of a bot has been set), and
    when that happens the player has a fresh living worm, under the same key,
    and the food is as the death left it. *)
Theorem killed_player_comes_back fuel pId (w w1 w2 : World num) p o :
  lookupPlayer pId (players w) = Some p -> worm p = Some o ->
  isAlive o = true ->
  killPlayer fuel pId w = Ok (tt, w1) ->
  handle (comeback (isBot p) pId) w1 = Ok (tt, w2) ->
  enabled (comeback (isBot p) pId) w1
  /\ wormOf pId w1 = Some (set_isAlive false o)
  /\ exists o2,
       wormOf pId w2 = Some o2 /\ freshWorm (isBot p) o2
       /\ map fst (players w2) = map fst (players w)
       /\ food w2 = food w1.
Proof.
  intros Hp Ho Halive Hkill Hback. apply killPlayer_exact in Hkill.
  rewrite Hp, Ho, Halive in Hkill.
  destruct Hkill as (Hplayers & _ & _ & _ & Hout).
  assert (lookupPlayer pId (players w1) = Some (set_worm (Some (set_isAlive false o)) p))
    as Hp1 by (now rewrite Hplayers, lookupPlayer_updatePlayers, Hp, Ho).
  assert (map fst (players w1) = map fst (players w)) as Hkeys.
  { rewrite Hplayers. unfold updatePlayers. rewrite Hp, Ho.
    exact (storePlayer_keys pId _ p _ Hp). }
  assert (resetPlayer pId w1 = Ok (tt, w2)) as Hreset.
  { revert Hback. unfold comeback. destruct (isBot p); cbn [handle].
    - unfold fireTimer. unfold bind at 1, get. now rewrite Hp1.
    - unfold onRespawn. unfold bind at 1, get. now rewrite Hp1. }
  split.
  { unfold comeback. destruct (isBot p); cbn [enabled]; [|exact I].
    destruct Hout as [-> _]. apply elem_of_app. right. left. }
  split; [unfold wormOf; now rewrite Hp1|].
  apply (resetPlayer_registered pId w1 w2 _ Hp1) in Hreset
    as (o2 & Ho2 & Hfresh & Hkeys2 & Hfood & _).
  exists o2. split; [exact Ho2|]. split; [exact Hfresh|].
  split; [congruence|exact Hfood].
Qed.

End Comeback.

(* ================================================================== *)
(** ** The step of the head *)

Section HeadStep.
Context {trig : Trig Q}.
Local Open Scope Q_scope.

Hypothesis cos_sin_unit :
  forall a, Math_cos a * Math_cos a + Math_sin a * Math_sin a == 1.

(** The square of the distance from [p] to [q] in the plane. *)
Definition stepSquared (p q : Point Q) : Q :=
  (pt_x q - pt_x p) * (pt_x q - pt_x p) + (pt_y q - pt_y p) * (pt_y q - pt_y p).

(** In exact arithmetic, with [cos² + sin² = 1]: [updateWorm] on a living
    worm puts one new segment in front of the others, which stay as they
    are; the new head is on the level of the old one, and away from it by
    the speed of this tick, in the direction of the new heading: that speed
    is [WORM_SPEED], or [WORM_SPEED * SPEED_BOOST_FACTOR] while a speed boost
    has not expired. *)
Theorem updateWorm_moves_head_by_speed fuel now (o o' : Worm Q) head rest :
  isAlive o = true -> segments o = head :: rest ->
  updateWorm fuel now o = Ok o' ->
  exists newHead,
    segments o' = newHead :: head :: rest
    /\ pt_x newHead == pt_x head + Math_cos (angle o') * currentSpeed now o
    /\ pt_y newHead == pt_y head + Math_sin (angle o') * currentSpeed now o
    /\ pt_z newHead = pt_z head
    /\ stepSquared head newHead == currentSpeed now o * currentSpeed now o
    /\ currentSpeed now o
       == (if hasSpeedBoost o && (now <? speedBoostEndTime o)%Z then 16 # 5 else 2).
Proof.
  intros Halive Hsegs. unfold updateWorm. rewrite Halive, Hsegs. cbn [negb].
  destruct (shortestAngleDiff fuel (targetAngle o) (angle o)) as [d| |];
    try discriminate.
  intros [= <-]. eexists. split; [reflexivity|].
  cbn [segments angle set_segments set_angle pt_x pt_y pt_z].
  lazymatch goal with |- context [Math_cos ?x] => set (a := x) end.
  set (s := currentSpeed now o).
  change (add ?x ?y) with (x + y). change (mul ?x ?y) with (x * y).
  split; [reflexivity|]. split; [reflexivity|]. split; [reflexivity|].
  split.
  - unfold stepSquared. cbn [pt_x pt_y].
    transitivity ((Math_cos a * Math_cos a + Math_sin a * Math_sin a) * (s * s));
      [ring|]. rewrite cos_sin_unit. ring.
  - subst s. unfold currentSpeed.
    destruct (hasSpeedBoost o && (now <? speedBoostEndTime o)%Z); reflexivity.
Qed.

End HeadStep.

(* ================================================================== *)
(** ** The functions of the server, run on examples *)

Section ServerExamples.

(** The human ["s1"] of [soloWorld] and [twoFoodWorld]. *)
Definition soloPlayer : Player f64 :=
  mkPlayer "s1" "Worm_s1" false (Some (straightWorm (F64_of_Z 0))).

Lemma soloRegistry_ok : registryOk [("s1"%string, soloPlayer)].
Proof. split; [apply NoDup_singleton|]. now repeat constructor. Qed.

(** [spawnFood(3)] in the empty world. *)
Definition threeFoodWorld : World f64 :=
  match spawnFood (H1:=sampleRandom) 3 emptyWorld with
  | Ok (_, w) => w
  | _ => emptyWorld
  end.

Lemma spawnFood_appends_up_to_MAX_FOOD_witness :
  spawnFood (H1:=sampleRandom) 3 emptyWorld = Ok (tt, threeFoodWorld)
  /\ map food_id (food threeFoodWorld) = ["food-0"; "food-1"; "food-2"]%string
  /\ exists new n,
       threeFoodWorld
       = set_food (food (emptyWorld (num:=f64)) ++ new)
           (set_nextFoodId
              (nextFoodId (emptyWorld (num:=f64)) + N.of_nat (length new))
              (set_randomCalls n emptyWorld))
       /\ length new
          = Nat.min 3 (MAX_FOOD - length (food (emptyWorld (num:=f64))))
       /\ map food_id new
          = idsFrom (nextFoodId (emptyWorld (num:=f64))) (length new)
       /\ Forall (spawnedItem (H0:=sampleRandom)) new.
Proof.
  assert (spawnFood (H1:=sampleRandom) 3 emptyWorld = Ok (tt, threeFoodWorld))
    as Hrun by (vm_compute; reflexivity).
  split; [exact Hrun|]. split; [vm_compute; reflexivity|].
  exact (spawnFood_appends_up_to_MAX_FOOD (H0:=sampleRandom)
           3 emptyWorld threeFoodWorld Hrun).
Defined.

Lemma spawnFood_places_food_inside_world_witness :
  (forall n : nat, (0 <= 2 # 5)%Q /\ (2 # 5 < 1)%Q)
  /\ spawnFood (H1:=constantRandom (2 # 5)%Q) 1 emptyWorld = Ok (tt, oneFoodWorld)
  /\ exists new,
       food oneFoodWorld = food (emptyWorld (num:=Q)) ++ new
       /\ Forall (fun f => ((24 <= food_x f)%Q /\ (food_x f < 2976)%Q)
                           /\ ((24 <= food_y f)%Q /\ (food_y f < 2976)%Q)) new.
Proof.
  assert (forall n : nat, (0 <= 2 # 5)%Q /\ (2 # 5 < 1)%Q) as Hrandom
    by (intros _; split; [discriminate|reflexivity]).
  assert (spawnFood (H1:=constantRandom (2 # 5)%Q) 1 emptyWorld
          = Ok (tt, oneFoodWorld)) as Hrun by (vm_compute; reflexivity).
  split; [exact Hrandom|]. split; [exact Hrun|].
  exact (spawnFood_places_food_inside_world (rs:=constantRandom (2 # 5)%Q)
           1 emptyWorld oneFoodWorld Hrandom Hrun).
Defined.

(** [killPlayer("s1")] in [soloWorld]. *)
Definition afterKill : World f64 :=
  match killPlayer (H1:=sampleRandom) 10 "s1" (soloWorld (F64_of_Z 0)) with
  | Ok (_, w) => w
  | _ => soloWorld (F64_of_Z 0)
  end.

Lemma afterKill_run :
  killPlayer (H1:=sampleRandom) 10 "s1" (soloWorld (F64_of_Z 0))
  = Ok (tt, afterKill).
Proof. vm_compute. reflexivity. Qed.

Lemma killPlayer_marks_dead_and_drops_plain_food_witness :
  killPlayer (H1:=sampleRandom) 10 "s1" (soloWorld (F64_of_Z 0))
  = Ok (tt, afterKill)
  /\ players afterKill
     = updatePlayers "s1" (set_isAlive false) [("s1"%string, soloPlayer)]
  /\ (exists dropped,
        food afterKill = [] ++ dropped
        /\ Forall (droppedFrom (Hsl (F64_of_Z 200)) straightSegments 0) dropped)
  /\ (length (food afterKill) <= Nat.max MAX_FOOD 0)%nat
  /\ eatenFoodThisTick afterKill = []
  /\ emitted afterKill = [] ++ [GameOver "s1" 0]
  /\ timers afterKill = [].
Proof.
  split; [exact afterKill_run|].
  exact (killPlayer_marks_dead_and_drops_plain_food (H0:=sampleRandom)
           10 "s1" (soloWorld (F64_of_Z 0)) afterKill afterKill_run).
Defined.

(** [resetPlayer("s1")] in [soloWorld]. *)
Definition afterReset : World f64 :=
  match resetPlayer (H0:=sampleTrig) (H1:=sampleRandom) "s1"
          (soloWorld (F64_of_Z 0)) with
  | Ok (_, w) => w
  | _ => soloWorld (F64_of_Z 0)
  end.

Lemma resetPlayer_gives_fresh_worm_witness :
  resetPlayer (H0:=sampleTrig) (H1:=sampleRandom) "s1" (soloWorld (F64_of_Z 0))
  = Ok (tt, afterReset)
  /\ exists o n,
       freshWorm false o
       /\ afterReset
          = set_players
              (storePlayer "s1" (set_worm (Some o) soloPlayer)
                           [("s1"%string, soloPlayer)])
              (set_randomCalls n (soloWorld (F64_of_Z 0))).
Proof.
  assert (resetPlayer (H0:=sampleTrig) (H1:=sampleRandom) "s1"
            (soloWorld (F64_of_Z 0)) = Ok (tt, afterReset)) as Hrun
    by (vm_compute; reflexivity).
  split; [exact Hrun|].
  exact (resetPlayer_gives_fresh_worm (H0:=sampleTrig) (H1:=sampleRandom)
           "s1" (soloWorld (F64_of_Z 0)) afterReset Hrun).
Defined.

(** The socket ["abcdef"] connects to the empty server, and disconnects. *)
Definition afterConnect : World f64 :=
  match onConnection (H0:=sampleTrig) (H1:=sampleRandom) "abcdef" emptyWorld with
  | Ok (_, w) => w
  | _ => emptyWorld
  end.

Definition afterDisconnect : World f64 :=
  match onDisconnect "abcdef" afterConnect with
  | Ok (_, w) => w
  | _ => emptyWorld
  end.

Lemma connect_then_disconnect_restores_registry_witness :
  lookupPlayer "abcdef" (players (emptyWorld (num:=f64))) = None
  /\ onConnection (H0:=sampleTrig) (H1:=sampleRandom) "abcdef" emptyWorld
     = Ok (tt, afterConnect)
  /\ onDisconnect "abcdef" afterConnect = Ok (tt, afterDisconnect)
  /\ (exists o,
        freshWorm false o
        /\ players afterConnect
           = [] ++ [("abcdef"%string,
                     mkPlayer "abcdef" "Worm_abcd" false (Some o))])
  /\ emitted afterConnect = [] ++ [Welcome "abcdef"]
  /\ food afterConnect = []
  /\ players afterDisconnect = [] /\ food afterDisconnect = []
  /\ emitted afterDisconnect = emitted afterConnect.
Proof.
  assert (onConnection (H0:=sampleTrig) (H1:=sampleRandom) "abcdef" emptyWorld
          = Ok (tt, afterConnect)) as Hrun1 by (vm_compute; reflexivity).
  assert (onDisconnect "abcdef" afterConnect = Ok (tt, afterDisconnect))
    as Hrun2 by (vm_compute; reflexivity).
  split; [reflexivity|]. split; [exact Hrun1|]. split; [exact Hrun2|].
  exact (connect_then_disconnect_restores_registry
           (H0:=sampleTrig) (H1:=sampleRandom)
           "abcdef" emptyWorld afterConnect afterDisconnect
           eq_refl Hrun1 Hrun2).
Defined.

(** The collision checks in [twoFoodWorld]. *)
Definition afterCollisions : World f64 :=
  match checkCollisions (H1:=sampleRandom) 10 0 twoFoodWorld with
  | Ok (_, w) => w
  | _ => twoFoodWorld
  end.

Lemma afterCollisions_run :
  checkCollisions (H1:=sampleRandom) 10 0 twoFoodWorld = Ok (tt, afterCollisions).
Proof. vm_compute. reflexivity. Qed.

Lemma survivors_are_inside_and_apart_witness :
  registryOk (players (twoFoodWorld (num:=f64)))
  /\ checkCollisions (H1:=sampleRandom) 10 0 twoFoodWorld
     = Ok (tt, afterCollisions)
  /\ option_map isAlive (wormOf "s1" afterCollisions) = Some true
  /\ forall key o head rest,
       wormOf key afterCollisions = Some o -> isAlive o = true ->
       segments o = head :: rest ->
       insideWorld head = true
       /\ hitsSelf head (segments o) = false
       /\ forall key2 o2,
            key2 <> key -> wormOf key2 afterCollisions = Some o2 ->
            isAlive o2 = true -> touches head (segments o2) = false.
Proof.
  split; [exact soloRegistry_ok|]. split; [exact afterCollisions_run|].
  split; [vm_compute; reflexivity|].
  exact (survivors_are_inside_and_apart (H0:=sampleRandom)
           10 0 twoFoodWorld afterCollisions soloRegistry_ok afterCollisions_run).
Defined.

Lemma checkCollisions_scores_each_item_eaten_witness :
  registryOk (players (twoFoodWorld (num:=f64)))
  /\ checkCollisions (H1:=sampleRandom) 10 0 twoFoodWorld
     = Ok (tt, afterCollisions)
  /\ wormOf "s1" (twoFoodWorld (num:=f64)) = Some (straightWorm (F64_of_Z 0))
  /\ length (eatenOf "s1" afterCollisions) = 2%nat
  /\ exists o',
       wormOf "s1" afterCollisions = Some o'
       /\ score o'
          = (0 + FOOD_SCORE * Z.of_nat (length (eatenOf "s1" afterCollisions)))%Z.
Proof.
  split; [exact soloRegistry_ok|]. split; [exact afterCollisions_run|].
  split; [reflexivity|]. split; [vm_compute; reflexivity|].
  exact (checkCollisions_scores_each_item_eaten (H0:=sampleRandom)
           10 0 twoFoodWorld afterCollisions "s1" (straightWorm (F64_of_Z 0))
           soloRegistry_ok afterCollisions_run eq_refl).
Defined.

Lemma checkCollisions_never_shrinks_food_witness :
  (length (food (twoFoodWorld (num:=f64))) <= MAX_FOOD)%nat
  /\ checkCollisions (H1:=sampleRandom) 10 0 twoFoodWorld
     = Ok (tt, afterCollisions)
  /\ (2 <= length (food afterCollisions))%nat
  /\ (length (food afterCollisions) <= MAX_FOOD)%nat.
Proof.
  assert (length (food (twoFoodWorld (num:=f64))) <= MAX_FOOD)%nat as Hcap
    by (unfold MAX_FOOD; cbn; lia).
  split; [exact Hcap|]. split; [exact afterCollisions_run|].
  exact (checkCollisions_never_shrinks_food (H0:=sampleRandom)
           10 0 twoFoodWorld afterCollisions Hcap afterCollisions_run).
Defined.

(** The food item of [twoFoodWorld] that is 10 away from the head. *)
Definition nearFood : Food f64 :=
  mkFood "food-1" (of_Z 1510) (of_Z 1500) WORLD_GROUND_Z
         (Hsl (of_Z 20)) FOOD_RADIUS FOOD_TYPE_MAGNET.

Definition straightHead : Point f64 :=
  mkPoint (sub (of_Z 1500) (mul (of_nat 0) WORM_SEGMENT_DISTANCE))
          (of_Z 1500) WORLD_GROUND_Z.

Lemma foodCollision_eats_food_in_reach_witness :
  wormOf "s1" (twoFoodWorld (num:=f64)) = Some (straightWorm (F64_of_Z 0))
  /\ segments (straightWorm (F64_of_Z 0))
     = straightHead :: tail (segments (straightWorm (F64_of_Z 0)))
  /\ nearFood ∈ food (twoFoodWorld (num:=f64))
  /\ inReach straightHead (straightWorm (F64_of_Z 0)) nearFood = true
  /\ foodCollision (H1:=sampleRandom) 0 "s1" twoFoodWorld = Ok (tt, afterTwoFoods)
  /\ exists e es o',
       eatenFoodThisTick afterTwoFoods = [] ++ e :: es
       /\ Forall (eatenBy "s1" twoFoodWorld) (e :: es)
       /\ wormOf "s1" afterTwoFoods = Some o'
       /\ segments o' = segments (straightWorm (F64_of_Z 0)).
Proof.
  assert (nearFood ∈ food (twoFoodWorld (num:=f64))) as Hin
    by (right; left).
  assert (inReach straightHead (straightWorm (F64_of_Z 0)) nearFood = true)
    as Hreach by (vm_compute; reflexivity).
  assert (foodCollision (H1:=sampleRandom) 0 "s1" twoFoodWorld
          = Ok (tt, afterTwoFoods)) as Hrun by (vm_compute; reflexivity).
  split; [reflexivity|]. split; [reflexivity|]. split; [exact Hin|].
  split; [exact Hreach|]. split; [exact Hrun|].
  exact (foodCollision_eats_food_in_reach (H0:=sampleRandom)
           0 "s1" twoFoodWorld afterTwoFoods (straightWorm (F64_of_Z 0))
           straightHead (tail (segments (straightWorm (F64_of_Z 0)))) nearFood
           eq_refl eq_refl Hin Hreach Hrun).
Defined.

Lemma manageBots_moves_bot_count_to_target_witness :
  lookupPlayer (botIdOf (nextBotId (emptyWorld (num:=f64))))
               (players (emptyWorld (num:=f64))) = None
  /\ manageBots (H0:=sampleTrig) (H1:=sampleRandom) emptyWorld = Ok (tt, botWorld)
  /\ map fst (players botWorld) = ["bot_0"%string]
  /\ humansOf (players botWorld) = humansOf (players (emptyWorld (num:=f64)))
  /\ food botWorld = food (emptyWorld (num:=f64)).
Proof.
  assert (manageBots (H0:=sampleTrig) (H1:=sampleRandom) emptyWorld
          = Ok (tt, botWorld)) as Hrun by (vm_compute; reflexivity).
  split; [reflexivity|]. split; [exact Hrun|]. split; [vm_compute; reflexivity|].
  destruct (manageBots_moves_bot_count_to_target
              (H0:=sampleTrig) (H1:=sampleRandom) emptyWorld botWorld
              eq_refl Hrun) as (Hhumans & Hfood & _).
  split; [exact Hhumans|exact Hfood].
Defined.

Lemma isSpawnPositionClear_checks_food_and_heads_witness :
  isSpawnPositionClear (F64_of_Z 100) (F64_of_Z 100) twoFoodWorld
  = Ok (true, twoFoodWorld)
  /\ twoFoodWorld = twoFoodWorld (num:=f64)
  /\ (true = true <->
      Forall (fun f => distSqBelow (F64_of_Z 100) (F64_of_Z 100)
                         (food_x f) (food_y f)
                         MIN_FOOD_SPAWN_DISTANCE_SQ = false)
             (food (twoFoodWorld (num:=f64)))
      /\ Forall (awayFromHead (F64_of_Z 100) (F64_of_Z 100))
                (players (twoFoodWorld (num:=f64)))).
Proof.
  assert (isSpawnPositionClear (F64_of_Z 100) (F64_of_Z 100) twoFoodWorld
          = Ok (true, twoFoodWorld (num:=f64))) as Hrun
    by (vm_compute; reflexivity).
  split; [exact Hrun|].
  exact (isSpawnPositionClear_checks_food_and_heads
           (F64_of_Z 100) (F64_of_Z 100) twoFoodWorld twoFoodWorld true Hrun).
Defined.

(** One tick of the game loop from [botWorld]. *)
Definition afterBotTick : World f64 :=
  match gameLoop (H0:=sampleTrig) (H1:=sampleRandom) 10 0 botWorld with
  | Ok (_, w) => w
  | _ => botWorld
  end.

Lemma afterBotTick_run :
  gameLoop (H0:=sampleTrig) (H1:=sampleRandom) 10 0 botWorld
  = Ok (prepareGameState afterBotTick, afterBotTick).
Proof. vm_compute. reflexivity. Qed.

Lemma gameLoop_snapshot_lists_each_player_once_witness :
  reachable (H0:=sampleTrig) (H1:=sampleRandom) botWorld
  /\ gameLoop (H0:=sampleTrig) (H1:=sampleRandom) 10 0 botWorld
     = Ok (prepareGameState afterBotTick, afterBotTick)
  /\ map fst (gs_worms (prepareGameState afterBotTick))
     = ["bot_0"; "bot_1"]%string
  /\ Forall2 (fun kp kc =>
                fst kc = fst kp
                /\ exists o, worm (snd kp) = Some o
                             /\ snd kc = forClient (snd kp) o)
       (players afterBotTick) (gs_worms (prepareGameState afterBotTick))
  /\ NoDup (map fst (gs_worms (prepareGameState afterBotTick)))
  /\ gs_food (prepareGameState afterBotTick) = food afterBotTick
  /\ gs_eatenFood (prepareGameState afterBotTick)
     = eatenFoodThisTick afterBotTick.
Proof.
  pose proof afterBotTick_run as Hrun.
  split; [exact botWorld_reachable|]. split; [exact Hrun|].
  split; [vm_compute; reflexivity|].
  exact (gameLoop_snapshot_lists_each_player_once
           (H0:=sampleTrig) (H1:=sampleRandom)
           10 0 botWorld afterBotTick (prepareGameState afterBotTick)
           botWorld_reachable Hrun).
Defined.

(** A server in which every draw of [Math.random()] is 0.5: the head of
    the worm of the socket ["s1"], which connects first, lies at
    (1500, 1500), and so do the 25 items of [spawnFood(MAX_FOOD / 2)]. *)
Definition half : f64 := div (of_Z 1) (of_Z 2).

Definition crowdedStart : World f64 :=
  match handle (H0:=sampleTrig) (H1:=constantRandom half)
          (Connection "s1") emptyWorld with
  | Ok (_, w) => w
  | _ => emptyWorld
  end.

Definition crowdedWorld : World f64 :=
  match handle (H0:=sampleTrig) (H1:=constantRandom half)
          StartFood crowdedStart with
  | Ok (_, w) => w
  | _ => crowdedStart
  end.

Lemma crowdedWorld_reachable :
  reachable (H0:=sampleTrig) (H1:=constantRandom half) crowdedWorld.
Proof.
  apply (later_event (H0:=sampleTrig) (H1:=constantRandom half)
           emptyWorld (Connection "s1") crowdedStart crowdedWorld);
    [exact I|vm_compute; reflexivity|].
  apply (later_event (H0:=sampleTrig) (H1:=constantRandom half)
           crowdedStart StartFood crowdedWorld crowdedWorld);
    [exact I|vm_compute; reflexivity|apply later_now].
Qed.

(** The tick that follows: a bot is added at the same place, and the worm
    of ["s1"] and the bot eat one item each. *)
Definition afterCrowdedTick : World f64 :=
  match gameLoop (H0:=sampleTrig) (H1:=constantRandom half) 10 0 crowdedWorld with
  | Ok (_, w) => w
  | _ => crowdedWorld
  end.

Lemma afterCrowdedTick_run :
  gameLoop (H0:=sampleTrig) (H1:=constantRandom half) 10 0 crowdedWorld
  = Ok (prepareGameState afterCrowdedTick, afterCrowdedTick).
Proof. vm_compute. reflexivity. Qed.

Lemma gameLoop_snapshot_never_lists_eaten_food_witness :
  reachable (H0:=sampleTrig) (H1:=constantRandom half) crowdedWorld
  /\ gameLoop (H0:=sampleTrig) (H1:=constantRandom half) 10 0 crowdedWorld
     = Ok (prepareGameState afterCrowdedTick, afterCrowdedTick)
  /\ (map (fun e => (eaten_id e, eaterId e))
          (gs_eatenFood (prepareGameState afterCrowdedTick)),
      length (gs_food (prepareGameState afterCrowdedTick)))
     = ([("food-24", "s1"); ("food-25", "bot_0")]%string, 46%nat)
  /\ NoDup (map food_id (gs_food (prepareGameState afterCrowdedTick)))
  /\ forall e, e ∈ gs_eatenFood (prepareGameState afterCrowdedTick) ->
       eaten_id e ∉ map food_id (gs_food (prepareGameState afterCrowdedTick)).
Proof.
  split; [exact crowdedWorld_reachable|]. split; [exact afterCrowdedTick_run|].
  split; [vm_compute; reflexivity|].
  exact (gameLoop_snapshot_never_lists_eaten_food
           (H0:=sampleTrig) (H1:=constantRandom half)
           10 0 crowdedWorld afterCrowdedTick (prepareGameState afterCrowdedTick)
           crowdedWorld_reachable afterCrowdedTick_run).
Defined.

(** The human ["s1"] after [killPlayer], and the world after its [respawn]
    request. *)
Definition deadPlayer : Player f64 :=
  mkPlayer "s1" "Worm_s1" false
           (Some (set_isAlive false (straightWorm (F64_of_Z 0)))).

Definition afterRespawn : World f64 :=
  match onRespawn (H0:=sampleTrig) (H1:=sampleRandom) "s1" afterKill with
  | Ok (_, w) => w
  | _ => afterKill
  end.

Lemma afterRespawn_run :
  onRespawn (H0:=sampleTrig) (H1:=sampleRandom) "s1" afterKill
  = Ok (tt, afterRespawn).
Proof. vm_compute. reflexivity. Qed.

Lemma afterKill_player :
  lookupPlayer "s1" (players afterKill) = Some deadPlayer.
Proof. vm_compute. reflexivity. Qed.

Lemma onRespawn_revives_only_the_dead_witness :
  lookupPlayer "s1" (players afterKill) = Some deadPlayer
  /\ worm deadPlayer = Some (set_isAlive false (straightWorm (F64_of_Z 0)))
  /\ onRespawn (H0:=sampleTrig) (H1:=sampleRandom) "s1" afterKill
     = Ok (tt, afterRespawn)
  /\ exists o',
       wormOf "s1" afterRespawn = Some o' /\ freshWorm false o'
       /\ map fst (players afterRespawn) = map fst (players afterKill)
       /\ food afterRespawn = food afterKill
       /\ eatenFoodThisTick afterRespawn = eatenFoodThisTick afterKill
       /\ timers afterRespawn = timers afterKill
       /\ emitted afterRespawn = emitted afterKill.
Proof.
  split; [exact afterKill_player|]. split; [reflexivity|].
  split; [exact afterRespawn_run|].
  exact (onRespawn_revives_only_the_dead (H0:=sampleTrig) (H1:=sampleRandom)
           "s1" afterKill afterRespawn deadPlayer
           (set_isAlive false (straightWorm (F64_of_Z 0)))
           afterKill_player eq_refl afterRespawn_run).
Defined.

Lemma killed_player_comes_back_witness :
  lookupPlayer "s1" (players (soloWorld (F64_of_Z 0))) = Some soloPlayer
  /\ worm soloPlayer = Some (straightWorm (F64_of_Z 0))
  /\ isAlive (straightWorm (F64_of_Z 0)) = true
  /\ killPlayer (H1:=sampleRandom) 10 "s1" (soloWorld (F64_of_Z 0))
     = Ok (tt, afterKill)
  /\ handle (H0:=sampleTrig) (H1:=sampleRandom) (Respawn "s1") afterKill
     = Ok (tt, afterRespawn)
  /\ enabled (Respawn "s1") afterKill
  /\ wormOf "s1" afterKill = Some (set_isAlive false (straightWorm (F64_of_Z 0)))
  /\ exists o2,
       wormOf "s1" afterRespawn = Some o2 /\ freshWorm false o2
       /\ map fst (players afterRespawn)
          = map fst (players (soloWorld (F64_of_Z 0)))
       /\ food afterRespawn = food afterKill.
Proof.
  split; [reflexivity|]. split; [reflexivity|]. split; [reflexivity|].
  split; [exact afterKill_run|]. split; [exact afterRespawn_run|].
  exact (killed_player_comes_back (H0:=sampleTrig) (H1:=sampleRandom)
           10 "s1" (soloWorld (F64_of_Z 0)) afterKill afterRespawn
           soloPlayer (straightWorm (F64_of_Z 0))
           eq_refl eq_refl eq_refl afterKill_run afterRespawn_run).
Defined.

End ServerExamples.

Section BotExample.
Local Open Scope Q_scope.

(** A world in exact arithmetic whose only player is a bot, with the
    straight worm and no target. *)
Definition botWormQ : Worm Q :=
  mkWorm straightSegments 0 0 (Hsl 200) 0 true false 0 false
         (Some (mkBotState None 0)).

Definition botPlayerQ : Player Q := mkPlayer "bot_0" "Bot t_0" true (Some botWormQ).

Definition botWorldQ : World Q :=
  mkWorld [("bot_0"%string, botPlayerQ)] [] [] 0 1 0 [] [].

Definition afterBotAI : World Q :=
  match updateBotAI (H0:=sampleTrig) (H1:=constantRandom (2 # 5)) "bot_0" botWorldQ with
  | Ok (_, w) => w
  | _ => botWorldQ
  end.

Lemma sampleAtan2_range (y x : Q) :
  - Q_PI <= sampleAtan2 y x /\ sampleAtan2 y x <= Q_PI.
Proof.
  pose proof Q_PI_bounds as [Hlo Hhi]. unfold sampleAtan2.
  change (Math_PI (num:=Q)) with Q_PI. change (of_Z (num:=Q) 0) with 0.
  change (of_Z (num:=Q) 2) with 2.
  change (div (num:=Q) Q_PI 2) with (Q_PI / 2).
  change (neg (num:=Q) (Q_PI / 2)) with (- (Q_PI / 2)).
  assert (Q_PI / 2 == Q_PI * (1 # 2)) as Hhalf by (now field).
  destruct (leb _ _); [destruct (ltb _ _)|destruct (ltb _ _)];
    rewrite ?Hhalf; split; lra.
Qed.

Lemma updateBotAI_stores_angle_in_range_witness :
  (forall y x : Q, - Q_PI <= sampleAtan2 y x /\ sampleAtan2 y x <= Q_PI)
  /\ (forall n : nat, 0 <= 2 # 5 /\ 2 # 5 < 1)
  /\ lookupPlayer "bot_0" (players botWorldQ) = Some botPlayerQ
  /\ worm botPlayerQ = Some botWormQ
  /\ isAlive botWormQ = true /\ segments botWormQ <> [] /\ 0 <= angle botWormQ
  /\ updateBotAI (H0:=sampleTrig) (H1:=constantRandom (2 # 5)) "bot_0" botWorldQ
     = Ok (tt, afterBotAI)
  /\ exists o',
       wormOf "bot_0" afterBotAI = Some o'
       /\ 0 <= targetAngle o' /\ targetAngle o' < Q_PI * 2.
Proof.
  assert (forall n : nat, 0 <= 2 # 5 /\ 2 # 5 < 1) as Hrandom
    by (intros _; split; [discriminate|reflexivity]).
  assert (segments botWormQ <> []) as Hsegs by discriminate.
  assert (0 <= angle botWormQ) as Hangle by (cbn; lra).
  assert (updateBotAI (H0:=sampleTrig) (H1:=constantRandom (2 # 5)) "bot_0" botWorldQ
          = Ok (tt, afterBotAI)) as Hrun by (vm_compute; reflexivity).
  split; [exact sampleAtan2_range|]. split; [exact Hrandom|].
  split; [reflexivity|]. split; [reflexivity|]. split; [reflexivity|].
  split; [exact Hsegs|]. split; [exact Hangle|]. split; [exact Hrun|].
  exact (updateBotAI_stores_angle_in_range
           (trig:=sampleTrig) (rs:=constantRandom (2 # 5))
           sampleAtan2_range Hrandom
           "bot_0" botWorldQ afterBotAI botPlayerQ botWormQ
           eq_refl eq_refl eq_refl Hsegs Hangle Hrun).
Defined.

(** A [Trig] whose cosine and sine are those of one angle, 3/5 and 4/5. *)
Definition fixedTrig : Trig Q :=
  {| Math_cos := fun _ => 3 # 5; Math_sin := fun _ => 4 # 5;
     Math_atan2 := fun _ _ => 0 |}.

Definition straightHeadQ : Point Q :=
  mkPoint (sub (of_Z 1500) (mul (of_nat 0) WORM_SEGMENT_DISTANCE))
          (of_Z 1500) WORLD_GROUND_Z.

Definition movedWorm : Worm Q :=
  match updateWorm (H0:=fixedTrig) 10 0 (straightWorm 0) with
  | Ok o => o
  | _ => straightWorm 0
  end.

Lemma updateWorm_moves_head_by_speed_witness :
  (forall a : Q, (3 # 5) * (3 # 5) + (4 # 5) * (4 # 5) == 1)
  /\ isAlive (straightWorm (num:=Q) 0) = true
  /\ segments (straightWorm (num:=Q) 0)
     = straightHeadQ :: tail (segments (straightWorm (num:=Q) 0))
  /\ updateWorm (H0:=fixedTrig) 10 0 (straightWorm 0) = Ok movedWorm
  /\ exists newHead,
       segments movedWorm
       = newHead :: straightHeadQ :: tail (segments (straightWorm (num:=Q) 0))
       /\ pt_x newHead
          == pt_x straightHeadQ + (3 # 5) * currentSpeed 0 (straightWorm 0)
       /\ pt_y newHead
          == pt_y straightHeadQ + (4 # 5) * currentSpeed 0 (straightWorm 0)
       /\ pt_z newHead = pt_z straightHeadQ
       /\ stepSquared straightHeadQ newHead
          == currentSpeed 0 (straightWorm 0) * currentSpeed 0 (straightWorm 0)
       /\ currentSpeed 0 (straightWorm 0) == 2.
Proof.
  assert (forall a : Q, (3 # 5) * (3 # 5) + (4 # 5) * (4 # 5) == 1) as Hunit
    by (intros _; reflexivity).
  assert (updateWorm (H0:=fixedTrig) 10 0 (straightWorm 0) = Ok movedWorm)
    as Hrun by (vm_compute; reflexivity).
  split; [exact Hunit|]. split; [reflexivity|]. split; [reflexivity|].
  split; [exact Hrun|].
  exact (updateWorm_moves_head_by_speed (trig:=fixedTrig) Hunit
           10 0 (straightWorm 0) movedWorm straightHeadQ
           (tail (segments (straightWorm (num:=Q) 0)))
           eq_refl eq_refl Hrun).
Defined.

End BotExample.
